(** * Collatinus (Go port): a shallow embedding and its checked properties

    Go strings are byte strings, so a [string] here is Rocq's byte string;
    a literal such as ["ā"] denotes its UTF-8 bytes, exactly as the same
    literal does in the Go sources.  Go's [int] is modelled by [Z]; the
    counters of this program stay far from the 64-bit bounds.  Maps are
    stdpp's [gmap]; pointers to lemmas and models are heap addresses. *)

From stdpp Require Import gmap strings list.
From Stdlib Require Import ZArith Ascii Lia.

Local Open Scope Z_scope.
Set Default Proof Using "Type".

(** ** The part of Go's [strings] and [unicode/utf8] packages the program uses *)

Module GoStrings.

Definition byteN (c : ascii) : N := N_of_ascii c.

(** [s[n:]] and [s[:n]] *)
Fixpoint strDrop (n : nat) (s : string) : string :=
  match n, s with
  | O, _ => s
  | S k, String _ t => strDrop k t
  | S _, EmptyString => EmptyString
  end.

Fixpoint strTake (n : nat) (s : string) : string :=
  match n, s with
  | O, _ => EmptyString
  | S k, String c t => String c (strTake k t)
  | S _, EmptyString => EmptyString
  end.

(** [strings.HasPrefix(s, p)] *)
Fixpoint HasPrefix (s p : string) : bool :=
  match p, s with
  | EmptyString, _ => true
  | String c p', String d s' => bool_decide (c = d) && HasPrefix s' p'
  | String _ _, EmptyString => false
  end.

(** [strings.HasSuffix(s, suf)] *)
Definition HasSuffix (s suf : string) : bool :=
  bool_decide (String.length suf ≤ String.length s)%nat
  && bool_decide (strDrop (String.length s - String.length suf) s = suf).

(** [strings.Index(s, sub)] for a non-empty [sub]: the byte offset of the
    first occurrence. *)
Fixpoint Index (s sub : string) : option nat :=
  if HasPrefix s sub then Some O
  else match s with
       | EmptyString => None
       | String _ t => S <$> Index t sub
       end.

Definition Contains (s sub : string) : bool :=
  bool_decide (is_Some (Index s sub)).

(** A replacement table in argument order, as given to
    [strings.NewReplacer]; the first pair whose key is a prefix of the
    remaining input wins. *)
Fixpoint lookupPair (pairs : list (string * string)) (s : string)
  : option (string * string) :=
  match pairs with
  | [] => None
  | (old, new) :: rest =>
      if HasPrefix s old then Some (old, new) else lookupPair rest s
  end.

(** [Replacer.Replace]: one left-to-right scan, matches do not overlap.
    [skip] is the number of bytes of the current match still to be
    stepped over (the [i += keylen] of the Go loop).  Keys are non-empty. *)
Fixpoint replaceFrom (skip : nat) (pairs : list (string * string))
  (s : string) : string :=
  match s with
  | EmptyString => EmptyString
  | String c t =>
      match skip with
      | S k => replaceFrom k pairs t
      | O =>
          match lookupPair pairs s with
          | Some (old, new) =>
              new +:+ replaceFrom (String.length old - 1) pairs t
          | None => String c (replaceFrom 0 pairs t)
          end
      end
  end.

Definition Replace (pairs : list (string * string)) (s : string) : string :=
  replaceFrom 0 pairs s.

(** [strings.ReplaceAll(s, old, new)] for a non-empty [old] *)
Definition ReplaceAll (s old new : string) : string :=
  Replace [(old, new)] s.

(** ** UTF-8 decoding, after [utf8.DecodeRuneInString]

    A rune is represented by its UTF-8 encoding; an ill-formed byte
    decodes to U+FFFD with width one. *)

Definition Rune := string.

Definition RuneError : Rune := "�".

Inductive FirstClass :=
| ASCII
| Invalid
| Lead (size : nat) (lo hi : N).

(** the [first] table together with [acceptRanges] *)
Definition first (b : N) : FirstClass :=
  (if b <? 0x80 then ASCII
   else if b <? 0xC2 then Invalid
   else if b <? 0xE0 then Lead 2 0x80 0xBF
   else if b =? 0xE0 then Lead 3 0xA0 0xBF
   else if b <? 0xED then Lead 3 0x80 0xBF
   else if b =? 0xED then Lead 3 0x80 0x9F
   else if b <? 0xF0 then Lead 3 0x80 0xBF
   else if b =? 0xF0 then Lead 4 0x90 0xBF
   else if b <? 0xF4 then Lead 4 0x80 0xBF
   else if b =? 0xF4 then Lead 4 0x80 0x8F
   else Invalid)%N.

Definition inRange (c : ascii) (lo hi : N) : bool :=
  ((lo <=? byteN c) && (byteN c <=? hi))%N.

(** continuation byte: between [locb] and [hicb] *)
Definition isCont (c : ascii) : bool := inRange c 0x80 0xBF.

Definition decodeRune (s : string) : Rune * nat :=
  match s with
  | EmptyString => (RuneError, 0%nat)
  | String c0 t =>
      match first (byteN c0) with
      | ASCII => (String c0 EmptyString, 1%nat)
      | Invalid => (RuneError, 1%nat)
      | Lead 2 lo hi =>
          match t with
          | String c1 _ =>
              if inRange c1 lo hi
              then (String c0 (String c1 EmptyString), 2%nat)
              else (RuneError, 1%nat)
          | _ => (RuneError, 1%nat)
          end
      | Lead 3 lo hi =>
          match t with
          | String c1 (String c2 _) =>
              if inRange c1 lo hi && isCont c2
              then (String c0 (String c1 (String c2 EmptyString)), 3%nat)
              else (RuneError, 1%nat)
          | _ => (RuneError, 1%nat)
          end
      | Lead _ lo hi =>
          match t with
          | String c1 (String c2 (String c3 _)) =>
              if inRange c1 lo hi && isCont c2 && isCont c3
              then (String c0 (String c1 (String c2 (String c3 EmptyString))),
                    4%nat)
              else (RuneError, 1%nat)
          | _ => (RuneError, 1%nat)
          end
      end
  end.

(** [[]rune(s)] *)
Fixpoint runesFrom (skip : nat) (s : string) : list Rune :=
  match s with
  | EmptyString => []
  | String _ t =>
      match skip with
      | S k => runesFrom k t
      | O => let '(r, w) := decodeRune s in r :: runesFrom (w - 1) t
      end
  end.

Definition runes (s : string) : list Rune := runesFrom 0 s.

(** [string(rs)] for a rune slice *)
Definition stringOfRunes (rs : list Rune) : string :=
  foldr String.app EmptyString rs.

(** [strings.Count(s, sub)]: non-overlapping occurrences; for an empty
    [sub], one more than the number of runes. *)
Fixpoint countFrom (skip : nat) (sub s : string) : Z :=
  match s with
  | EmptyString => 0
  | String _ t =>
      match skip with
      | S k => countFrom k sub t
      | O =>
          if HasPrefix s sub
          then 1 + countFrom (String.length sub - 1) sub t
          else countFrom 0 sub t
      end
  end.

Definition Count (s sub : string) : Z :=
  match sub with
  | EmptyString => Z.of_nat (length (runes s)) + 1
  | _ => countFrom 0 sub s
  end.

(** [strings.Split(s, sep)] for a one-byte separator *)
Fixpoint Split1 (s : string) (sep : ascii) : list string :=
  match s with
  | EmptyString => [EmptyString]
  | String c t =>
      if bool_decide (c = sep) then EmptyString :: Split1 t sep
      else match Split1 t sep with
           | [] => [String c EmptyString]
           | x :: xs => String c x :: xs
           end
  end.

End GoStrings.

(** ** normalize.go *)

Module Normalize.
Import GoStrings.

(** removes all vowel quantity marks (macrons and breves) *)
Definition atoneReplacer : list (string * string) :=
  [ ("ā", "a"); ("ă", "a"); ("ē", "e"); ("ĕ", "e"); ("ī", "i"); ("ĭ", "i");
    ("ō", "o"); ("ŏ", "o"); ("ū", "u"); ("ŭ", "u"); ("ȳ", "y"); ("ў", "y");
    ("Ā", "A"); ("Ă", "A"); ("Ē", "E"); ("Ĕ", "E"); ("Ī", "I"); ("Ĭ", "I");
    ("Ō", "O"); ("Ŏ", "O"); ("Ū", "U"); ("Ŭ", "U"); ("Ȳ", "Y"); ("Ў", "Y") ].

(** the combining breve U+0306 *)
Definition combiningBreve : string := "̆".

Definition Atone (s : string) : string :=
  let s := Replace atoneReplacer s in
  ReplaceAll s combiningBreve EmptyString.

(** Ramist spelling to classical, ligatures expanded *)
Definition deramiseReplacer : list (string * string) :=
  [ ("J", "I"); ("j", "i"); ("v", "u"); ("V", "U");
    ("æ", "ae"); ("Æ", "Ae"); ("œ", "oe"); ("Œ", "Oe"); ("ụ", "u") ].

Definition Deramise (s : string) : string := Replace deramiseReplacer s.

Definition NormalizeKey (s : string) : string := Atone (Deramise s).

End Normalize.

(** ** The data model (types.go, model.go, lemma.go, collatinus.go)

    A Go pointer is an address; the objects live in the two heaps of the
    [Lemmatizer] record below.  A nullable pointer is an [option]. *)

Definition ptr := positive.

Module Desinence.
Record t := mk {
  Grq : string;          (* the ending with vowel-quantity marks *)
  Gr : string;           (* Atone(Grq) *)
  MorphoNum : Z;
  RadNum : Z;
  Model : option ptr     (* the model that owns this desinence *)
}.
End Desinence.

Module Radical.
Record t := mk {
  Grq : string;
  Gr : string;
  Num : Z;
  Lemma : ptr
}.
End Radical.

Module Irreg.
Record t := mk {
  Grq : string;
  Gr : string;
  Exclusive : bool;
  Lemma : ptr;
  Morphos : list Z
}.
End Irreg.

Module Model.
Record t := mk {
  Name : string;
  parent : option ptr;
  RadicalRules : gmap Z string;
  Absents : list Z;
  Desinences : gmap Z (list Desinence.t);
  pos : Z                (* a rune; 0 when no pos directive was seen *)
}.
End Model.

Module Lemma.
Record t := mk {
  Key : string;
  Grq : string;
  Gr : string;
  modelName : string;
  model : option ptr;
  IndMorph : string;
  POS : Z;
  HomonymNum : Z;
  renvoi : string;
  altGrqs : list string;
  radicals : gmap Z (list Radical.t);
  irregs : list Irreg.t;
  morphosIrregExcl : list Z;
  NbOcc : Z;
  translations : gmap string string
}.
End Lemma.

(** types.go *)
Record Analysis := mkAnalysis {
  FormWithMarks : string;
  MorphoDescription : string;
  MorphoIndex : Z
}.

Record InflectionTable := mkInflectionTable {
  TableLemma : ptr;
  Cells : gmap Z (list string)
}.

(** collatinus.go.  [assims] and [contractions] are Go maps that the
    program only ever walks with [range], returning at the first hit; the
    lists below give the pairs in the order in which the walk meets them. *)
Record Lemmatizer := mkLemmatizer {
  morphos : list string;
  models : gmap string ptr;
  lemmas : gmap string ptr;
  desinences : gmap string (list Desinence.t);
  radicals : gmap string (list Radical.t);
  irregs : gmap string (list Irreg.t);
  variables : gmap string string;
  languages : gmap string string;
  assims : list (string * string);
  contractions : list (string * string);
  modelHeap : gmap ptr Model.t;
  lemmaHeap : gmap ptr Lemma.t
}.

(** Every address holds an object: outside the finite maps the heaps
    hold the zero value of the type.  (The pointers the program follows
    are never nil: a radical, an irregular and a result key are made with
    their lemma.) *)
Definition zeroModel : Model.t :=
  Model.mk EmptyString None ∅ [] ∅ 0.

Definition zeroLemma : Lemma.t :=
  Lemma.mk EmptyString EmptyString EmptyString EmptyString None EmptyString
    0 0 EmptyString [] ∅ [] [] 0 ∅.

Definition modelAt (l : Lemmatizer) (p : ptr) : Model.t :=
  default zeroModel (modelHeap l !! p).

Definition lemmaAt (l : Lemmatizer) (p : ptr) : Lemma.t :=
  default zeroLemma (lemmaHeap l !! p).

(** the state [New] starts loading from *)
Definition emptyLemmatizer : Lemmatizer :=
  mkLemmatizer [EmptyString] ∅ ∅ ∅ ∅ ∅ ∅ ∅ [] [] ∅ ∅.

(** [l.Morpho(m)] *)
Definition Morpho (l : Lemmatizer) (m : Z) : string :=
  if (m <? 1) || (m >=? Z.of_nat (length (morphos l)))
  then EmptyString
  else nth (Z.to_nat m) (morphos l) EmptyString.


(** [m[k] = append(m[k], x)] on a map of slices *)
Definition appendAt `{Countable K} {A} (m : gmap K (list A)) (k : K)
  (xs : list A) : gmap K (list A) :=
  <[k := default [] (m !! k) ++ xs]> m.

Definition addDesinence (l : Lemmatizer) (d : Desinence.t) : Lemmatizer :=
  let key := Normalize.Deramise (Desinence.Gr d) in
  mkLemmatizer (morphos l) (models l) (lemmas l)
    (appendAt (desinences l) key [d])
    (radicals l) (irregs l) (variables l) (languages l) (assims l)
    (contractions l) (modelHeap l) (lemmaHeap l).

Definition addRadical (l : Lemmatizer) (r : Radical.t) : Lemmatizer :=
  let key := Normalize.Deramise (Radical.Gr r) in
  mkLemmatizer (morphos l) (models l) (lemmas l) (desinences l)
    (appendAt (radicals l) key [r])
    (irregs l) (variables l) (languages l) (assims l)
    (contractions l) (modelHeap l) (lemmaHeap l).

(** lemma.go *)

Definition addIrreg (l : Lemma.t) (irr : Irreg.t) : Lemma.t :=
  Lemma.mk (Lemma.Key l) (Lemma.Grq l) (Lemma.Gr l) (Lemma.modelName l)
    (Lemma.model l) (Lemma.IndMorph l) (Lemma.POS l) (Lemma.HomonymNum l)
    (Lemma.renvoi l) (Lemma.altGrqs l) (Lemma.radicals l)
    (Lemma.irregs l ++ [irr])
    (if Irreg.Exclusive irr
     then Lemma.morphosIrregExcl l ++ Irreg.Morphos irr
     else Lemma.morphosIrregExcl l)
    (Lemma.NbOcc l) (Lemma.translations l).

Fixpoint containsZ (vs : list Z) (a : Z) : bool :=
  match vs with
  | [] => false
  | v :: rest => if v =? a then true else containsZ rest a
  end.

Definition isExclusiveIrreg (l : Lemma.t) (nm : Z) : bool :=
  containsZ (Lemma.morphosIrregExcl l) nm.

(** the first irregular, in list order, one of whose slots is [i] *)
Fixpoint irregAtIn (irs : list Irreg.t) (i : Z) : string * bool :=
  match irs with
  | [] => (EmptyString, false)
  | ir :: rest =>
      if containsZ (Irreg.Morphos ir) i
      then (Irreg.Grq ir, Irreg.Exclusive ir)
      else irregAtIn rest i
  end.

Definition irregAt (l : Lemma.t) (i : Z) : string * bool :=
  irregAtIn (Lemma.irregs l) i.

Definition RadicalsAt (l : Lemma.t) (r : Z) : list Radical.t :=
  default [] (Lemma.radicals l !! r).

(** model.go *)

Definition newModel (name : string) : Model.t :=
  Model.mk name None ∅ [] ∅ 0.

Definition hasDesinence (m : Model.t) (morphoNum : Z) : bool :=
  bool_decide (is_Some (Model.Desinences m !! morphoNum)).

Definition isAbsent (m : Model.t) (a : Z) : bool :=
  containsZ (Model.Absents m) a.

Definition DesinencesAt (m : Model.t) (morphoNum : Z) : list Desinence.t :=
  default [] (Model.Desinences m !! morphoNum).

(** the order of a [range] over a map is not specified; this is one *)
Definition AllDesinences (m : Model.t) : list Desinence.t :=
  concat (snd <$> map_to_list (Model.Desinences m)).

Definition cloneDesinence (d : Desinence.t) (newModel : option ptr)
  : Desinence.t :=
  Desinence.mk (Desinence.Grq d) (Desinence.Gr d) (Desinence.MorphoNum d)
    (Desinence.RadNum d) newModel.

(** ** Loading (the unnamed loader file): morphos and models *)

Module Loader.
Import GoStrings Normalize.

(** The scanner hands [loadMorphos] the lines of the file one by one;
    this is the loop over them, started on [l.morphos]. *)
Fixpoint loadMorphosLines (lines : list string) (acc : list string)
  : list string :=
  match lines with
  | [] => acc
  | line :: rest =>
      if HasPrefix line "! --- " then acc
      else if HasPrefix line "!" then loadMorphosLines rest acc
      else match Index line ":" with
           | None => loadMorphosLines rest acc
           | Some idx =>
               loadMorphosLines rest (acc ++ [strDrop (idx + 1) line])
           end
  end.

Definition loadMorphos (l : Lemmatizer) (lines : list string) : Lemmatizer :=
  mkLemmatizer (loadMorphosLines lines (morphos l)) (models l) (lemmas l)
    (desinences l) (radicals l) (irregs l) (variables l) (languages l)
    (assims l) (contractions l) (modelHeap l) (lemmaHeap l).

(** [strings.Replace(s, old, new, 1)] for a non-empty [old] *)
Definition ReplaceFirst (s old new : string) : string :=
  match Index s old with
  | None => s
  | Some i => strTake i s +:+ new +:+ strDrop (i + String.length old) s
  end.

(** The substitution loop stops when no dollar sign is left or a name
    is unknown; a value that mentions its own name keeps it going for
    ever, hence the fuel. *)
Fixpoint substituteVars (fuel : nat) (vars : gmap string string)
  (line : string) : option string :=
  match Index line "$" with
  | None => Some line
  | Some d =>
      let tail := strDrop d line in
      let varName :=
        match Index tail ";" with
        | None => tail
        | Some f => strTake f tail
        end in
      match vars !! varName with
      | None => Some line
      | Some val =>
          match fuel with
          | O => None
          | S fuel' =>
              substituteVars fuel' vars (ReplaceFirst line varName val)
          end
      end
  end.

Section GoLibrary.
(** [strings.TrimSpace] and [strconv.Atoi] (its error dropped, as the
    callers do) are taken as they are. *)
Variable TrimSpace : string -> string.
Variable Atoi : string -> Z.

(** the integers from [a] to [b], none when [b < a] *)
Definition rangeZ (a b : Z) : list Z :=
  (λ k : nat, a + Z.of_nat k) <$> seq 0 (Z.to_nat (b - a + 1)).

Definition ListI (s : string) : list Z :=
  concat
    ((λ part : string,
        let part := TrimSpace part in
        match Index part "-" with
        | Some (S idx') =>
            rangeZ (Atoi (strTake (S idx') part))
                   (Atoi (strDrop (S idx' + 1) part))
        | _ => [Atoi part]
        end) <$> Split1 s ","%char).

(** the compiler's state while it reads a block: the lemmatizer, the
    model under construction and the buffered [suf] entries *)
Record ParseState := mkParseState {
  psL : Lemmatizer;
  psM : Model.t;
  psSuf : list (string * Z)
}.

Definition setName (m : Model.t) (n : string) : Model.t :=
  Model.mk n (Model.parent m) (Model.RadicalRules m) (Model.Absents m)
    (Model.Desinences m) (Model.pos m).
Definition setParent (m : Model.t) (p : option ptr) : Model.t :=
  Model.mk (Model.Name m) p (Model.RadicalRules m) (Model.Absents m)
    (Model.Desinences m) (Model.pos m).
Definition setRule (m : Model.t) (rn : Z) (rule : string) : Model.t :=
  Model.mk (Model.Name m) (Model.parent m)
    (<[rn := rule]> (Model.RadicalRules m)) (Model.Absents m)
    (Model.Desinences m) (Model.pos m).
Definition setAbsents (m : Model.t) (a : list Z) : Model.t :=
  Model.mk (Model.Name m) (Model.parent m) (Model.RadicalRules m) a
    (Model.Desinences m) (Model.pos m).
Definition setPos (m : Model.t) (p : Z) : Model.t :=
  Model.mk (Model.Name m) (Model.parent m) (Model.RadicalRules m)
    (Model.Absents m) (Model.Desinences m) p.
Definition pushDesinence (m : Model.t) (mn : Z) (d : Desinence.t)
  : Model.t :=
  Model.mk (Model.Name m) (Model.parent m) (Model.RadicalRules m)
    (Model.Absents m) (appendAt (Model.Desinences m) mn [d]) (Model.pos m).

(** [m.Desinences[mn] = append(m.Desinences[mn], d); l.addDesinence(d)] *)
Definition install (st : ParseState) (mn : Z) (d : Desinence.t)
  : ParseState :=
  mkParseState (addDesinence (psL st) d) (pushDesinence (psM st) mn d)
    (psSuf st).

Definition withModel (st : ParseState) (m : Model.t) : ParseState :=
  mkParseState (psL st) m (psSuf st).

Definition parentModel (st : ParseState) : option Model.t :=
  modelAt (psL st) <$> Model.parent (psM st).

(** one [des] / [des+] line, its fields already checked to be four *)
Definition desDirective (self : ptr) (plus : bool) (st : ParseState)
  (f1 f2 f3 : string) : ParseState :=
  let morphoNums := ListI f1 in
  let radNum := Atoi f2 in
  let desStrs := Split1 f3 ";"%char in
  let st :=
    foldl (λ st (imn : nat * Z),
             let '(i, mn) := imn in
             let desStr :=
               if bool_decide (i < length desStrs)%nat
               then nth i desStrs EmptyString
               else if bool_decide (0 < length desStrs)%nat
                    then nth (length desStrs - 1) desStrs EmptyString
                    else EmptyString in
             foldl (λ st g,
                      let grq := if bool_decide (g = "-") then EmptyString
                                 else g in
                      install st mn
                        (Desinence.mk grq (Atone grq) mn radNum (Some self)))
               st (Split1 desStr ","%char))
      st (imap pair morphoNums) in
  match plus, parentModel st with
  | true, Some pm =>
      foldl (λ st mn,
               foldl (λ st dp, install st mn (cloneDesinence dp (Some self)))
                 st (DesinencesAt pm mn))
        st morphoNums
  | _, _ => st
  end.

(** [sufd:S] *)
Definition sufdDirective (self : ptr) (st : ParseState) (suf : string)
  : ParseState :=
  match parentModel st with
  | None => st
  | Some pm =>
      foldl (λ st dp,
               if isAbsent (psM st) (Desinence.MorphoNum dp) then st
               else
                 let grq := Desinence.Grq dp +:+ suf in
                 install st (Desinence.MorphoNum dp)
                   (Desinence.mk grq (Atone grq) (Desinence.MorphoNum dp)
                      (Desinence.RadNum dp) (Some self)))
        st (AllDesinences pm)
  end.

(** the [switch] on [eclats[0]]; a case whose line is too short does
    nothing *)
Definition directive (self : ptr) (st : ParseState) (eclats : list string)
  : ParseState :=
  match eclats with
  | [] => st
  | e0 :: args =>
      if bool_decide (e0 = "modele") then
        match args with
        | f1 :: _ => withModel st (setName (psM st) f1)
        | _ => st
        end
      else if bool_decide (e0 = "pere") then
        match args with
        | f1 :: _ =>
            withModel st (setParent (psM st) (models (psL st) !! f1))
        | _ => st
        end
      else if bool_decide (e0 = "des") || bool_decide (e0 = "des+") then
        match args with
        | f1 :: f2 :: f3 :: _ =>
            desDirective self (bool_decide (e0 = "des+")) st f1 f2 f3
        | _ => st
        end
      else if bool_decide (e0 = "R") then
        match args with
        | f1 :: f2 :: _ => withModel st (setRule (psM st) (Atoi f1) f2)
        | _ => st
        end
      else if bool_decide (e0 = "abs") then
        match args with
        | f1 :: _ => withModel st (setAbsents (psM st) (ListI f1))
        | _ => st
        end
      else if bool_decide (e0 = "abs+") then
        match args with
        | f1 :: _ =>
            withModel st
              (setAbsents (psM st) (Model.Absents (psM st) ++ ListI f1))
        | _ => st
        end
      else if bool_decide (e0 = "pos") then
        match args with
        | String c _ :: _ =>
            withModel st (setPos (psM st) (Z.of_N (byteN c)))
        | _ => st
        end
      else if bool_decide (e0 = "suf") then
        match args with
        | f1 :: f2 :: _ =>
            mkParseState (psL st) (psM st)
              (psSuf st ++ ((λ mn, (f2, mn)) <$> ListI f1))
        | _ => st
        end
      else if bool_decide (e0 = "sufd") then
        match args with
        | f1 :: _ => sufdDirective self st f1
        | _ => st
        end
      else st
  end.

(** the inheritance block that follows the directive loop *)
Definition inherit (self : ptr) (st : ParseState) : ParseState :=
  let st :=
    match parentModel st with
    | Some pm =>
        if Model.pos (psM st) =? 0
        then withModel st (setPos (psM st) (Model.pos pm)) else st
    | None => st
    end in
  match parentModel st with
  | None => st
  | Some pm =>
      (* endings of the slots the child does not define *)
      let st :=
        foldl (λ st (e : Z * list Desinence.t),
                 let '(mn, parentDes) := e in
                 if hasDesinence (psM st) mn then st
                 else
                   foldl (λ st dp,
                            if isAbsent (psM st) (Desinence.MorphoNum dp)
                            then st
                            else install st mn
                                   (cloneDesinence dp (Some self)))
                     st parentDes)
          st (map_to_list (Model.Desinences pm)) in
      (* radical rules *)
      let st :=
        foldl (λ st d,
                 match Model.RadicalRules (psM st) !! Desinence.RadNum d with
                 | Some _ => st
                 | None =>
                     match Model.RadicalRules pm !! Desinence.RadNum d with
                     | Some rule =>
                         withModel st
                           (setRule (psM st) (Desinence.RadNum d) rule)
                     | None => st
                     end
                 end)
          st (AllDesinences (psM st)) in
      (* absents *)
      withModel st (setAbsents (psM st) (Model.Absents pm))
  end.

(** the buffered [suf] directives *)
Definition applySuffixes (self : ptr) (st : ParseState) : ParseState :=
  let sufDesSlice :=
    concat
      ((λ se : string * Z,
          (λ d, let grq := Desinence.Grq d +:+ se.1 in
                Desinence.mk grq (Atone grq) (Desinence.MorphoNum d)
                  (Desinence.RadNum d) (Some self))
            <$> DesinencesAt (psM st) se.2) <$> psSuf st) in
  foldl (λ st d, install st (Desinence.MorphoNum d) d) st sufDesSlice.

Fixpoint directives (fuel : nat) (self : ptr) (st : ParseState)
  (lines : list string) : option ParseState :=
  match lines with
  | [] => Some st
  | line :: rest =>
      match substituteVars fuel (variables (psL st)) line with
      | None => None
      | Some line =>
          directives fuel self
            (directive self st (Split1 (TrimSpace line) ":"%char)) rest
      end
  end.

(** [parseModel]: [self] is the address of the model that [newModel]
    allocates.  The result is the lemmatizer with the new endings
    indexed and the model stored at [self], and the pointer returned:
    nil when the block gave no name. *)
Definition parseModel (fuel : nat) (self : ptr) (l : Lemmatizer)
  (lines : list string) : option (Lemmatizer * option ptr) :=
  match directives fuel self
          (mkParseState l (newModel EmptyString) []) lines with
  | None => None
  | Some st =>
      let st := applySuffixes self (inherit self st) in
      let l := psL st in
      let l :=
        mkLemmatizer (morphos l) (models l) (lemmas l) (desinences l)
          (radicals l) (irregs l) (variables l) (languages l) (assims l)
          (contractions l) (<[self := psM st]> (modelHeap l))
          (lemmaHeap l) in
      Some (l, if bool_decide (Model.Name (psM st) = EmptyString)
               then None else Some self)
  end.

End GoLibrary.
End Loader.

(** ** lemmatize.go *)

Module Lemmatize.
Import GoStrings Normalize.

(** a value of type [map[*Lemma][]Analysis]; it may be the nil map *)
Inductive GoMap :=
| NilMap
| MkMap (m : gmap ptr (list Analysis)).

Definition entries (mm : GoMap) : gmap ptr (list Analysis) :=
  match mm with NilMap => ∅ | MkMap m => m end.

(** [len(mm)] *)
Definition lenMap (mm : GoMap) : Z := Z.of_nat (size (entries mm)).

(** the loop [for nl, lsl := range src { if mm == nil { mm = make(..) };
    mm[nl] = append(mm[nl], lsl...) }] *)
Definition mergeInto (mm src : GoMap) : GoMap :=
  foldl (λ mm (e : ptr * list Analysis),
           MkMap (appendAt (entries mm) e.1 e.2))
    mm (map_to_list (entries src)).

(** The two functions of this file call themselves and each other.  A
    body is written as a program that either returns or invokes one of
    them and goes on with the answer, so that the calls a body makes can
    be read off it. *)
Inductive Call :=
| CallRaw (form : string)
| CallEtape (form : string) (sentenceStart : bool) (etape : Z).

Inductive Prog (A : Type) :=
| Ret (a : A)
| Invoke (c : Call) (k : GoMap -> Prog A).
Arguments Ret {A} a.
Arguments Invoke {A} c k.

Fixpoint bind {A B} (f : A -> Prog B) (p : Prog A) : Prog B :=
  match p with
  | Ret a => f a
  | Invoke c k => Invoke c (λ r, bind f (k r))
  end.

(** [x ← p; q] is [bind (λ x, q) p] *)
Global Instance Prog_bind : MBind Prog := @bind.

Definition call (c : Call) : Prog GoMap := Invoke c Ret.

(** running a program, the calls answered by [rec] *)
Fixpoint interp {A} (rec : Call -> option GoMap) (p : Prog A) : option A :=
  match p with
  | Ret a => Some a
  | Invoke c k =>
      match rec c with
      | None => None
      | Some r => interp rec (k r)
      end
  end.

Definition enclitics : list string := ["ne"; "que"; "ue"; "ve"; "st"].

Fixpoint assimIn (pairs : list (string * string)) (a : string) : string :=
  match pairs with
  | [] => a
  | (prefix, assimilated) :: rest =>
      if HasPrefix a prefix
      then assimilated +:+ strDrop (String.length prefix) a
      else assimIn rest a
  end.

Fixpoint desassimIn (pairs : list (string * string)) (a : string) : string :=
  match pairs with
  | [] => a
  | (unassim, assim) :: rest =>
      if HasPrefix a assim
      then unassim +:+ strDrop (String.length assim) a
      else desassimIn rest a
  end.

Fixpoint decontracteIn (pairs : list (string * string)) (d : string)
  : string :=
  match pairs with
  | [] => d
  | (suffix, expanded) :: rest =>
      if HasSuffix d suffix
      then strTake (String.length d - String.length suffix) d +:+ expanded
      else decontracteIn rest d
  end.

Definition assim (l : Lemmatizer) (a : string) : string :=
  assimIn (assims l) a.
Definition desassim (l : Lemmatizer) (a : string) : string :=
  desassimIn (assims l) a.
Definition decontracte (l : Lemmatizer) (d : string) : string :=
  decontracteIn (contractions l) d.

(** the last byte of [r] is [c] *)
Definition lastByteIs (r : string) (c : ascii) : bool :=
  bool_decide (0 < String.length r)%nat
  && bool_decide (strDrop (String.length r - 1) r = String c EmptyString).

Definition firstByteIs (d : string) (c : ascii) : bool :=
  match d with
  | String c0 _ => bool_decide (c0 = c)
  | EmptyString => false
  end.

Definition needDoubleI (r d : string) : bool :=
  let rEndsI := lastByteIs r "i" in
  let rEndsII := HasSuffix r "ii" in
  let dStartsI := firstByteIs d "i" in
  let dStartsII := HasPrefix d "ii" in
  (bool_decide (String.length d = 0%nat) && rEndsI)
  || (dStartsI && negb dStartsII && negb rEndsI)
  || (rEndsI && negb rEndsII && negb dStartsI).

(** the three counters taken from the form before it is deramised *)
Record Counts := mkCounts { cntV : Z; cntAe : Z; cntOe : Z }.

Section Unicode.
(** [strings.ToLower], [unicode.IsUpper], [unicode.IsLower] and
    [unicode.ToUpper] are taken as they are. *)
Variable ToLower : string -> string.
Variable IsUpper IsLower : Rune -> bool.
Variable ToUpper : Rune -> Rune.

Definition countsOf (form : string) : Counts :=
  let lower := ToLower form in
  let cntV := Count lower "v" in
  let cntAe := Count lower "æ" in
  let cntOe := Count lower "œ" in
  let cntAe := if HasSuffix lower "æ" then cntAe - 1 else cntAe in
  mkCounts cntV cntAe cntOe.

(** the vowel-count consistency check *)
Definition vowelOK (c : Counts) (rad : Radical.t) (de : Desinence.t)
  : bool :=
  let radGrqLower := ToLower (Radical.Grq rad) in
  let desGrqLower := ToLower (Desinence.Grq de) in
  let cOK := (cntV c =? 0)
             || (cntV c =? Count radGrqLower "v" + Count desGrqLower "v") in
  let cOK := cOK && ((cntOe c =? 0) || (cntOe c =? Count radGrqLower "ōe")) in
  let cOK := cOK && ((cntAe c =? 0)
                     || (cntAe c =? Count radGrqLower "āe"
                                    + Count radGrqLower "prăe")) in
  cOK.

(** the four [continue] tests that come before the vowel check *)
Definition compatible (l : Lemmatizer) (rad : Radical.t)
  (de : Desinence.t) : bool :=
  let lemma := lemmaAt l (Radical.Lemma rad) in
  bool_decide (Desinence.Model de = Lemma.model lemma)
  && (Desinence.RadNum de =? Radical.Num rad)
  && negb (isExclusiveIrreg lemma (Desinence.MorphoNum de))
  && negb ((Desinence.MorphoNum de <? 1)
           || (Desinence.MorphoNum de >=? Z.of_nat (length (morphos l)))).

(** the pairs of the cross product that reach the [append] *)
Definition accepted (l : Lemmatizer) (c : Counts)
  (rads : list Radical.t) (des : list Desinence.t)
  : list (Radical.t * Desinence.t) :=
  rad ← rads; de ← des;
  if compatible l rad de && vowelOK c rad de then [(rad, de)] else [].

Definition regularAnalysis (l : Lemmatizer)
  (p : Radical.t * Desinence.t) : Analysis :=
  mkAnalysis (Radical.Grq p.1 +:+ Desinence.Grq p.2)
    (Morpho l (Desinence.MorphoNum p.2)) (Desinence.MorphoNum p.2).

Definition regular (l : Lemmatizer) (c : Counts)
  (rads : list Radical.t) (des : list Desinence.t)
  (result : gmap ptr (list Analysis)) : gmap ptr (list Analysis) :=
  foldl (λ result p,
           appendAt result (Radical.Lemma p.1) [regularAnalysis l p])
    result (accepted l c rads des).

(** step 1: irregular forms *)
Definition irregular (l : Lemmatizer) (form : string)
  (result : gmap ptr (list Analysis)) : gmap ptr (list Analysis) :=
  match irregs l !! form with
  | None => result
  | Some irrs =>
      foldl (λ result irr,
               foldl (λ result mn,
                        appendAt result (Irreg.Lemma irr)
                          [mkAnalysis (Irreg.Grq irr) (Morpho l mn) mn])
                 result (Irreg.Morphos irr))
        result irrs
  end.

(** taking the inserted [i] out of a returned form again *)
Definition dropExtraI (rLen : nat) (an : Analysis) : Analysis :=
  let grq := runes (FormWithMarks an) in
  if bool_decide (0 < rLen)%nat && bool_decide (rLen - 1 < length grq)%nat
  then mkAnalysis
         (stringOfRunes (take (rLen - 1) grq)
          +:+ stringOfRunes (drop rLen grq))
         (MorphoDescription an) (MorphoIndex an)
  else an.

Definition foldDoubleI (rLen : nat) (result : gmap ptr (list Analysis))
  (nm : GoMap) : gmap ptr (list Analysis) :=
  foldl (λ result (e : ptr * list Analysis),
           appendAt result e.1 (dropExtraI rLen <$> e.2))
    result (map_to_list (entries nm)).

(** one turn of the split loop, at rune index [i] *)
Definition splitStep (l : Lemmatizer) (c : Counts) (rs : list Rune)
  (i : nat) (result : gmap ptr (list Analysis))
  : Prog (gmap ptr (list Analysis)) :=
  let r := stringOfRunes (take i rs) in
  let d := stringOfRunes (drop i rs) in
  match radicals l !! r with
  | None => Ret result
  | Some rads =>
      result ←
        (if needDoubleI r d
         then nm ← call (CallRaw (r +:+ "i" +:+ d));
              Ret (foldDoubleI (length (runes r)) result nm)
         else Ret result);
      match desinences l !! d with
      | None => Ret result
      | Some des => Ret (regular l c rads des result)
      end
  end.

Fixpoint splitLoop (l : Lemmatizer) (c : Counts) (rs : list Rune)
  (idxs : list nat) (result : gmap ptr (list Analysis))
  : Prog (gmap ptr (list Analysis)) :=
  match idxs with
  | [] => Ret result
  | i :: rest =>
      result ← splitStep l c rs i result;
      splitLoop l c rs rest result
  end.

Definition lemmatizeRaw (l : Lemmatizer) (form : string) : Prog GoMap :=
  let c := countsOf form in
  let form := Deramise form in
  let result := irregular l form ∅ in
  let rs := runes form in
  result ← splitLoop l c rs (seq 0 (S (length rs))) result;
  Ret (MkMap result).

(** the first rune of [form] satisfies [p] *)
Definition firstRune (p : Rune -> bool) (form : string) : bool :=
  match runes form with
  | r0 :: _ => p r0
  | [] => false
  end.

Definition capitalize (form : string) : string :=
  match runes form with
  | r0 :: rest => stringOfRunes (ToUpper r0 :: rest)
  | [] => EmptyString
  end.

(** stage 1: the loop over the enclitics *)
Fixpoint stripEnclitics (form : string) (sentenceStart : bool)
  (sufs : list string) (mm : GoMap) : Prog GoMap :=
  match sufs with
  | [] => Ret mm
  | suf :: rest =>
      if lenMap mm >? 0 then Ret mm
      else if HasSuffix form suf then
        let sf := strTake (String.length form - String.length suf) form in
        mm ← call (CallEtape (if bool_decide (suf = "st") then sf +:+ "s"
                               else sf) sentenceStart 1);
        stripEnclitics form sentenceStart rest mm
      else stripEnclitics form sentenceStart rest mm
  end.

Definition lemmatizeMEtape (l : Lemmatizer) (form : string)
  (sentenceStart : bool) (etape : Z) : Prog GoMap :=
  if bool_decide (form = EmptyString) then Ret NilMap
  else if etape >? 3 then
    mm ← call (CallRaw form);
    if sentenceStart && bool_decide (0 < String.length form)%nat
       && firstRune IsUpper form
    then sub ← call (CallEtape (ToLower form) false 4);
         Ret (mergeInto mm sub)
    else Ret mm
  else
    mm ← call (CallEtape form sentenceStart (etape + 1));
    if etape =? 3 then
      let fd := decontracte l form in
      if bool_decide (fd ≠ form)
      then sub ← call (CallEtape fd sentenceStart 4);
           Ret (mergeInto mm sub)
      else Ret mm
    else if etape =? 2 then
      let fa := assim l form in
      if bool_decide (fa ≠ form)
      then sub ← call (CallEtape fa sentenceStart 3);
           Ret (mergeInto mm sub)
      else
        let fd := desassim l form in
        if bool_decide (fd ≠ form)
        then sub ← call (CallEtape fd sentenceStart 3);
             Ret (mergeInto mm sub)
        else Ret mm
    else if etape =? 1 then
      if lenMap mm =? 0
      then stripEnclitics form sentenceStart enclitics mm
      else Ret mm
    else if etape =? 0 then
      if (lenMap mm =? 0) && bool_decide (0 < String.length form)%nat
         && firstRune IsLower form
      then call (CallEtape (capitalize form) false 1)
      else Ret mm
    else Ret mm.

Definition body (l : Lemmatizer) (c : Call) : Prog GoMap :=
  match c with
  | CallRaw form => lemmatizeRaw l form
  | CallEtape form sentenceStart etape =>
      lemmatizeMEtape l form sentenceStart etape
  end.

(** execution with a bound on the depth of the call stack *)
Fixpoint run (l : Lemmatizer) (depth : nat) (c : Call) : option GoMap :=
  match depth with
  | O => None
  | S n => interp (run l n) (body l c)
  end.

(** [lemmatizeM] and the exported [LemmatizeWord] enter at stage 0 *)
Definition lemmatizeM (form : string) (sentenceStart : bool) : Call :=
  CallEtape form sentenceStart 0.

Definition LemmatizeWord (form : string) (sentenceStart : bool) : Call :=
  lemmatizeM form sentenceStart.

(** [c] returns [r]: it does so within some depth of stack *)
Definition Returns (l : Lemmatizer) (c : Call) (r : GoMap) : Prop :=
  ∃ n, ∀ depth, (n ≤ depth)%nat → run l depth c = Some r.

(** the calls a program makes when its calls are answered by [rec] *)
Inductive Invokes {A} (rec : Call -> option GoMap)
  : Prog A -> Call -> Prop :=
| invokes_here c k : Invokes rec (Invoke c k) c
| invokes_later c k r c' :
    rec c = Some r -> Invokes rec (k r) c' -> Invokes rec (Invoke c k) c'.

End Unicode.
End Lemmatize.

(** ** The inflection-table file *)

Module Inflection.

(** [unique]: first occurrences, in order *)
Fixpoint uniqueFrom (seen : list string) (ss : list string) : list string :=
  match ss with
  | [] => []
  | s :: rest =>
      if bool_decide (s ∈ seen) then uniqueFrom seen rest
      else s :: uniqueFrom (s :: seen) rest
  end.

Definition unique (ss : list string) : list string := uniqueFrom [] ss.

(** [inflectedForms]; the nil slice is the empty list *)
Definition inflectedForms (l : Lemmatizer) (lemma : option ptr)
  (morphoIdx : Z) : list string :=
  match lemma with
  | None => []
  | Some lp =>
      let lem := lemmaAt l lp in
      match Lemma.model lem with
      | None => []
      | Some mp =>
          let m := modelAt l mp in
          let '(irreqGrq, exclusive) := irregAt lem morphoIdx in
          if exclusive then
            if bool_decide (irreqGrq ≠ EmptyString) then [irreqGrq] else []
          else
            let forms :=
              if bool_decide (irreqGrq ≠ EmptyString) then [irreqGrq]
              else [] in
            let forms :=
              forms ++
              (d ← DesinencesAt m morphoIdx;
               rad ← RadicalsAt lem (Desinence.RadNum d);
               [Radical.Grq rad +:+ Desinence.Grq d]) in
            unique forms
      end
  end.

(** [inflectionTable]; [None] is the nil table *)
Definition inflectionTable (l : Lemmatizer) (lemma : option ptr)
  : option InflectionTable :=
  match lemma with
  | None => None
  | Some lp =>
      match Lemma.model (lemmaAt l lp) with
      | None => None
      | Some mp =>
          let m := modelAt l mp in
          Some (mkInflectionTable lp
                  (map_imap (λ mn _,
                               let forms := inflectedForms l lemma mn in
                               if bool_decide (0 < length forms)%nat
                               then Some forms else None)
                     (Model.Desinences m)))
      end
  end.

End Inflection.

(** ** The notions the stated properties are phrased with *)

Module Notions.
Import GoStrings Loader Lemmatize.

(** a rune as the decoder gives it back: a well-formed UTF-8 sequence *)
Definition ValidRune (c : Rune) : Prop :=
  decodeRune c = (c, String.length c).

(** well-formed UTF-8: a concatenation of well-formed sequences *)
Definition WellFormed (s : string) : Prop :=
  ∃ cs, Forall ValidRune cs ∧ s = stringOfRunes cs.

Fixpoint allCont (t : string) : bool :=
  match t with
  | EmptyString => true
  | String c t' => isCont c && allCont t'
  end.

(** a replacement table whose keys are single runes and whose values
    are well-formed *)
Definition RuneTable (pairs : list (string * string)) : Prop :=
  Forall (λ p : string * string,
            ValidRune p.1 ∧ stringOfRunes (runes p.2) = p.2) pairs.

(** what a replacer with such a table makes of one rune *)
Definition image (pairs : list (string * string)) (c : Rune) : list Rune :=
  match lookupPair pairs c with
  | Some (_, new) => runes new
  | None => [c]
  end.

(** what [Atone] and [Deramise] make of one rune *)
Definition atoneImage (c : Rune) : list Rune :=
  image Normalize.atoneReplacer c
    ≫= image [(Normalize.combiningBreve, EmptyString)].

Definition deramiseImage (c : Rune) : list Rune :=
  image Normalize.deramiseReplacer c.

(** the runes either function touches *)
Definition markedRunes : list Rune :=
  (fst <$> Normalize.deramiseReplacer) ++ (fst <$> Normalize.atoneReplacer)
  ++ [Normalize.combiningBreve].

(** the calls a program can make, whatever answers its calls get *)
Inductive MayInvoke {A} : Prog A → Call → Prop :=
| may_here c k : MayInvoke (Invoke c k) c
| may_later c k r c' : MayInvoke (k r) c' → MayInvoke (Invoke c k) c'.

(** *** Lone letters i, counted on the bytes of a form

    [isoIn p r n] counts the bytes [i] of [r] that have no [i] next to
    them, [p] and [n] telling whether an [i] stands before and after
    [r]. *)
Definition isI (c : ascii) : bool := bool_decide (c = "i"%char).

Definition nextFlag (t : string) (n : bool) : bool :=
  match t with
  | EmptyString => n
  | String c _ => isI c
  end.

Fixpoint lastFlag (p : bool) (r : string) : bool :=
  match r with
  | EmptyString => p
  | String c t => lastFlag (isI c) t
  end.

Fixpoint isoIn (p : bool) (r : string) (n : bool) : nat :=
  match r with
  | EmptyString => 0
  | String c t =>
      ((if isI c && negb p && negb (nextFlag t n) then 1 else 0)
       + isoIn (isI c) t n)%nat
  end.

Definition iso (s : string) : nat := isoIn false s false.

(** the last byte of [r] is an [i] with no [i] before it *)
Fixpoint soloEnd (p : bool) (r : string) : bool :=
  match r with
  | EmptyString => false
  | String c t =>
      match t with
      | EmptyString => isI c && negb p
      | String _ _ => soloEnd (isI c) t
      end
  end.

(** the first byte of [d] is an [i] with no [i] after it *)
Definition soloStart (d : string) (n : bool) : bool :=
  match d with
  | EmptyString => false
  | String c t => isI c && negb (nextFlag t n)
  end.

(** the length in bytes of the longest key of the radical index *)
Definition maxKeyBytes (l : Lemmatizer) : nat :=
  max_list (String.length <$> (map_to_list (radicals l)).*1).

(** what goes down at every call the raw matcher makes to itself *)
Definition rawMeasure (l : Lemmatizer) (form : string) : nat :=
  (iso form + (S (maxKeyBytes l) - String.length form))%nat.

(** a rune that [Deramise] leaves alone *)
Definition Classical (c : Rune) : Prop := deramiseImage c = [c].

(** the lines of a morphos file that come before the terminator line *)
Fixpoint beforeTerminator (lines : list string) : list string :=
  match lines with
  | [] => []
  | line :: rest =>
      if HasPrefix line "! --- " then [] else line :: beforeTerminator rest
  end.

(** a line that is not a comment and has a colon *)
Definition isEntry (line : string) : bool :=
  negb (HasPrefix line "!") && bool_decide (is_Some (Index line ":")).

(** what follows the first colon *)
Definition description (line : string) : string :=
  match Index line ":" with
  | Some idx => strDrop (idx + 1) line
  | None => EmptyString
  end.

Definition entryLines (lines : list string) : list string :=
  filter (λ line, isEntry line) (beforeTerminator lines).

(** the three cases of the ii/ī heuristic, as the specification words
    them *)
Definition caseA (stem ending : string) : bool :=
  bool_decide (ending = EmptyString) && HasSuffix stem "i".

Definition caseB (stem ending : string) : bool :=
  HasPrefix ending "i" && negb (HasPrefix ending "ii")
  && negb (HasSuffix stem "i").

Definition caseC (stem ending : string) : bool :=
  HasSuffix stem "i" && negb (HasSuffix stem "ii")
  && negb (HasPrefix ending "i").

Definition exactlyOne (a b c : bool) : bool :=
  (a && negb b && negb c) || (negb a && b && negb c)
  || (negb a && negb b && c).

(** two compiler states with the same model heap; and, on top of that,
    the same parent and absent list in the model under construction *)
Definition sameHeap (st st' : ParseState) : Prop :=
  modelHeap (psL st') = modelHeap (psL st).

Definition sameHead (st st' : ParseState) : Prop :=
  Model.parent (psM st') = Model.parent (psM st)
  ∧ Model.Absents (psM st') = Model.Absents (psM st)
  ∧ modelHeap (psL st') = modelHeap (psL st).

(** the states a lemma goes through while the irregulars are loaded:
    [newLemma] leaves both lists empty, [addIrreg] is the only writer *)
Inductive Loaded : Lemma.t → Prop :=
| loaded_new (lem : Lemma.t) :
    Lemma.irregs lem = [] → Lemma.morphosIrregExcl lem = [] → Loaded lem
| loaded_add (lem : Lemma.t) (irr : Irreg.t) :
    Loaded lem → Loaded (addIrreg lem irr).

End Notions.

(** ** Small concrete data, to run the definitions on *)

Module Samples.
Import GoStrings Normalize Loader Lemmatize Inflection.

(** the library functions on the ASCII letters, everything else fixed *)
Definition lowerByte (c : ascii) : ascii :=
  if ((65 <=? byteN c) && (byteN c <=? 90))%N
  then ascii_of_N (byteN c + 32) else c.

Definition upperByte (c : ascii) : ascii :=
  if ((97 <=? byteN c) && (byteN c <=? 122))%N
  then ascii_of_N (byteN c - 32) else c.

Fixpoint toLowerASCII (s : string) : string :=
  match s with
  | EmptyString => EmptyString
  | String c t => String (lowerByte c) (toLowerASCII t)
  end.

Definition isUpperASCII (r : Rune) : bool :=
  match r with
  | String c EmptyString => ((65 <=? byteN c) && (byteN c <=? 90))%N
  | _ => false
  end.

Definition isLowerASCII (r : Rune) : bool :=
  match r with
  | String c EmptyString => ((97 <=? byteN c) && (byteN c <=? 122))%N
  | _ => false
  end.

Definition toUpperASCII (r : Rune) : Rune :=
  match r with
  | String c EmptyString => String (upperByte c) EmptyString
  | _ => r
  end.

Fixpoint trimLeft (s : string) : string :=
  match s with
  | String c t => if Ascii.is_space c then trimLeft t else s
  | EmptyString => EmptyString
  end.

Definition trimSpaceASCII (s : string) : string :=
  String.rev (trimLeft (String.rev (trimLeft s))).

Definition atoiDigits (s : string) : Z :=
  foldl (λ acc c, match Ascii.is_nat c with
                  | Some d => 10 * acc + Z.of_nat d
                  | None => acc
                  end) 0 (String.list_ascii_of_string s).

(** a first-declension model at address 1 with three endings, and the
    lemma puella at address 1 *)
Definition uita : Model.t :=
  Model.mk "uita" None {[ 1 := "1" ]} []
    {[ 1 := [Desinence.mk "ă" "a" 1 1 (Some 1%positive)];
       3 := [Desinence.mk "ām" "am" 3 1 (Some 1%positive)];
       4 := [Desinence.mk "ae" "ae" 4 1 (Some 1%positive)] ]} 110.

Definition puell : Radical.t := Radical.mk "pŭēll" "puell" 1 1%positive.

Definition puella : Lemma.t :=
  Lemma.mk "puella" "pŭēlla" "puella" "uita" (Some 1%positive)
    "ae, f." 110 0 EmptyString [] {[ 1 := [puell] ]} [] [] 0 ∅.

Definition morphosFr : list string :=
  [EmptyString; "nominatif singulier"; "vocatif singulier";
   "accusatif singulier"; "génitif singulier"].

Definition tiny : Lemmatizer :=
  mkLemmatizer morphosFr {[ "uita" := 1%positive ]}
    {[ "puella" := 1%positive ]}
    {[ "a" := [Desinence.mk "ă" "a" 1 1 (Some 1%positive)];
       "am" := [Desinence.mk "ām" "am" 3 1 (Some 1%positive)];
       "ae" := [Desinence.mk "ae" "ae" 4 1 (Some 1%positive)] ]}
    {[ "puell" := [puell] ]} ∅ ∅ ∅ [("adf", "aff")] [("asti", "auisti")]
    {[ 1%positive := uita ]} {[ 1%positive := puella ]}.

(** an index whose only stem is [i] *)
Definition onlyI : Lemmatizer :=
  mkLemmatizer [EmptyString] ∅ ∅ ∅
    {[ "i" := [Radical.mk "i" "i" 1 1%positive] ]} ∅ ∅ ∅ [] [] ∅ ∅.


(** a lemmatizer that holds one compiled model, [a] at address 1, with
    slot 7 absent, and the block of a child of it *)
Definition modelA : Model.t :=
  Model.mk "a" None {[ 1 := "K" ]} [7]
    {[ 1 := [Desinence.mk "ă" "a" 1 1 (Some 1%positive)];
       5 := [Desinence.mk "īs" "is" 5 1 (Some 1%positive)] ]} 110.

Definition withA : Lemmatizer :=
  mkLemmatizer [EmptyString] {[ "a" := 1%positive ]} ∅ ∅ ∅ ∅ ∅ ∅ [] []
    {[ 1%positive := modelA ]} ∅.

Definition blockB : list string := ["modele:b"; "pere:a"; "abs:5"].

Definition compileB : option (Lemmatizer * option ptr) :=
  parseModel trimSpaceASCII atoiDigits 8 2%positive withA blockB.

(** a second-declension model with two slots, a stem, and three
    irregular forms for slot 2 to choose from *)
Definition lupus : Model.t :=
  Model.mk "lupus" None {[ 1 := "2" ]} []
    {[ 1 := [Desinence.mk "ŭs" "us" 1 1 (Some 1%positive)];
       2 := [Desinence.mk "ī" "i" 2 1 (Some 1%positive)] ]} 110.

Definition domin : Radical.t := Radical.mk "dŏmĭn" "domin" 1 1%positive.

Definition dominus : Lemma.t :=
  Lemma.mk "dominus" "dŏmĭnus" "dominus" "lupus" (Some 1%positive)
    "i, m." 110 0 EmptyString [] {[ 1 := [domin] ]} [] [] 0 ∅.

Definition irrExcl : Irreg.t := Irreg.mk "dŏmī" "domi" true 1%positive [2].
Definition irrPlain : Irreg.t :=
  Irreg.mk "dŏmĭnŭi" "dominui" false 1%positive [2].

Definition lexicon (lem : Lemma.t) : Lemmatizer :=
  mkLemmatizer [EmptyString; "nominatif singulier"; "génitif singulier"]
    {[ "lupus" := 1%positive ]} {[ "dominus" := 1%positive ]}
    {[ "us" := [Desinence.mk "ŭs" "us" 1 1 (Some 1%positive)];
       "i" := [Desinence.mk "ī" "i" 2 1 (Some 1%positive)] ]}
    {[ "domin" := [domin] ]}
    (foldl (λ m irr, appendAt m (Normalize.Deramise (Irreg.Gr irr)) [irr])
       ∅ (Lemma.irregs lem))
    ∅ ∅ [] [] {[ 1%positive := lupus ]} {[ 1%positive := lem ]}.

(** the exclusive form alone; after a plain one; and an exclusive form
    that is blank *)
Definition exclOnly : Lemmatizer := lexicon (addIrreg dominus irrExcl).

(** four bytes that are not UTF-8: the two bytes of [æ] with the two
    bytes of the combining breve in between *)
Definition splitLigature : string :=
  String "195" (String "204" (String "134" (String "166" EmptyString))).

Definition runASCII (l : Lemmatizer) (depth : nat) (c : Call)
  : option GoMap :=
  run toLowerASCII isUpperASCII isLowerASCII toUpperASCII l depth c.

End Samples.

(** ** lemma.go, further *)

Module LemmaGo.
Import GoStrings.

(** [l.Translation(lang)]: the translation for [lang], else the French
    one, else the empty string that a missing key gives *)
Definition Translation (l : Lemma.t) (lang : string) : string :=
  match Lemma.translations l !! lang with
  | Some t => t
  | None => default EmptyString (Lemma.translations l !! "fr")
  end.

(** [l.AddTranslation(lang, text)] *)
Definition AddTranslation (l : Lemma.t) (lang text : string) : Lemma.t :=
  Lemma.mk (Lemma.Key l) (Lemma.Grq l) (Lemma.Gr l) (Lemma.modelName l)
    (Lemma.model l) (Lemma.IndMorph l) (Lemma.POS l) (Lemma.HomonymNum l)
    (Lemma.renvoi l) (Lemma.altGrqs l) (Lemma.radicals l)
    (Lemma.irregs l) (Lemma.morphosIrregExcl l) (Lemma.NbOcc l)
    (<[lang := text]> (Lemma.translations l)).

Section GoLibrary.
(** [unicode.IsDigit] and [strconv.Atoi] are taken as they are. *)
Variable IsDigit : Rune -> bool.
Variable Atoi : string -> Z.

(** [oteNh]: the form without its homonym digit, and the digit.  The
    form is not empty where its last rune is read. *)
Definition oteNh (g : string) : string * Z :=
  if bool_decide (g = EmptyString) then (g, 0)
  else
    let rs := runes g in
    let last := default RuneError (rs !! (length rs - 1)%nat) in
    if IsDigit last then
      let n := Atoi last in
      if n >? 0 then (stringOfRunes (take (length rs - 1) rs), n)
      else (g, 0)
    else (g, 0).

End GoLibrary.
End LemmaGo.

(** ** Loading, further: irregular forms and the file of models *)

Module LoaderMore.
Import GoStrings Normalize Loader.

Definition setIrregs (l : Lemmatizer) (irregs' : gmap string (list Irreg.t))
  (heap' : gmap ptr Lemma.t) : Lemmatizer :=
  mkLemmatizer (morphos l) (models l) (lemmas l) (desinences l)
    (radicals l) irregs' (variables l) (languages l) (assims l)
    (contractions l) (modelHeap l) heap'.

Section GoLibrary.
Variable TrimSpace : string -> string.
Variable Atoi : string -> Z.

(** one line of irregs.la, as the loop of [loadIrregs] treats it: a
    blank line, a comment, a line with fewer than three fields and a
    line that names no known lemma change nothing *)
Definition loadIrregsLine (l : Lemmatizer) (line : string) : Lemmatizer :=
  let line := TrimSpace line in
  if bool_decide (line = EmptyString) || HasPrefix line "!" then l
  else
    match Split1 line ":"%char with
    | p0 :: p1 :: p2 :: _ =>
        let exclusive := HasSuffix p0 "*" in
        let grq := if exclusive
                   then strTake (String.length p0 - 1) p0 else p0 in
        let gr := Atone grq in
        let lemmaKey := Deramise p1 in
        match lemmas l !! lemmaKey with
        | None => l
        | Some lp =>
            let irr := Irreg.mk grq gr exclusive lp
                         (ListI TrimSpace Atoi p2) in
            let key := Deramise gr in
            setIrregs l (appendAt (irregs l) key [irr])
              (<[lp := addIrreg (lemmaAt l lp) irr]> (lemmaHeap l))
        end
    | _ => l
    end.

(** the loop over the lines that the scanner hands out *)
Definition loadIrregs (l : Lemmatizer) (lines : list string) : Lemmatizer :=
  foldl loadIrregsLine l lines.

(** [l.variables[name] = value] and [l.models[name] = m] *)
Definition setVariable (l : Lemmatizer) (name value : string) : Lemmatizer :=
  mkLemmatizer (morphos l) (models l) (lemmas l) (desinences l)
    (radicals l) (irregs l) (<[name := value]> (variables l))
    (languages l) (assims l) (contractions l) (modelHeap l) (lemmaHeap l).

Definition register (l : Lemmatizer) (name : string) (p : ptr) : Lemmatizer :=
  mkLemmatizer (morphos l) (<[name := p]> (models l)) (lemmas l)
    (desinences l) (radicals l) (irregs l) (variables l) (languages l)
    (assims l) (contractions l) (modelHeap l) (lemmaHeap l).

(** [flushBlock]: the block is compiled into a model at a new
    address, and the model is registered under its name unless
    [parseModel] gave nil *)
Definition flushBlock (fuel : nat) (l : Lemmatizer) (block : list string)
  : option Lemmatizer :=
  match block with
  | [] => Some l
  | _ =>
      let self := fresh (dom (modelHeap l)) in
      match parseModel TrimSpace Atoi fuel self l block with
      | None => None
      | Some (l', None) => Some l'
      | Some (l', Some p) =>
          Some (register l' (Model.Name (modelAt l' p)) p)
      end
  end.

(** the loop of [loadModels] over the lines of the file, [block]
    being the lines gathered since the last [modele:] line; the end
    of the list is the end of the file *)
Fixpoint loadModelsLines (fuel : nat) (l : Lemmatizer)
  (block : list string) (lines : list string) : option Lemmatizer :=
  match lines with
  | [] => flushBlock fuel l block
  | raw :: rest =>
      let line := TrimSpace raw in
      if bool_decide (line = EmptyString)
      then loadModelsLines fuel l block rest
      else if HasPrefix line "!" then loadModelsLines fuel l block rest
      else if HasPrefix line "$" then
        let l := match Index line "=" with
                 | Some (S idx') =>
                     setVariable l (strTake (S idx') line)
                       (strDrop (S idx' + 1) line)
                 | _ => l
                 end in
        loadModelsLines fuel l block rest
      else if bool_decide (head (Split1 line ":"%char) = Some "modele")
              && bool_decide (block ≠ [])
      then match flushBlock fuel l block with
           | None => None
           | Some l => loadModelsLines fuel l [line] rest
           end
      else loadModelsLines fuel l (block ++ [line]) rest
  end.

Definition loadModels (fuel : nat) (l : Lemmatizer) (lines : list string)
  : option Lemmatizer :=
  loadModelsLines fuel l [] lines.

End GoLibrary.
End LoaderMore.

(** ** Further notions *)

Module MoreNotions.
Import GoStrings Normalize Notions.

(** every byte is below 0x80 *)
Fixpoint isASCII (s : string) : bool :=
  match s with
  | EmptyString => true
  | String c t => (byteN c <? 0x80)%N && isASCII t
  end.

(** the Ramist letters, byte by byte *)
Definition classicalByte (c : ascii) : ascii :=
  if bool_decide (c = "J"%char) then "I"%char
  else if bool_decide (c = "j"%char) then "i"%char
  else if bool_decide (c = "v"%char) then "u"%char
  else if bool_decide (c = "V"%char) then "U"%char
  else c.

Fixpoint mapBytes (f : ascii → ascii) (s : string) : string :=
  match s with
  | EmptyString => EmptyString
  | String c t => String (f c) (mapBytes f t)
  end.

(** what [NormalizeKey] makes of one rune *)
Definition normalizeImage (c : Rune) : list Rune :=
  deramiseImage c ≫= atoneImage.

(** the letters the values of [deramiseReplacer] are made of *)
Definition classicalLetters : list ascii :=
  ["I"; "i"; "u"; "U"; "a"; "A"; "o"; "O"; "e"]%char.

(** a replacement table none of whose values is longer than its key *)
Definition Shrinking (pairs : list (string * string)) : Prop :=
  Forall (λ p : string * string,
            (0 < String.length p.1)%nat
            ∧ (String.length p.2 ≤ String.length p.1)%nat) pairs.

(** a replacement table all of whose keys start outside ASCII *)
Definition HighKeys (pairs : list (string * string)) : Prop :=
  Forall (λ p : string * string,
            ∃ k t, p.1 = String k t ∧ (0x80 ≤ byteN k)%N) pairs.

(** *** Results of the matcher *)

(** every entry of a result map satisfies [Q] *)
Definition Each (Q : ptr → list Analysis → Prop)
  (m : gmap ptr (list Analysis)) : Prop :=
  ∀ lp ans, m !! lp = Some ans → Q lp ans.

(** [m'] has every lemma of [m], with the analyses of [m] in the same
    order and maybe more behind them *)
Definition Extends (m m' : gmap ptr (list Analysis)) : Prop :=
  ∀ lp ans, m !! lp = Some ans → ∃ more, m' !! lp = Some (ans ++ more).

(** the analysis [an] is listed under the lemma [lp] *)
Definition Lists (m : gmap ptr (list Analysis)) (lp : ptr) (an : Analysis)
  : Prop :=
  ∃ ans, m !! lp = Some ans ∧ an ∈ ans.

(** an analysis that carries the description of its slot *)
Definition Described (l : Lemmatizer) (an : Analysis) : Prop :=
  MorphoDescription an = Morpho l (MorphoIndex an).

(** a lemma that a radical or an irregular of the indexes belongs to *)
Definition Indexed (l : Lemmatizer) (lp : ptr) : Prop :=
  (∃ k rads rad, radicals l !! k = Some rads ∧ rad ∈ rads
                 ∧ Radical.Lemma rad = lp)
  ∨ (∃ k irrs irr, irregs l !! k = Some irrs ∧ irr ∈ irrs
                   ∧ Irreg.Lemma irr = lp).

(** *** The compiler of models *)

(** an ending as it has to stand in slot [mn] of the model at [self] *)
Definition Filed (self : ptr) (mn : Z) (d : Desinence.t) : Prop :=
  Desinence.MorphoNum d = mn
  ∧ Desinence.Gr d = Atone (Desinence.Grq d)
  ∧ Desinence.Model d = Some self.

Definition ModelSound (self : ptr) (m : Model.t) : Prop :=
  ∀ mn ds d, Model.Desinences m !! mn = Some ds → d ∈ ds → Filed self mn d.

(** the index of endings has each ending under the deramised form of
    its unmarked form *)
Definition IndexSound (l : Lemmatizer) : Prop :=
  ∀ k ds d, desinences l !! k = Some ds → d ∈ ds →
            k = Deramise (Desinence.Gr d)
            ∧ Desinence.Gr d = Atone (Desinence.Grq d).

Definition Sound (l : Lemmatizer) : Prop :=
  IndexSound l ∧ ∀ p m, modelHeap l !! p = Some m → ModelSound p m.

Definition StateSound (self : ptr) (st : Loader.ParseState) : Prop :=
  Sound (Loader.psL st) ∧ ModelSound self (Loader.psM st).

(** from [l] to [l'] nothing but the index of endings has changed, and
    that has only got longer lists; the models other than the one at
    [self] are as they were *)
Definition OnlyAddsEndings (self : ptr) (l l' : Lemmatizer) : Prop :=
  morphos l' = morphos l ∧ models l' = models l ∧ lemmas l' = lemmas l
  ∧ radicals l' = radicals l ∧ irregs l' = irregs l
  ∧ variables l' = variables l ∧ languages l' = languages l
  ∧ assims l' = assims l ∧ contractions l' = contractions l
  ∧ lemmaHeap l' = lemmaHeap l
  ∧ (∀ p, p ≠ self → modelHeap l' !! p = modelHeap l !! p)
  ∧ (∀ k ds, desinences l !! k = Some ds →
             ∃ more, desinences l' !! k = Some (ds ++ more)).

(** the index of irregular forms has each form under the deramised
    form of its unmarked form, and each form is in the list of its
    lemma *)
Definition IrregsSound (l : Lemmatizer) : Prop :=
  ∀ k irrs irr, irregs l !! k = Some irrs → irr ∈ irrs →
                k = Deramise (Irreg.Gr irr)
                ∧ Irreg.Gr irr = Atone (Irreg.Grq irr)
                ∧ irr ∈ Lemma.irregs (lemmaAt l (Irreg.Lemma irr)).

(** every lemma of the heap is in a state that [addIrreg] leads to *)
Definition AllLoaded (l : Lemmatizer) : Prop :=
  ∀ p lem, lemmaHeap l !! p = Some lem → Loaded lem.

(** every name of the table of models leads to a stored model of that
    name *)
Definition Registered (l : Lemmatizer) : Prop :=
  ∀ name p, models l !! name = Some p →
            ∃ m, modelHeap l !! p = Some m ∧ Model.Name m = name.

(** the number of dollar signs of a line *)
Fixpoint dollars (s : string) : nat :=
  match s with
  | EmptyString => 0
  | String c t =>
      ((if bool_decide (c = "$"%char) then 1 else 0) + dollars t)%nat
  end.

End MoreNotions.

(** ** More concrete data *)

Module MoreSamples.
Import GoStrings Normalize Loader Lemmatize Inflection.

(** four bytes that are not UTF-8: the two bytes of [ā] with the two
    bytes of the combining breve in between *)
Definition splitMacron : string :=
  String "196" (String "204" (String "134" (String "129" EmptyString))).

(** what the lemmatizer [tiny] finds for [puellam] *)
Definition foundPuellam : GoMap :=
  MkMap {[ 1%positive :=
             [mkAnalysis "pŭēllām" "accusatif singulier" 3] ]}.

(** a table of two assimilations, in the two orders a walk can take *)
Definition twoAssims : Lemmatizer :=
  mkLemmatizer [EmptyString] ∅ ∅ ∅ ∅ ∅ ∅ ∅
    [("adf", "aff"); ("inm", "imm")] [] ∅ ∅.

Definition twoAssimsSwapped : Lemmatizer :=
  mkLemmatizer [EmptyString] ∅ ∅ ∅ ∅ ∅ ∅ ∅
    [("inm", "imm"); ("adf", "aff")] [] ∅ ∅.

(** a table with one variable *)
Definition oneVariable : gmap string string := {[ "$lupus" := "ŭs;ĕ;ŭm" ]}.

(** the lexicon of [dominus] before any irregular form is loaded *)
Definition plainLexicon : Lemmatizer := Samples.lexicon Samples.dominus.

(** a file of two models, the second a child of the first *)
Definition twoModels : list string :=
  ["! modeles"; "$us=ŭs"; "modele:lupus"; "R:1:2"; "des:1:1:$us";
   EmptyString; "modele:puer"; "pere:lupus"; "des:2:1:ī"].

End MoreSamples.

(** * Properties *)

(** ** Byte strings *)

Module StringFacts.
Import GoStrings.

Lemma str_app_nil_l (s : string) : EmptyString +:+ s = s.
Proof. reflexivity. Qed.

Lemma str_app_cons (c : ascii) (s t : string) :
  String c s +:+ t = String c (s +:+ t).
Proof. reflexivity. Qed.

Lemma str_app_nil_r (s : string) : s +:+ EmptyString = s.
Proof.
  induction s as [|c s IH]; [reflexivity|].
  rewrite str_app_cons, IH. reflexivity.
Qed.

Lemma str_app_assoc (s t u : string) : (s +:+ t) +:+ u = s +:+ (t +:+ u).
Proof.
  induction s as [|c s IH]; [reflexivity|].
  rewrite !str_app_cons, IH. reflexivity.
Qed.

Lemma str_length_app (s t : string) :
  String.length (s +:+ t) = (String.length s + String.length t)%nat.
Proof.
  induction s as [|c s IH]; [reflexivity|].
  rewrite str_app_cons. simpl. rewrite IH. reflexivity.
Qed.

Lemma HasPrefix_nil (s : string) : HasPrefix s EmptyString = true.
Proof. destruct s; reflexivity. Qed.

Lemma HasPrefix_cons (c d : ascii) (s p : string) :
  HasPrefix (String d s) (String c p) = bool_decide (c = d) && HasPrefix s p.
Proof. reflexivity. Qed.

Lemma HasPrefix_spec (s p : string) :
  HasPrefix s p = true ↔ ∃ t, s = p +:+ t.
Proof.
  revert s. induction p as [|c p IH]; intros s.
  - rewrite HasPrefix_nil. split; [intros _; by exists s|done].
  - destruct s as [|d s].
    + split; [done|]. intros [t Ht]. rewrite str_app_cons in Ht. discriminate.
    + rewrite HasPrefix_cons, andb_true_iff, bool_decide_eq_true, IH.
      split.
      * intros [-> [t ->]]. exists t. by rewrite str_app_cons.
      * intros [t Ht]. rewrite str_app_cons in Ht. injection Ht as -> ->.
        split; [done|by exists t].
Qed.

Lemma HasPrefix_app (p t : string) : HasPrefix (p +:+ t) p = true.
Proof. apply HasPrefix_spec. by exists t. Qed.

Lemma strDrop_app (p t : string) : strDrop (String.length p) (p +:+ t) = t.
Proof. induction p as [|c p IH]; [by destruct t|]. by rewrite str_app_cons. Qed.

Lemma strTake_app (p t : string) : strTake (String.length p) (p +:+ t) = p.
Proof.
  induction p as [|c p IH]; [by destruct t|].
  rewrite str_app_cons. simpl. by rewrite IH.
Qed.

Lemma strTake_strDrop (n : nat) (s : string) : strTake n s +:+ strDrop n s = s.
Proof.
  revert s. induction n as [|n IH]; intros [|c s]; try reflexivity.
  simpl. rewrite str_app_cons, IH. reflexivity.
Qed.

Lemma length_strDrop (n : nat) (s : string) :
  String.length (strDrop n s) = (String.length s - n)%nat.
Proof. revert s. induction n as [|n IH]; intros [|c s]; simpl; auto. Qed.

Lemma length_strTake (n : nat) (s : string) :
  String.length (strTake n s) = (n `min` String.length s)%nat.
Proof.
  revert s. induction n as [|n IH]; intros [|c s]; simpl; auto.
Qed.

Lemma HasSuffix_spec (s suf : string) :
  HasSuffix s suf = true ↔ ∃ t, s = t +:+ suf.
Proof.
  unfold HasSuffix.
  rewrite andb_true_iff, !bool_decide_eq_true. split.
  - intros [Hle Hd].
    exists (strTake (String.length s - String.length suf) s).
    rewrite <- Hd at 2. by rewrite strTake_strDrop.
  - intros [t ->]. rewrite str_length_app. split; [lia|].
    replace (String.length t + String.length suf - String.length suf)%nat
      with (String.length t) by lia.
    apply strDrop_app.
Qed.

(** the colon-free prefix of a line ends where [Index] says *)
Lemma Index_app_sep (pre rest : string) (sep : ascii) :
  Index pre (String sep EmptyString) = None →
  Index (pre +:+ String sep rest) (String sep EmptyString)
  = Some (String.length pre).
Proof.
  induction pre as [|c pre IH]; intros Hpre.
  - rewrite str_app_nil_l. simpl.
    by rewrite HasPrefix_nil, bool_decide_eq_true_2.
  - rewrite str_app_cons. simpl in *. rewrite !HasPrefix_nil in *.
    destruct (bool_decide (sep = c)); simpl in *; [done|].
    destruct (Index pre (String sep EmptyString)); [done|].
    by rewrite IH.
Qed.

End StringFacts.

(** ** Loading the description table *)

Module LoaderFacts.
Import GoStrings Loader Notions StringFacts.

Lemma loadMorphosLines_entries (lines : list string) (acc : list string) :
  loadMorphosLines lines acc = acc ++ (description <$> entryLines lines).
Proof.
  unfold entryLines. revert acc.
  induction lines as [|line rest IH]; intros acc; simpl.
  { by rewrite app_nil_r. }
  destruct (HasPrefix line "! --- ") eqn:Hterm; simpl.
  { by rewrite app_nil_r. }
  destruct (HasPrefix line "!") eqn:Hc.
  { rewrite filter_cons_False; [apply IH|].
    unfold isEntry. rewrite Hc. intros []. }
  destruct (Index line ":") as [idx|] eqn:Hi.
  - rewrite filter_cons_True.
    2:{ unfold isEntry. rewrite Hc. rewrite Hi. apply bool_decide_pack. eauto. }
    assert (description line = strDrop (idx + 1) line) as Hd
      by (unfold description; by rewrite Hi).
    rewrite fmap_cons, IH, Hd. by rewrite <- app_assoc.
  - rewrite filter_cons_False; [apply IH|].
    unfold isEntry. rewrite Hc, Hi. simpl. intros [].
Qed.

Lemma description_app (pre desc : string) :
  Index pre ":" = None → description (pre +:+ ":" +:+ desc) = desc.
Proof.
  intros Hpre. unfold description.
  change (":" +:+ desc) with (String ":" desc).
  rewrite (Index_app_sep pre desc ":" Hpre).
  replace (String.length pre + 1)%nat
    with (String.length (pre +:+ ":")) by (rewrite str_length_app; simpl; lia).
  change (String ":" desc) with (":" +:+ desc).
  rewrite <- str_app_assoc. apply strDrop_app.
Qed.

(** C9, as amended.  The table is filled in file order: the entry line
    that is number [k+1] among the entry lines before the terminator
    gives its DESCRIPTION at index [k+1], whatever number N the line
    starts with. *)
Theorem morphos_indexed_by_position (lines : list string) (k : nat)
  (pre desc : string) :
  entryLines lines !! k = Some (pre +:+ ":" +:+ desc) →
  Index pre ":" = None →
  Morpho (loadMorphos emptyLemmatizer lines) (Z.of_nat (S k)) = desc.
Proof.
  intros Hk Hpre. unfold Morpho, loadMorphos. simpl morphos.
  rewrite loadMorphosLines_entries.
  assert (k < length (entryLines lines))%nat as Hlt
    by (eapply lookup_lt_Some; eauto).
  rewrite length_app, length_fmap. simpl length.
  rewrite Z.geb_leb.
  destruct (Z.ltb_spec (Z.of_nat (S k)) 1); [lia|].
  destruct (Z.leb_spec (Z.of_nat (1 + length (entryLines lines)))
              (Z.of_nat (S k))); [lia|].
  simpl orb. cbv iota. rewrite Nat2Z.id. simpl.
  rewrite <- (description_app pre desc Hpre).
  apply nth_lookup_Some. by rewrite list_lookup_fmap, Hk.
Qed.

Lemma morphos_indexed_by_position_witness :
  Morpho (loadMorphos emptyLemmatizer ["2:b"; "1:a"]) (Z.of_nat 1) = "b".
Proof.
  apply (morphos_indexed_by_position ["2:b"; "1:a"] 0 "2" "b");
    reflexivity.
Defined.

(** C9, as stated, fails on the two-line file [2:b], [1:a]: the line
    [2:b] comes before any terminator, yet index 2 holds [a]. *)
Lemma morphos_not_indexed_by_number :
  Morpho (loadMorphos emptyLemmatizer ["2:b"; "1:a"]) 2 = "a"
  ∧ Morpho (loadMorphos emptyLemmatizer ["2:b"; "1:a"]) 2 ≠ "b".
Proof. split; [reflexivity|discriminate]. Qed.

End LoaderFacts.

(** ** UTF-8 sequences and replacers *)

Module Utf8Facts.
Import GoStrings Normalize Notions StringFacts.

Lemma first_spec (b : N) :
  match first b with
  | ASCII => (b < 0x80)%N
  | Invalid => True
  | Lead sz lo hi => (0xC2 ≤ b ∧ 0x80 ≤ lo ∧ hi ≤ 0xBF)%N
  end.
Proof.
  unfold first.
  repeat (match goal with
          | |- context [(?x <? ?y)%N] => destruct (N.ltb_spec x y)
          | |- context [(?x =? ?y)%N] => destruct (N.eqb_spec x y)
          end); lia.
Qed.

Lemma isCont_spec (c : ascii) :
  isCont c = true ↔ (0x80 ≤ byteN c ≤ 0xBF)%N.
Proof.
  unfold isCont, inRange.
  rewrite andb_true_iff, !N.leb_le. reflexivity.
Qed.

Lemma inRange_isCont (c : ascii) (lo hi : N) :
  (0x80 ≤ lo)%N → (hi ≤ 0xBF)%N → inRange c lo hi = true → isCont c = true.
Proof.
  intros Hlo Hhi. unfold inRange. rewrite andb_true_iff, !N.leb_le.
  intros [? ?]. apply isCont_spec. lia.
Qed.

Lemma RuneError_length : String.length RuneError = 3%nat.
Proof. reflexivity. Qed.

(** the shape of a valid rune *)
Lemma ValidRune_shape (c : Rune) :
  ValidRune c →
  ∃ c0 t, c = String c0 t ∧ isCont c0 = false ∧ allCont t = true.
Proof.
  unfold ValidRune. destruct c as [|c0 t]; [discriminate|].
  intros H. exists c0, t. split; [done|].
  unfold decodeRune in H. pose proof (first_spec (byteN c0)) as Hf.
  destruct (first (byteN c0)) as [| |sz lo hi].
  - injection H as <-. split; [|done].
    destruct (isCont c0) eqn:E; [|done]. apply isCont_spec in E. lia.
  - injection H as ? <- Hlen. discriminate.
  - destruct Hf as (Hb & Hlo & Hhi).
    assert (isCont c0 = false) as Hc0.
    { destruct (isCont c0) eqn:E; [|done]. apply isCont_spec in E. lia. }
    split; [done|].
    destruct sz as [|[|[|[|sz]]]];
      repeat (match type of H with
              | context [match ?s with EmptyString => _ | String _ _ => _ end] =>
                  destruct s; try discriminate
              | context [if ?b then _ else _] =>
                  destruct b eqn:?; try discriminate
              end);
      simplify_eq/=;
      repeat (match goal with
              | E : _ && _ = true |- _ => apply andb_true_iff in E as [? ?]
              | E : inRange _ lo hi = true |- _ =>
                  apply (inRange_isCont _ lo hi Hlo Hhi) in E
              end);
      by repeat (match goal with E : isCont _ = true |- _ => rewrite E; clear E end).
Qed.

Ltac split_decode H :=
  repeat (match type of H with
          | context [match ?s with EmptyString => _ | String _ _ => _ end] =>
              destruct s; try discriminate
          | context [if ?b then _ else _] =>
              destruct b eqn:?; try discriminate
          end).

(** decoding looks at the sequence only *)
Lemma decodeRune_app (c : Rune) (rest : string) :
  ValidRune c → decodeRune (c +:+ rest) = (c, String.length c).
Proof.
  unfold ValidRune. destruct c as [|c0 t]; [discriminate|].
  intros H. rewrite str_app_cons. unfold decodeRune, RuneError in *.
  destruct (first (byteN c0)) as [| |[|[|[|[|sz]]]] lo hi];
    split_decode H; simplify_eq/=; rewrite ?str_app_cons;
    repeat (match goal with E : ?b = true |- context [?b] => rewrite E end);
    done.
Qed.

(** the decoder yields valid runes, of positive width *)
Lemma decodeRune_valid (c0 : ascii) (t : string) :
  ValidRune (decodeRune (String c0 t)).1
  ∧ (1 ≤ (decodeRune (String c0 t)).2)%nat.
Proof.
  assert (ValidRune RuneError) as Herr by reflexivity.
  destruct (decodeRune (String c0 t)) as [r w] eqn:Hd. simpl.
  unfold decodeRune in Hd.
  destruct (first (byteN c0)) as [| |[|[|[|[|sz]]]] lo hi] eqn:Hf;
    split_decode Hd; simplify_eq/=; (split; [|lia]); try exact Herr;
    unfold ValidRune, decodeRune; rewrite Hf;
    repeat (match goal with E : ?b = true |- context [?b] => rewrite E end);
    done.
Qed.

Lemma runesFrom_skip (t s : string) :
  runesFrom (String.length t) (t +:+ s) = runesFrom 0 s.
Proof. induction t as [|c t IH]; [done|]. rewrite str_app_cons. exact IH. Qed.

Lemma runes_app (c : Rune) (s : string) :
  ValidRune c → runes (c +:+ s) = c :: runes s.
Proof.
  intros Hc. unfold runes. pose proof (decodeRune_app c s Hc) as Hd.
  destruct c as [|c0 t]; [discriminate|].
  rewrite str_app_cons in *. cbn [runesFrom]. rewrite Hd.
  f_equal.
  replace (String.length (String c0 t) - 1)%nat with (String.length t)
    by (simpl; lia).
  apply runesFrom_skip.
Qed.

Lemma runes_stringOfRunes (cs : list Rune) :
  Forall ValidRune cs → runes (stringOfRunes cs) = cs.
Proof.
  induction 1 as [|c cs Hc _ IH]; [done|].
  change (stringOfRunes (c :: cs)) with (c +:+ stringOfRunes cs).
  by rewrite runes_app, IH.
Qed.

Lemma runesFrom_valid (k : nat) (s : string) :
  Forall ValidRune (runesFrom k s).
Proof.
  revert k. induction s as [|c0 t IH]; intros k; [constructor|].
  destruct k as [|k]; cbn [runesFrom]; [|apply IH].
  destruct (decodeRune (String c0 t)) as [r w] eqn:Hd.
  constructor; [|apply IH].
  pose proof (decodeRune_valid c0 t) as [Hv _]. by rewrite Hd in Hv.
Qed.

Lemma runes_valid (s : string) : Forall ValidRune (runes s).
Proof. apply runesFrom_valid. Qed.

Lemma stringOfRunes_app (xs ys : list Rune) :
  stringOfRunes (xs ++ ys) = stringOfRunes xs +:+ stringOfRunes ys.
Proof.
  induction xs as [|x xs IH]; [done|].
  change (stringOfRunes ((x :: xs) ++ ys))
    with (x +:+ stringOfRunes (xs ++ ys)).
  change (stringOfRunes (x :: xs)) with (x +:+ stringOfRunes xs).
  by rewrite IH, str_app_assoc.
Qed.

Lemma WellFormed_runes (s : string) :
  WellFormed s ↔ stringOfRunes (runes s) = s.
Proof.
  split.
  - intros (cs & Hcs & ->). by rewrite runes_stringOfRunes.
  - intros H. exists (runes s). split; [apply runes_valid|done].
Qed.

(** *** Replacers whose keys are runes *)

Lemma lookupPair_Some pairs s old new :
  lookupPair pairs s = Some (old, new) →
  (old, new) ∈ pairs ∧ HasPrefix s old = true.
Proof.
  induction pairs as [|[o n] pairs IH]; simpl; [done|].
  destruct (HasPrefix s o) eqn:E.
  - intros [= -> ->]. split; [by left|done].
  - intros H. apply IH in H as [? ?]. split; [by right|done].
Qed.

(** two valid runes that start the same string are the same *)
Lemma valid_prefix_eq (old c : Rune) (rest : string) :
  ValidRune old → ValidRune c → HasPrefix (c +:+ rest) old = true → old = c.
Proof.
  intros Hold Hc [t Ht]%HasPrefix_spec.
  pose proof (decodeRune_app c rest Hc) as H1.
  pose proof (decodeRune_app old t Hold) as H2.
  rewrite Ht in H1. congruence.
Qed.

Lemma lookupPair_rune pairs (c : Rune) (rest : string) :
  RuneTable pairs → ValidRune c →
  lookupPair pairs (c +:+ rest) = lookupPair pairs c.
Proof.
  intros Hp Hc. induction Hp as [|[o n] pairs [Ho _] _ IH]; simpl; [done|].
  simpl in Ho. rewrite IH.
  destruct (HasPrefix (c +:+ rest) o) eqn:E.
  - apply valid_prefix_eq in E as ->; [|done..].
    rewrite <- (str_app_nil_r c) at 2. by rewrite HasPrefix_app.
  - destruct (HasPrefix c o) eqn:E'; [|done].
    apply HasPrefix_spec in E' as [t ->].
    by rewrite str_app_assoc, HasPrefix_app in E.
Qed.

Lemma lookupPair_key pairs (c : Rune) old new :
  RuneTable pairs → ValidRune c →
  lookupPair pairs c = Some (old, new) → old = c.
Proof.
  intros Hp Hc [Hin Hpre]%lookupPair_Some.
  unfold RuneTable in Hp. rewrite Forall_forall in Hp.
  destruct (Hp _ Hin) as [Ho _]. simpl in Ho.
  apply (valid_prefix_eq old c EmptyString Ho Hc).
  by rewrite str_app_nil_r.
Qed.

(** no key starts at a continuation byte *)
Lemma lookupPair_cont pairs (x : ascii) (s : string) :
  RuneTable pairs → isCont x = true → lookupPair pairs (String x s) = None.
Proof.
  intros Hp Hx. induction Hp as [|[o n] pairs [Ho _] _ IH]; simpl; [done|].
  simpl in Ho. apply ValidRune_shape in Ho as (o0 & t & -> & Ho0 & _).
  rewrite bool_decide_eq_false_2 by congruence. exact IH.
Qed.

Lemma replaceFrom_skip pairs (t s : string) :
  replaceFrom (String.length t) pairs (t +:+ s) = replaceFrom 0 pairs s.
Proof. induction t as [|c t IH]; [done|]. rewrite str_app_cons. exact IH. Qed.

Lemma replaceFrom_cont pairs (t s : string) :
  RuneTable pairs → allCont t = true →
  replaceFrom 0 pairs (t +:+ s) = t +:+ replaceFrom 0 pairs s.
Proof.
  intros Hp. induction t as [|x t IH]; [done|]. simpl.
  intros [Hx Ht]%andb_true_iff. rewrite !str_app_cons. cbn [replaceFrom].
  by rewrite lookupPair_cont, IH.
Qed.

Lemma Replace_rune pairs (c : Rune) (rest : string) :
  RuneTable pairs → ValidRune c →
  Replace pairs (c +:+ rest)
  = stringOfRunes (image pairs c) +:+ Replace pairs rest.
Proof.
  intros Hp Hc. unfold Replace, image.
  pose proof (lookupPair_rune pairs c rest Hp Hc) as Hl.
  pose proof (ValidRune_shape c Hc) as (c0 & t & -> & _ & Ht).
  rewrite str_app_cons in *. cbn [replaceFrom]. rewrite Hl.
  destruct (lookupPair pairs (String c0 t)) as [[old new]|] eqn:E.
  - pose proof (lookupPair_key _ _ _ _ Hp Hc E) as ->.
    apply lookupPair_Some in E as [Hin _].
    unfold RuneTable in Hp. rewrite Forall_forall in Hp.
    destruct (Hp _ Hin) as [_ Hnew]. simpl in Hnew. rewrite Hnew.
    f_equal.
    replace (String.length (String c0 t) - 1)%nat with (String.length t)
      by (simpl; lia).
    apply replaceFrom_skip.
  - rewrite replaceFrom_cont by done.
    change (stringOfRunes [String c0 t]) with (String c0 t +:+ EmptyString).
    by rewrite str_app_nil_r, str_app_cons.
Qed.

Lemma image_valid pairs (c : Rune) : ValidRune c → Forall ValidRune (image pairs c).
Proof.
  intros Hc. unfold image.
  destruct (lookupPair pairs c) as [[old new]|]; [apply runes_valid|].
  by constructor.
Qed.

Lemma Replace_runes pairs (cs : list Rune) :
  RuneTable pairs → Forall ValidRune cs →
  Replace pairs (stringOfRunes cs) = stringOfRunes (cs ≫= image pairs)
  ∧ Forall ValidRune (cs ≫= image pairs).
Proof.
  intros Hp. induction 1 as [|c cs Hc _ [IH1 IH2]]; [by split|].
  change (stringOfRunes (c :: cs)) with (c +:+ stringOfRunes cs).
  rewrite bind_cons, Replace_rune, IH1, stringOfRunes_app by done.
  split; [done|]. apply Forall_app. split; [by apply image_valid|done].
Qed.

End Utf8Facts.

(** ** Normalization *)

Module NormalizeFacts.
Import GoStrings Normalize Notions StringFacts Utf8Facts.

Lemma atoneReplacer_runes : RuneTable atoneReplacer.
Proof. unfold RuneTable, atoneReplacer. repeat constructor. Qed.

Lemma breve_runes : RuneTable [(combiningBreve, EmptyString)].
Proof. unfold RuneTable. repeat constructor. Qed.

Lemma deramiseReplacer_runes : RuneTable deramiseReplacer.
Proof. unfold RuneTable, deramiseReplacer. repeat constructor. Qed.

Lemma bind_bind {A B C} (f : A → list B) (g : B → list C) (l : list A) :
  (l ≫= f) ≫= g = l ≫= (λ x, f x ≫= g).
Proof.
  induction l as [|x l IH]; [done|].
  by rewrite !bind_cons, bind_app, IH.
Qed.

Lemma Atone_runes (cs : list Rune) :
  Forall ValidRune cs →
  Atone (stringOfRunes cs) = stringOfRunes (cs ≫= atoneImage)
  ∧ Forall ValidRune (cs ≫= atoneImage).
Proof.
  intros Hcs. unfold Atone, ReplaceAll.
  destruct (Replace_runes atoneReplacer cs atoneReplacer_runes Hcs)
    as [-> Hv].
  destruct (Replace_runes _ _ breve_runes Hv) as [-> Hv'].
  by rewrite bind_bind in *.
Qed.

Lemma Deramise_runes (cs : list Rune) :
  Forall ValidRune cs →
  Deramise (stringOfRunes cs) = stringOfRunes (cs ≫= deramiseImage)
  ∧ Forall ValidRune (cs ≫= deramiseImage).
Proof. apply Replace_runes, deramiseReplacer_runes. Qed.

(** a rune that is no key of a table is left alone by it *)
Lemma image_off_keys pairs (c : Rune) :
  RuneTable pairs → ValidRune c → c ∉ pairs.*1 → image pairs c = [c].
Proof.
  intros Hp Hc Hnot. unfold image.
  destruct (lookupPair pairs c) as [[old new]|] eqn:E; [|done].
  pose proof (lookupPair_key _ _ _ _ Hp Hc E) as ->.
  apply lookupPair_Some in E as [Hin _]. destruct Hnot.
  apply list_elem_of_fmap. by exists (c, new).
Qed.

Lemma commute_on_marked :
  Forall (λ c, deramiseImage c ≫= atoneImage = atoneImage c ≫= deramiseImage)
    markedRunes.
Proof. unfold markedRunes. simpl. repeat constructor. Qed.

Lemma commute_on_rune (c : Rune) :
  ValidRune c →
  deramiseImage c ≫= atoneImage = atoneImage c ≫= deramiseImage.
Proof.
  intros Hc. destruct (decide (c ∈ markedRunes)) as [Hin|Hnot].
  { pose proof commute_on_marked as H. rewrite Forall_forall in H. auto. }
  unfold markedRunes in Hnot. rewrite !not_elem_of_app in Hnot.
  destruct Hnot as (Hd & Ha & Hb).
  assert (deramiseImage c = [c]) as Hdc
    by (apply image_off_keys; auto using deramiseReplacer_runes).
  assert (atoneImage c = [c]) as Hac.
  { unfold atoneImage.
    rewrite (image_off_keys atoneReplacer); auto using atoneReplacer_runes.
    rewrite bind_singleton.
    apply image_off_keys; auto using breve_runes. }
  rewrite Hdc, Hac, !bind_singleton. congruence.
Qed.

Lemma commute_on_runes (cs : list Rune) :
  Forall ValidRune cs →
  (cs ≫= deramiseImage) ≫= atoneImage = (cs ≫= atoneImage) ≫= deramiseImage.
Proof.
  induction 1 as [|c cs Hc _ IH]; [done|].
  rewrite !bind_cons, !bind_app, IH. f_equal. by apply commute_on_rune.
Qed.

(** C7, as amended.  On well-formed UTF-8 the two functions commute,
    so that the key does not depend on the order in which they are
    applied. *)
Theorem atone_deramise_commute (s : string) :
  WellFormed s →
  NormalizeKey s = Deramise (Atone s)
  ∧ Atone (Deramise s) = Deramise (Atone s).
Proof.
  intros (cs & Hcs & ->).
  assert (Atone (Deramise (stringOfRunes cs))
          = Deramise (Atone (stringOfRunes cs))) as H; [|by split].
  destruct (Deramise_runes cs Hcs) as [-> Hd].
  destruct (Atone_runes cs Hcs) as [-> Ha].
  destruct (Atone_runes _ Hd) as [-> _].
  destruct (Deramise_runes _ Ha) as [-> _].
  by rewrite commute_on_runes.
Qed.

Lemma atone_deramise_commute_witness :
  WellFormed "Jūlĭæ̆"
  ∧ NormalizeKey "Jūlĭæ̆" = Deramise (Atone "Jūlĭæ̆")
  ∧ Atone (Deramise "Jūlĭæ̆") = Deramise (Atone "Jūlĭæ̆").
Proof.
  assert (WellFormed "Jūlĭæ̆") as H by (by apply WellFormed_runes).
  split; [exact H|]. exact (atone_deramise_commute "Jūlĭæ̆" H).
Defined.

(** C7, as stated, fails on a string that is not UTF-8.  Taking the
    breve out of the middle brings the two bytes of the ligature
    together: [Atone] makes a ligature that [Deramise], applied first,
    did not see. *)
Lemma atone_deramise_differ :
  Atone (Deramise Samples.splitLigature) = "æ"
  ∧ Deramise (Atone Samples.splitLigature) = "ae"
  ∧ Atone (Deramise Samples.splitLigature)
    ≠ Deramise (Atone Samples.splitLigature).
Proof. split; [reflexivity|]. split; [reflexivity|]. discriminate. Qed.

End NormalizeFacts.

(** ** The lemmatizer: single steps *)

Module LemmatizeFacts.
Import GoStrings Normalize Lemmatize Notions StringFacts.

(** *** Programs and the calls they make *)

Lemma bind_ret {A B} (a : A) (f : A → Prog B) : (Ret a ≫= f) = f a.
Proof. reflexivity. Qed.

Lemma bind_invoke {A B} (c : Call) (k : GoMap → Prog A) (f : A → Prog B) :
  (Invoke c k ≫= f) = Invoke c (λ r, k r ≫= f).
Proof. reflexivity. Qed.

Lemma invokes_ret {A} rec (a : A) c : ¬ Invokes rec (Ret a) c.
Proof. inversion 1. Qed.

Lemma invokes_invoke {A} rec c0 (k : GoMap → Prog A) c :
  Invokes rec (Invoke c0 k) c ↔
  c = c0 ∨ ∃ r, rec c0 = Some r ∧ Invokes rec (k r) c.
Proof.
  split.
  - inversion 1; subst; eauto.
  - intros [->|(r & Hr & Hk)]; [constructor|by econstructor].
Qed.

Lemma invokes_bind {A B} rec (p : Prog A) (f : A → Prog B) c :
  Invokes rec (p ≫= f) c ↔
  Invokes rec p c ∨ ∃ a, interp rec p = Some a ∧ Invokes rec (f a) c.
Proof.
  induction p as [a|c0 k IH].
  - rewrite bind_ret. split; [intros H; right; by exists a|].
    intros [H|(a' & [= <-] & H)]; [by apply invokes_ret in H|done].
  - rewrite bind_invoke, !invokes_invoke. simpl.
    split.
    + intros [->|(r & Hr & H)]; [by left; left|].
      apply IH in H as [H|(a & Ha & H)].
      * left. right. eauto.
      * right. exists a. by rewrite Hr.
    + intros [[->|(r & Hr & H)]|(a & Ha & H)]; [by left| |].
      * right. exists r. split; [done|]. apply IH. by left.
      * destruct (rec c0) as [r|] eqn:Hr; [|done].
        right. exists r. split; [done|]. apply IH. right. eauto.
Qed.

Lemma invokes_call_bind {B} rec c0 (f : GoMap → Prog B) c :
  Invokes rec (call c0 ≫= f) c ↔
  c = c0 ∨ ∃ r, rec c0 = Some r ∧ Invokes rec (f r) c.
Proof. unfold call. rewrite bind_invoke. apply invokes_invoke. Qed.

Lemma invokes_call rec c0 c : Invokes rec (call c0) c ↔ c = c0.
Proof.
  unfold call. rewrite invokes_invoke. split; [|by left].
  intros [->|(r & _ & H)]; [done|by apply invokes_ret in H].
Qed.

(** *** The ii/ī test *)

Lemma lastByteIs_HasSuffix (r : string) (c : ascii) :
  lastByteIs r c = HasSuffix r (String c EmptyString).
Proof.
  reflexivity.
Qed.

Lemma firstByteIs_HasPrefix (d : string) (c : ascii) :
  firstByteIs d c = HasPrefix d (String c EmptyString).
Proof.
  destruct d as [|c0 d]; [done|].
  rewrite HasPrefix_cons, HasPrefix_nil, andb_true_r. simpl.
  apply bool_decide_ext. split; congruence.
Qed.

Lemma needDoubleI_cases (r d : string) :
  needDoubleI r d = caseA r d || caseB r d || caseC r d.
Proof.
  unfold needDoubleI, caseA, caseB, caseC.
  rewrite lastByteIs_HasSuffix, firstByteIs_HasPrefix.
  do 3 f_equal. apply bool_decide_ext. by destruct d.
Qed.

Section Unicode.
Variable ToLower : string → string.
Variable IsUpper IsLower : Rune → bool.
Variable ToUpper : Rune → Rune.

Local Abbreviation body := (body ToLower IsUpper IsLower ToUpper).
Local Abbreviation run := (run ToLower IsUpper IsLower ToUpper).
Local Abbreviation Returns := (Returns ToLower IsUpper IsLower ToUpper).
Local Abbreviation lemmatizeMEtape :=
  (lemmatizeMEtape ToLower IsUpper IsLower ToUpper).

(** C10.  On the empty form [LemmatizeWord] is the program that
    returns the nil map at once: it makes no call, neither to the raw
    matcher (which alone reads the indexes) nor to a later stage. *)
Theorem empty_form_returns_nil (l : Lemmatizer) (sentenceStart : bool) :
  body l (LemmatizeWord EmptyString sentenceStart) = Ret NilMap
  ∧ Returns l (LemmatizeWord EmptyString sentenceStart) NilMap
  ∧ ∀ rec c,
      ¬ Invokes rec (body l (LemmatizeWord EmptyString sentenceStart)) c.
Proof.
  split; [reflexivity|]. split.
  - exists 1%nat. intros [|n] Hn; [lia|reflexivity].
  - intros rec c. apply invokes_ret.
Qed.


(** the calls of one turn of the split loop *)
Lemma splitStep_invokes l c rs i result rec c' :
  let stem := stringOfRunes (take i rs) in
  let ending := stringOfRunes (drop i rs) in
  Invokes rec (splitStep ToLower l c rs i result) c' ↔
  c' = CallRaw (stem +:+ "i" +:+ ending)
  ∧ is_Some (radicals l !! stem) ∧ needDoubleI stem ending = true.
Proof.
  simpl. unfold splitStep.
  destruct (radicals l !! stringOfRunes (take i rs)) as [rads|].
  2:{ split; [intros H; by apply invokes_ret in H|].
      intros (_ & [? ?] & _). done. }
  rewrite invokes_bind.
  destruct (needDoubleI _ _).
  - rewrite invokes_call_bind. split.
    + intros [[->|(r & _ & H)]|(a & _ & H)]; [by eauto| |].
      * by apply invokes_ret in H.
      * destruct (desinences l !! _); by apply invokes_ret in H.
    + intros (-> & _). left. by left.
  - split; [|by intros (_ & _ & ?)].
    intros [H|(a & _ & H)]; [by apply invokes_ret in H|].
    destruct (desinences l !! _); by apply invokes_ret in H.
Qed.

(** C4, as amended.  At the split into [stem] and [ending] the raw
    matcher calls itself, and then on [stem + i + ending], exactly
    when [stem] is a key of the radical index and at least one of the
    cases (a), (b), (c) holds. *)
Theorem double_i_trigger (l : Lemmatizer) (c : Counts) (rs : list Rune)
  (i : nat) (result : gmap ptr (list Analysis))
  (rec : Call → option GoMap) (c' : Call) :
  let stem := stringOfRunes (take i rs) in
  let ending := stringOfRunes (drop i rs) in
  Invokes rec (splitStep ToLower l c rs i result) c' ↔
  c' = CallRaw (stem +:+ "i" +:+ ending)
  ∧ is_Some (radicals l !! stem)
  ∧ (caseA stem ending || caseB stem ending || caseC stem ending) = true.
Proof.
  simpl. rewrite <- needDoubleI_cases. apply splitStep_invokes.
Qed.

(** the calls of the loop over the enclitics *)
Lemma stripEnclitics_invokes form ss sufs mm rec c :
  Invokes rec (stripEnclitics form ss sufs mm) c →
  ∃ suf, suf ∈ sufs ∧ HasSuffix form suf = true
    ∧ c = CallEtape
            (if bool_decide (suf = "st")
             then strTake (String.length form - String.length suf) form
                  +:+ "s"
             else strTake (String.length form - String.length suf) form)
            ss 1.
Proof.
  revert mm. induction sufs as [|suf rest IH]; intros mm; simpl.
  { intros H. by apply invokes_ret in H. }
  destruct (lenMap mm >? 0).
  { intros H. by apply invokes_ret in H. }
  destruct (HasSuffix form suf) eqn:Hsuf.
  - rewrite invokes_invoke. intros [->|(r & _ & H)].
    + exists suf. split; [by left|done].
    + apply IH in H as (suf' & Hin & H). exists suf'.
      split; [by right|done].
  - intros H. apply IH in H as (suf' & Hin & H). exists suf'.
    split; [by right|done].
Qed.

Lemma enclitic_shortens form suf :
  suf ∈ enclitics → HasSuffix form suf = true →
  (String.length
     (if bool_decide (suf = "st")
      then strTake (String.length form - String.length suf) form +:+ "s"
      else strTake (String.length form - String.length suf) form)
   < String.length form)%nat.
Proof.
  intros Hin Hsuf. apply HasSuffix_spec in Hsuf as [t ->].
  rewrite str_length_app.
  replace (String.length t + String.length suf - String.length suf)%nat
    with (String.length t) by lia.
  rewrite strTake_app.
  unfold enclitics in Hin.
  repeat (apply elem_of_cons in Hin as [->|Hin]);
    [simpl; lia..| |by apply elem_of_nil in Hin].
  rewrite bool_decide_eq_true_2 by done.
  rewrite str_length_app. simpl. lia.
Qed.

(** C5, as amended.  A call that a stage makes to the cascade goes
    to a later stage, with two exceptions: the stripping of an
    enclitic stays at stage 1, on a strictly shorter form with the
    same flag; and the lowercasing at a sentence start goes to stage
    4 from any stage above 3, with the flag cleared. *)
Theorem cascade_stage_steps (l : Lemmatizer) (rec : Call → option GoMap)
  (form : string) (sentenceStart : bool) (etape : Z)
  (form' : string) (sentenceStart' : bool) (etape' : Z) :
  Invokes rec (lemmatizeMEtape l form sentenceStart etape)
    (CallEtape form' sentenceStart' etape') →
  etape < etape'
  ∨ (etape = 1 ∧ etape' = 1 ∧ sentenceStart' = sentenceStart
     ∧ (String.length form' < String.length form)%nat)
  ∨ (3 < etape ∧ etape' = 4 ∧ sentenceStart = true
     ∧ sentenceStart' = false).
Proof.
  unfold Lemmatize.lemmatizeMEtape.
  destruct (bool_decide (form = EmptyString)).
  { intros H. by apply invokes_ret in H. }
  destruct (Z.gtb_spec etape 3) as [Hgt|Hle].
  - rewrite invokes_call_bind. intros [[=]|(mm & _ & H)].
    destruct sentenceStart; simpl in H;
      [|by apply invokes_ret in H].
    destruct (_ && _) in H; [|by apply invokes_ret in H].
    apply invokes_call_bind in H as [[= -> -> ->]|(r & _ & H)];
      [|by apply invokes_ret in H].
    right. right. done.
  - rewrite invokes_call_bind. intros [[= -> -> ->]|(mm & _ & H)]; [lia|].
    destruct (Z.eqb_spec etape 3) as [->|_].
    { destruct (bool_decide _) in H; [|by apply invokes_ret in H].
      apply invokes_call_bind in H as [[= -> -> ->]|(r & _ & H)];
        [lia|by apply invokes_ret in H]. }
    destruct (Z.eqb_spec etape 2) as [->|_].
    { destruct (bool_decide _) in H.
      - apply invokes_call_bind in H as [[= -> -> ->]|(r & _ & H)];
          [lia|by apply invokes_ret in H].
      - destruct (bool_decide _) in H; [|by apply invokes_ret in H].
        apply invokes_call_bind in H as [[= -> -> ->]|(r & _ & H)];
          [lia|by apply invokes_ret in H]. }
    destruct (Z.eqb_spec etape 1) as [->|_].
    { destruct (lenMap mm =? 0); [|by apply invokes_ret in H].
      apply stripEnclitics_invokes in H as (suf & Hin & Hsuf & [= -> -> ->]).
      right. left. repeat split; try done.
      by apply enclitic_shortens. }
    destruct (Z.eqb_spec etape 0) as [->|_]; [|by apply invokes_ret in H].
    destruct (_ && _) in H; [|by apply invokes_ret in H].
    apply invokes_call in H as [= -> -> ->]. lia.
Qed.

End Unicode.

Import Samples.


(** C4, as stated, fails.  With [i] in the radical index and the form
    [i] split into the stem [i] and the empty ending, cases (a) and (c)
    hold together and the matcher calls itself on [ii]; with the stem
    [a], which is in no index, and the ending [i], case (b) alone holds
    and no call is made. *)
Lemma double_i_not_exactly_one :
  (Invokes (λ _, None)
     (splitStep toLowerASCII onlyI (mkCounts 0 0 0) ["i"] 1 ∅)
     (CallRaw "ii")
   ∧ exactlyOne (caseA "i" EmptyString) (caseB "i" EmptyString)
       (caseC "i" EmptyString) = false)
  ∧ ((∀ c, ¬ Invokes (λ _, None)
               (splitStep toLowerASCII onlyI (mkCounts 0 0 0) ["a"; "i"] 1 ∅)
               c)
     ∧ exactlyOne (caseA "a" "i") (caseB "a" "i") (caseC "a" "i") = true).
Proof.
  split; split.
  - apply invokes_here.
  - reflexivity.
  - intros c. apply invokes_ret.
  - reflexivity.
Qed.

Lemma cascade_stage_steps_witness :
  (1 : Z) < 1
  ∨ ((1 : Z) = 1 ∧ (1 : Z) = 1 ∧ false = false
     ∧ (String.length "x" < String.length "xne")%nat)
  ∨ (3 < (1 : Z) ∧ (1 : Z) = 4 ∧ false = true ∧ false = false).
Proof.
  apply (cascade_stage_steps toLowerASCII isUpperASCII isLowerASCII
           toUpperASCII tiny (runASCII tiny 10) "xne" false 1 "x" false 1).
  eapply invokes_later; [vm_compute; reflexivity|]. apply invokes_here.
Defined.

(** C5, as stated, fails.  Entered at stage 0 with the form [xne], the
    cascade reaches stage 1 with that form, and stage 1, having found
    nothing, strips the enclitic and calls stage 1 again.  And stage 4,
    on a capitalized form at a sentence start, calls stage 4 again on
    the lowercased form. *)
Lemma enclitic_call_keeps_stage :
  (Invokes (runASCII tiny 10)
     (body toLowerASCII isUpperASCII isLowerASCII toUpperASCII tiny
        (LemmatizeWord "xne" false))
     (CallEtape "xne" false 1)
   ∧ Invokes (runASCII tiny 10)
       (body toLowerASCII isUpperASCII isLowerASCII toUpperASCII tiny
          (CallEtape "xne" false 1))
       (CallEtape "x" false 1)
   ∧ ¬ (1 : Z) < 1)
  ∧ (Invokes (runASCII tiny 10)
       (body toLowerASCII isUpperASCII isLowerASCII toUpperASCII tiny
          (CallEtape "Puellam" true 4))
       (CallEtape "puellam" false 4)
     ∧ ¬ (4 : Z) < 4).
Proof.
  split; [split; [|split]|split].
  - apply invokes_here.
  - eapply invokes_later; [vm_compute; reflexivity|]. apply invokes_here.
  - lia.
  - eapply invokes_later; [vm_compute; reflexivity|]. apply invokes_here.
  - lia.
Qed.

End LemmatizeFacts.

(** ** Lone letters i: inserting an i next to one removes it *)

Module IsoFacts.
Import GoStrings Lemmatize Notions StringFacts.

Lemma nextFlag_app (t s : string) (n : bool) :
  nextFlag (t +:+ s) n = nextFlag t (nextFlag s n).
Proof. by destruct t. Qed.

Lemma isoIn_app (p : bool) (r s : string) (n : bool) :
  isoIn p (r +:+ s) n
  = (isoIn p r (nextFlag s n) + isoIn (lastFlag p r) s n)%nat.
Proof.
  revert p. induction r as [|c t IH]; intros p; [done|].
  rewrite str_app_cons. cbn [isoIn lastFlag].
  rewrite nextFlag_app, IH. lia.
Qed.

Lemma isoIn_next (p : bool) (r : string) :
  isoIn p r false
  = (isoIn p r true + if soloEnd p r then 1 else 0)%nat.
Proof.
  revert p. induction r as [|c t IH]; intros p; [done|].
  destruct t as [|c' t'].
  - simpl. destruct (isI c), p; simpl; lia.
  - cbn [isoIn soloEnd nextFlag] in *. rewrite IH. lia.
Qed.

Lemma isoIn_prev (d : string) (n : bool) :
  isoIn false d n
  = (isoIn true d n + if soloStart d n then 1 else 0)%nat.
Proof.
  destruct d as [|c t]; [done|]. simpl.
  destruct (isI c), (nextFlag t n); simpl; lia.
Qed.

(** *** The flags and the tests of the program *)

Lemma string_snoc (r : string) :
  r = EmptyString ∨ ∃ t c, r = t +:+ String c EmptyString.
Proof.
  induction r as [|c r IH]; [by left|]. right.
  destruct IH as [->|(t & c' & ->)].
  - by exists EmptyString, c.
  - exists (String c t), c'. by rewrite str_app_cons.
Qed.

Lemma lastFlag_snoc (p : bool) (t : string) (c : ascii) :
  lastFlag p (t +:+ String c EmptyString) = isI c.
Proof.
  revert p. induction t as [|x t IH]; intros p; [done|].
  rewrite str_app_cons. apply IH.
Qed.

Lemma soloEnd_snoc (p : bool) (t : string) (c : ascii) :
  soloEnd p (t +:+ String c EmptyString) = isI c && negb (lastFlag p t).
Proof.
  revert p. induction t as [|x t IH]; intros p; [done|].
  rewrite str_app_cons. cbn [soloEnd lastFlag].
  destruct (t +:+ String c EmptyString) eqn:E.
  - destruct t; discriminate.
  - apply IH.
Qed.

Lemma lastByteIs_snoc (t : string) (c x : ascii) :
  lastByteIs (t +:+ String c EmptyString) x = bool_decide (c = x).
Proof.
  unfold lastByteIs. rewrite str_length_app. simpl String.length.
  replace (String.length t + 1 - 1)%nat with (String.length t) by lia.
  rewrite strDrop_app, bool_decide_eq_true_2 by lia. simpl.
  apply bool_decide_ext. split; congruence.
Qed.

Lemma lastFlag_lastByteIs (r : string) :
  lastFlag false r = lastByteIs r "i".
Proof.
  destruct (string_snoc r) as [->|(t & c & ->)]; [done|].
  by rewrite lastFlag_snoc, lastByteIs_snoc.
Qed.

Lemma HasSuffix_ii_snoc (t : string) (c : ascii) :
  HasSuffix (t +:+ String c EmptyString) "ii" = isI c && lastFlag false t.
Proof.
  destruct (string_snoc t) as [->|(t' & c' & ->)].
  { simpl. by rewrite andb_false_r. }
  rewrite lastFlag_snoc. unfold HasSuffix.
  rewrite !str_length_app. simpl String.length.
  rewrite bool_decide_eq_true_2 by lia.
  replace (String.length t' + 1 + 1 - 2)%nat with (String.length t') by lia.
  rewrite str_app_assoc, strDrop_app, str_app_cons, str_app_nil_l. simpl.
  unfold isI.
  repeat case_bool_decide; simplify_eq/=; done.
Qed.

Lemma soloEnd_tests (r : string) :
  soloEnd false r = lastByteIs r "i" && negb (HasSuffix r "ii").
Proof.
  destruct (string_snoc r) as [->|(t & c & ->)]; [done|].
  rewrite soloEnd_snoc, lastByteIs_snoc, HasSuffix_ii_snoc.
  unfold isI. by destruct (bool_decide (c = "i"%char)), (lastFlag false t).
Qed.

Lemma nextFlag_firstByteIs (d : string) :
  nextFlag d false = firstByteIs d "i".
Proof. by destruct d. Qed.

Lemma soloStart_tests (d : string) :
  soloStart d false = firstByteIs d "i" && negb (HasPrefix d "ii").
Proof.
  destruct d as [|c t]; [done|]. cbn [soloStart firstByteIs].
  rewrite HasPrefix_cons. unfold isI.
  destruct (decide (c = "i"%char)) as [->|Hc].
  - rewrite !bool_decide_eq_true_2 by done. simpl.
    destruct t as [|c' t]; [done|]. cbn [nextFlag]. rewrite HasPrefix_cons.
    rewrite HasPrefix_nil, andb_true_r. unfold isI. f_equal.
    apply bool_decide_ext. split; congruence.
  - by rewrite !bool_decide_eq_false_2 by congruence.
Qed.

(** the insertion the heuristic asks for never adds a lone [i], and
    takes one away unless the ending is empty *)
Lemma insert_i_iso (r d : string) :
  needDoubleI r d = true →
  (iso (r +:+ "i" +:+ d) ≤ iso (r +:+ d))%nat
  ∧ (d ≠ EmptyString → (iso (r +:+ "i" +:+ d) < iso (r +:+ d))%nat).
Proof.
  unfold needDoubleI, iso.
  rewrite <- lastFlag_lastByteIs, <- nextFlag_firstByteIs.
  rewrite !isoIn_app.
  change (nextFlag ("i" +:+ d) false) with true.
  change ("i" +:+ d) with (String "i" d). cbn [isoIn lastFlag].
  change (isI "i") with true.
  pose proof (soloEnd_tests r) as Hr. pose proof (soloStart_tests d) as Hd.
  rewrite <- lastFlag_lastByteIs in Hr. rewrite <- nextFlag_firstByteIs in Hd.
  destruct (lastFlag false r) eqn:Ha, (nextFlag d false) eqn:Hb;
    simpl in *;
    rewrite ?andb_true_r, ?andb_false_r, ?orb_false_r; intros H.
  - apply bool_decide_eq_true in H. destruct d; discriminate.
  - rewrite (isoIn_next false r), Hr. split; [lia|]. intros Hne.
    destruct (HasSuffix r "ii"); simpl in *; [|lia].
    rewrite orb_false_r in H. apply bool_decide_eq_true in H.
    destruct d; [done|discriminate].
  - simpl in H. rewrite (isoIn_prev d false), Hd, H. lia.
  - discriminate.
Qed.

Lemma key_length_le (l : Lemmatizer) (k : string) :
  is_Some (radicals l !! k) → (String.length k ≤ maxKeyBytes l)%nat.
Proof.
  intros [v Hv]. unfold maxKeyBytes. apply max_list_elem_of_le.
  apply list_elem_of_fmap. exists k. split; [done|].
  apply list_elem_of_fmap. exists (k, v). split; [done|].
  by apply elem_of_map_to_list.
Qed.

(** the measure goes down at every call of the raw matcher to itself *)
Lemma rawMeasure_decreases (l : Lemmatizer) (r d : string) :
  is_Some (radicals l !! r) → needDoubleI r d = true →
  (rawMeasure l (r +:+ "i" +:+ d) < rawMeasure l (r +:+ d))%nat.
Proof.
  intros Hkey Hneed. unfold rawMeasure.
  destruct (insert_i_iso r d Hneed) as [Hle Hlt].
  pose proof (key_length_le l r Hkey) as Hlen.
  rewrite !str_length_app. simpl String.length.
  destruct d as [|c d].
  - simpl String.length. rewrite !str_app_nil_r in *. lia.
  - specialize (Hlt ltac:(discriminate)). lia.
Qed.

End IsoFacts.

(** ** Termination *)

Module TerminationFacts.
Import GoStrings Normalize Loader Lemmatize Notions StringFacts Utf8Facts
  NormalizeFacts IsoFacts LemmatizeFacts LoaderFacts.

Lemma Invokes_May {A} rec (p : Prog A) c : Invokes rec p c → MayInvoke p c.
Proof. induction 1; [constructor|by econstructor]. Qed.

Lemma may_ret {A} (a : A) c : ¬ MayInvoke (Ret a) c.
Proof. inversion 1. Qed.

Lemma may_invoke {A} c0 (k : GoMap → Prog A) c :
  MayInvoke (Invoke c0 k) c ↔ c = c0 ∨ ∃ r, MayInvoke (k r) c.
Proof.
  split.
  - inversion 1; subst; eauto.
  - intros [->|[r H]]; [constructor|by econstructor].
Qed.

Lemma may_bind {A B} (p : Prog A) (f : A → Prog B) c :
  MayInvoke (p ≫= f) c → MayInvoke p c ∨ ∃ a, MayInvoke (f a) c.
Proof.
  induction p as [a|c0 k IH].
  - rewrite bind_ret. eauto.
  - rewrite bind_invoke, !may_invoke. intros [->|[r H]]; [by left; left|].
    apply IH in H as [H|H]; [left; right; eauto|by right].
Qed.

Lemma may_call c0 c : MayInvoke (call c0) c → c = c0.
Proof.
  unfold call. rewrite may_invoke.
  intros [->|[r H]]; [done|by apply may_ret in H].
Qed.

Lemma may_call_bind {B} c0 (f : GoMap → Prog B) c :
  MayInvoke (call c0 ≫= f) c → c = c0 ∨ ∃ r, MayInvoke (f r) c.
Proof. intros [H%may_call|H]%may_bind; auto. Qed.

Section Unicode.
Variable ToLower : string → string.
Variable IsUpper IsLower : Rune → bool.
Variable ToUpper : Rune → Rune.

Local Abbreviation body := (body ToLower IsUpper IsLower ToUpper).
Local Abbreviation run := (run ToLower IsUpper IsLower ToUpper).
Local Abbreviation Returns := (Returns ToLower IsUpper IsLower ToUpper).
Local Abbreviation lemmatizeMEtape :=
  (lemmatizeMEtape ToLower IsUpper IsLower ToUpper).

(** *** Running with more stack *)

Lemma interp_mono {A} (rec rec' : Call → option GoMap) (p : Prog A) a :
  (∀ c r, rec c = Some r → rec' c = Some r) →
  interp rec p = Some a → interp rec' p = Some a.
Proof.
  intros Hrec. induction p as [a'|c k IH]; simpl; [done|].
  destruct (rec c) as [r|] eqn:E; [|done].
  rewrite (Hrec _ _ E). apply IH.
Qed.

Lemma run_mono l (n m : nat) c r :
  (n ≤ m)%nat → run l n c = Some r → run l m c = Some r.
Proof.
  revert m c r. induction n as [|n IH]; intros m c r Hle; [done|].
  destruct m as [|m]; [lia|]. simpl.
  apply interp_mono. intros c' r'. apply IH. lia.
Qed.

Lemma run_Returns l n c r : run l n c = Some r → Returns l c r.
Proof. intros H. exists n. intros depth Hle. by eapply run_mono. Qed.

(** a program all of whose possible calls return, returns *)
Lemma interp_total l {A} (p : Prog A) :
  (∀ c, MayInvoke p c → ∃ r, Returns l c r) →
  ∃ n a, ∀ depth, (n ≤ depth)%nat → interp (run l depth) p = Some a.
Proof.
  induction p as [a|c0 k IH]; intros Hcalls.
  - exists 0%nat, a. done.
  - destruct (Hcalls c0) as (r0 & n0 & H0); [constructor|].
    destruct (IH r0) as (n1 & a & H1).
    { intros c Hc. apply Hcalls. by econstructor. }
    exists (n0 `max` n1)%nat, a. intros depth Hle. simpl.
    rewrite H0 by lia. apply H1. lia.
Qed.

Lemma body_Returns l c :
  (∀ c', MayInvoke (body l c) c' → ∃ r, Returns l c' r) →
  ∃ r, Returns l c r.
Proof.
  intros H. destruct (interp_total l (body l c) H) as (n & r & Hn).
  exists r, (S n). intros [|depth] Hle; [lia|]. simpl. apply Hn. lia.
Qed.

(** *** The raw matcher *)

Lemma splitStep_may l c rs i result c' :
  MayInvoke (splitStep ToLower l c rs i result) c' →
  c' = CallRaw (stringOfRunes (take i rs) +:+ "i"
                +:+ stringOfRunes (drop i rs))
  ∧ is_Some (radicals l !! stringOfRunes (take i rs))
  ∧ needDoubleI (stringOfRunes (take i rs)) (stringOfRunes (drop i rs))
    = true.
Proof.
  unfold splitStep.
  destruct (radicals l !! stringOfRunes (take i rs)) as [rads|];
    [|by intros H%may_ret].
  intros [H|[a H]]%may_bind.
  - destruct (needDoubleI _ _); [|by apply may_ret in H].
    apply may_call_bind in H as [->|[r H]]; [by eauto|].
    by apply may_ret in H.
  - destruct (desinences l !! _); by apply may_ret in H.
Qed.

Lemma splitLoop_may l c rs idxs result c' :
  MayInvoke (splitLoop ToLower l c rs idxs result) c' →
  ∃ i result', MayInvoke (splitStep ToLower l c rs i result') c'.
Proof.
  revert result. induction idxs as [|i idxs IH]; intros result; simpl.
  { by intros H%may_ret. }
  intros [H|[a H]]%may_bind; eauto.
Qed.

Lemma raw_calls l form c' :
  MayInvoke (lemmatizeRaw ToLower l form) c' →
  ∃ i, let rs := runes (Deramise form) in
       let r := stringOfRunes (take i rs) in
       let d := stringOfRunes (drop i rs) in
       c' = CallRaw (stringOfRunes (take i rs ++ "i" :: drop i rs))
       ∧ r +:+ "i" +:+ d = stringOfRunes (take i rs ++ "i" :: drop i rs)
       ∧ r +:+ d = stringOfRunes rs
       ∧ is_Some (radicals l !! r) ∧ needDoubleI r d = true.
Proof.
  unfold lemmatizeRaw. intros [H|[a H]]%may_bind;
    [|by apply may_ret in H].
  apply splitLoop_may in H as (i & result' & H).
  apply splitStep_may in H as (-> & Hkey & Hneed).
  exists i. simpl.
  assert (stringOfRunes (take i (runes (Deramise form))) +:+ "i"
          +:+ stringOfRunes (drop i (runes (Deramise form)))
          = stringOfRunes (take i (runes (Deramise form))
                           ++ "i" :: drop i (runes (Deramise form))))
    as Heq by (by rewrite stringOfRunes_app).
  rewrite <- stringOfRunes_app, take_drop. by rewrite <- Heq.
Qed.

Lemma valid_i : ValidRune "i".
Proof. reflexivity. Qed.

Lemma classical_i : Classical "i".
Proof. reflexivity. Qed.

Lemma insert_valid i (y : list Rune) :
  Forall ValidRune y → Forall ValidRune (take i y ++ "i" :: drop i y).
Proof.
  intros Hy. apply Forall_app. split; [by apply Forall_take|].
  constructor; [apply valid_i|by apply Forall_drop].
Qed.

Lemma insert_classical i (y : list Rune) :
  Forall Classical y → Forall Classical (take i y ++ "i" :: drop i y).
Proof.
  intros Hy. apply Forall_app. split; [by apply Forall_take|].
  constructor; [apply classical_i|by apply Forall_drop].
Qed.

Lemma classical_fixed (y : list Rune) :
  Forall Classical y → y ≫= deramiseImage = y.
Proof.
  induction 1 as [|c y Hc _ IH]; [done|].
  by rewrite bind_cons, IH, Hc.
Qed.

Lemma image_classical (c : Rune) :
  ValidRune c → Forall Classical (deramiseImage c).
Proof.
  intros Hc.
  destruct (decide (c ∈ deramiseReplacer.*1)) as [Hin|Hnot].
  - assert (Forall (λ c, Forall Classical (deramiseImage c))
              deramiseReplacer.*1) as H
      by (unfold deramiseReplacer; simpl; repeat constructor).
    rewrite Forall_forall in H. by apply H.
  - pose proof (image_off_keys deramiseReplacer c deramiseReplacer_runes
                  Hc Hnot) as H.
    unfold deramiseImage. rewrite H. by constructor.
Qed.

Lemma deramised_classical (y : list Rune) :
  Forall ValidRune y → Forall Classical (y ≫= deramiseImage).
Proof.
  induction 1 as [|c y Hc _ IH]; [constructor|].
  rewrite bind_cons. apply Forall_app. split; [by apply image_classical|done].
Qed.

(** on a form that is deramised UTF-8, by induction on the measure *)
Lemma raw_returns_classical l (n : nat) (y : list Rune) :
  Forall ValidRune y → Forall Classical y →
  (rawMeasure l (stringOfRunes y) < n)%nat →
  ∃ r, Returns l (CallRaw (stringOfRunes y)) r.
Proof.
  revert y. induction n as [|n IH]; intros y Hv Hc Hn; [lia|].
  apply body_Returns. intros c' Hmay.
  apply raw_calls in Hmay as (i & -> & Hnf & Hrd & Hkey & Hneed).
  destruct (Deramise_runes y Hv) as [Hd _].
  rewrite Hd, classical_fixed, runes_stringOfRunes in * by done.
  apply IH; [by apply insert_valid|by apply insert_classical|].
  pose proof (rawMeasure_decreases l _ _ Hkey Hneed) as Hlt.
  rewrite Hnf, Hrd in Hlt. lia.
Qed.

(** on UTF-8 *)
Lemma raw_returns_valid l (y : list Rune) :
  Forall ValidRune y → ∃ r, Returns l (CallRaw (stringOfRunes y)) r.
Proof.
  intros Hv. apply body_Returns. intros c' Hmay.
  apply raw_calls in Hmay as (i & -> & _).
  destruct (Deramise_runes y Hv) as [Hd Hv'].
  rewrite Hd, runes_stringOfRunes by done.
  eapply raw_returns_classical; [|apply insert_classical|apply Nat.lt_succ_diag_r].
  - by apply insert_valid.
  - by apply deramised_classical.
Qed.

(** on any bytes *)
Lemma raw_returns l (form : string) : ∃ r, Returns l (CallRaw form) r.
Proof.
  apply body_Returns. intros c' Hmay.
  apply raw_calls in Hmay as (i & -> & _).
  apply raw_returns_valid, insert_valid, runes_valid.
Qed.

(** *** The cascade *)

Lemma stripEnclitics_may form ss sufs mm c :
  MayInvoke (stripEnclitics form ss sufs mm) c →
  ∃ suf, suf ∈ sufs ∧ HasSuffix form suf = true
    ∧ c = CallEtape
            (if bool_decide (suf = "st")
             then strTake (String.length form - String.length suf) form
                  +:+ "s"
             else strTake (String.length form - String.length suf) form)
            ss 1.
Proof.
  revert mm. induction sufs as [|suf rest IH]; intros mm; simpl.
  { by intros H%may_ret. }
  destruct (lenMap mm >? 0); [by intros H%may_ret|].
  destruct (HasSuffix form suf) eqn:Hsuf.
  - rewrite may_invoke. intros [->|(r & H)].
    + exists suf. split; [by left|done].
    + apply IH in H as (suf' & Hin & H). exists suf'.
      split; [by right|done].
  - intros H. apply IH in H as (suf' & Hin & H). exists suf'.
    split; [by right|done].
Qed.

(** every call a stage can make *)
Lemma cascade_may l form ss e c :
  MayInvoke (lemmatizeMEtape l form ss e) c →
  (3 < e ∧ (c = CallRaw form
            ∨ (ss = true ∧ c = CallEtape (ToLower form) false 4)))
  ∨ (e ≤ 3
     ∧ (c = CallEtape form ss (e + 1)
        ∨ (e = 3 ∧ c = CallEtape (decontracte l form) ss 4)
        ∨ (e = 2 ∧ (c = CallEtape (assim l form) ss 3
                    ∨ c = CallEtape (desassim l form) ss 3))
        ∨ (e = 1
           ∧ ∃ suf, suf ∈ enclitics ∧ HasSuffix form suf = true
             ∧ c = CallEtape
                     (if bool_decide (suf = "st")
                      then strTake
                             (String.length form - String.length suf) form
                           +:+ "s"
                      else strTake
                             (String.length form - String.length suf) form)
                     ss 1)
        ∨ (e = 0 ∧ c = CallEtape (capitalize ToUpper form) false 1))).
Proof.
  unfold Lemmatize.lemmatizeMEtape.
  destruct (bool_decide (form = EmptyString)); [by intros H%may_ret|].
  destruct (Z.gtb_spec e 3) as [Hgt|Hle].
  - intros [->|(mm & H)]%may_call_bind; [by left; eauto|].
    destruct ss; simpl in H; [|by apply may_ret in H].
    destruct (_ && _) in H; [|by apply may_ret in H].
    apply may_call_bind in H as [->|(r & H)]; [|by apply may_ret in H].
    left. eauto.
  - intros Hm. right. split; [done|]. revert Hm.
    intros [->|(mm & H)]%may_call_bind; [by left|]. right.
    destruct (Z.eqb_spec e 3) as [->|_].
    { left. split; [done|].
      destruct (bool_decide _) in H; [|by apply may_ret in H].
      apply may_call_bind in H as [->|(r & H)];
        [done|by apply may_ret in H]. }
    right. destruct (Z.eqb_spec e 2) as [->|_].
    { left. split; [done|]. destruct (bool_decide _) in H.
      - apply may_call_bind in H as [->|(r & H)];
          [by left|by apply may_ret in H].
      - destruct (bool_decide _) in H; [|by apply may_ret in H].
        apply may_call_bind in H as [->|(r & H)];
          [by right|by apply may_ret in H]. }
    right. destruct (Z.eqb_spec e 1) as [->|_].
    { left. split; [done|].
      destruct (lenMap mm =? 0); [|by apply may_ret in H].
      by apply stripEnclitics_may in H. }
    right. destruct (Z.eqb_spec e 0) as [->|_]; [|by apply may_ret in H].
    destruct (_ && _) in H; [|by apply may_ret in H].
    by apply may_call in H as ->.
Qed.

Ltac by_stage H :=
  apply cascade_may in H
    as [(? & [->|(? & ->)])
       |(? & [->|[(? & ->)|[(? & [->| ->])|[(? & Henc)|(? & ->)]]]])];
  try lia; try discriminate.

Lemma final_plain_returns l form e :
  3 < e → ∃ r, Returns l (CallEtape form false e) r.
Proof.
  intros He. apply body_Returns. intros c' H. by_stage H.
  apply raw_returns.
Qed.

Lemma final_returns l form ss e :
  3 < e → ∃ r, Returns l (CallEtape form ss e) r.
Proof.
  intros He. apply body_Returns. intros c' H. by_stage H.
  - apply raw_returns.
  - by apply final_plain_returns.
Qed.

Lemma etape3_returns l form ss : ∃ r, Returns l (CallEtape form ss 3) r.
Proof.
  apply body_Returns. intros c' H. by_stage H;
    by apply final_returns.
Qed.

Lemma etape2_returns l form ss : ∃ r, Returns l (CallEtape form ss 2) r.
Proof.
  apply body_Returns. intros c' H. by_stage H;
    apply etape3_returns.
Qed.

(** stage 1 calls itself on shorter and shorter forms *)
Lemma etape1_returns l form ss : ∃ r, Returns l (CallEtape form ss 1) r.
Proof.
  remember (String.length form) as n eqn:Hn. revert form Hn.
  induction (lt_wf n) as [n _ IH]. intros form ->.
  apply body_Returns. intros c' H. by_stage H.
  - apply etape2_returns.
  - destruct Henc as (suf & Hin & Hsuf & ->).
    eapply IH; [|reflexivity]. by apply enclitic_shortens.
Qed.

Lemma cascade_returns l form ss : ∃ r, Returns l (CallEtape form ss 0) r.
Proof.
  apply body_Returns. intros c' H. by_stage H;
    apply etape1_returns.
Qed.

(** C1.  [lemmatize] returns on every form and every flag: there is
    a depth of stack within which the cascade entered at stage 0 is
    over, the raw matcher with its ii/ī recursion and stage 1 with its
    enclitic recursion included. *)
Theorem lemmatize_terminates (l : Lemmatizer) (form : string)
  (sentenceStart : bool) :
  (∃ r, Returns l (lemmatizeM form sentenceStart) r)
  ∧ (∃ r, Returns l (CallRaw form) r)
  ∧ (∃ r, Returns l (CallEtape form sentenceStart 1) r).
Proof.
  split; [apply cascade_returns|].
  split; [apply raw_returns|apply etape1_returns].
Qed.



End Unicode.

Import Samples.


End TerminationFacts.

(** ** The model compiler *)

Module ModelFacts.
Import GoStrings Normalize Loader Notions.

Global Instance sameHeap_refl : Reflexive sameHeap.
Proof. by intros st. Qed.

Global Instance sameHeap_trans : Transitive sameHeap.
Proof. unfold sameHeap. intros a b c H1 H2. congruence. Qed.

Global Instance sameHead_refl : Reflexive sameHead.
Proof. by intros st. Qed.

Global Instance sameHead_trans : Transitive sameHead.
Proof.
  unfold sameHead. intros a b c (? & ? & ?) (? & ? & ?).
  repeat split; congruence.
Qed.






Section GoLibrary.
Variable TrimSpace : string → string.
Variable Atoi : string → Z.









End GoLibrary.

Import Samples.



End ModelFacts.

(** ** Irregular forms: the mask of the matcher and the inflection table *)

Module IrregularFacts.
Import GoStrings Normalize Lemmatize Inflection Notions.

Lemma containsZ_spec (vs : list Z) (a : Z) : containsZ vs a = true ↔ a ∈ vs.
Proof.
  induction vs as [|v vs IH]; simpl.
  - split; [done|]. intros H. by apply elem_of_nil in H.
  - rewrite elem_of_cons. destruct (Z.eqb_spec v a) as [->|Hne].
    + split; auto.
    + rewrite IH. split; [auto|]. intros [->|H]; [done|exact H].
Qed.

Lemma containsZ_false (vs : list Z) (a : Z) :
  containsZ vs a = false ↔ a ∉ vs.
Proof.
  rewrite <- containsZ_spec. by destruct (containsZ vs a).
Qed.

(** what [addIrreg] maintains: the mask has the slots of every
    exclusive irregular of the lemma *)
Lemma loaded_mask (lem : Lemma.t) :
  Loaded lem →
  ∀ irr s, irr ∈ Lemma.irregs lem → Irreg.Exclusive irr = true →
           s ∈ Irreg.Morphos irr → isExclusiveIrreg lem s = true.
Proof.
  unfold isExclusiveIrreg.
  induction 1 as [lem Hirr _|lem irr0 _ IH]; intros irr s Hin Hex Hs.
  - rewrite Hirr in Hin. by apply elem_of_nil in Hin.
  - apply containsZ_spec. simpl in *.
    apply elem_of_app in Hin as [Hin|Hin].
    + specialize (IH irr s Hin Hex Hs). apply containsZ_spec in IH.
      destruct (Irreg.Exclusive irr0); [|done].
      apply elem_of_app. by left.
    + apply list_elem_of_singleton in Hin as ->. rewrite Hex.
      apply elem_of_app. by right.
Qed.


Section Unicode.
Variable ToLower : string → string.



End Unicode.

Import Samples.



End IrregularFacts.

(** ** Normalization, further: fixed points, lengths, plain ASCII *)

Module NormalizeMore.
Import GoStrings Normalize Notions MoreNotions StringFacts Utf8Facts
  NormalizeFacts.

Lemma NormalizeKey_runes (cs : list Rune) :
  Forall ValidRune cs →
  NormalizeKey (stringOfRunes cs) = stringOfRunes (cs ≫= normalizeImage)
  ∧ Forall ValidRune (cs ≫= normalizeImage).
Proof.
  intros Hcs. unfold NormalizeKey.
  destruct (Deramise_runes cs Hcs) as [-> Hd].
  destruct (Atone_runes _ Hd) as [-> Ha].
  by rewrite bind_bind in *.
Qed.

Lemma off_marked (c : Rune) :
  ValidRune c → c ∉ markedRunes →
  deramiseImage c = [c] ∧ atoneImage c = [c].
Proof.
  intros Hc Hnot. unfold markedRunes in Hnot.
  rewrite !not_elem_of_app in Hnot. destruct Hnot as (Hd & Ha & Hb).
  split; [apply image_off_keys; auto using deramiseReplacer_runes|].
  unfold atoneImage.
  rewrite (image_off_keys atoneReplacer); auto using atoneReplacer_runes.
  rewrite bind_singleton. apply image_off_keys; auto using breve_runes.
Qed.

Lemma fixed_on_marked :
  Forall (λ c, atoneImage c ≫= atoneImage = atoneImage c
               ∧ deramiseImage c ≫= deramiseImage = deramiseImage c
               ∧ normalizeImage c ≫= normalizeImage = normalizeImage c)
    markedRunes.
Proof. unfold markedRunes. simpl. repeat constructor. Qed.

Lemma fixed_on_rune (c : Rune) :
  ValidRune c →
  atoneImage c ≫= atoneImage = atoneImage c
  ∧ deramiseImage c ≫= deramiseImage = deramiseImage c
  ∧ normalizeImage c ≫= normalizeImage = normalizeImage c.
Proof.
  intros Hc. destruct (decide (c ∈ markedRunes)) as [Hin|Hnot].
  { pose proof fixed_on_marked as H. rewrite Forall_forall in H. auto. }
  destruct (off_marked c Hc Hnot) as [Hd Ha]. unfold normalizeImage.
  repeat split;
    repeat (rewrite ?Hd, ?Ha, ?bind_singleton; cbv beta); done.
Qed.

Lemma bind_fixed {A} (f : A → list A) (P : A → Prop) (cs : list A) :
  (∀ c, P c → f c ≫= f = f c) → Forall P cs → (cs ≫= f) ≫= f = cs ≫= f.
Proof.
  intros Hf. induction 1 as [|c cs Hc _ IH]; [done|].
  by rewrite !bind_cons, bind_app, IH, Hf.
Qed.

(** X1.  A key is its own key: on well-formed UTF-8, [NormalizeKey]
    applied to its own result changes nothing, and the result is
    well-formed again. *)
Theorem normalize_key_idempotent (s : string) :
  WellFormed s →
  NormalizeKey (NormalizeKey s) = NormalizeKey s
  ∧ WellFormed (NormalizeKey s).
Proof.
  intros (cs & Hcs & ->).
  destruct (NormalizeKey_runes cs Hcs) as [-> Hv].
  destruct (NormalizeKey_runes _ Hv) as [-> _].
  split; [|by eexists].
  f_equal. apply (bind_fixed _ ValidRune); [|done].
  intros c Hc. apply (fixed_on_rune c Hc).
Qed.

(** X2.  On well-formed UTF-8, [Atone] leaves its own result alone. *)
Theorem atone_idempotent (s : string) :
  WellFormed s → Atone (Atone s) = Atone s.
Proof.
  intros (cs & Hcs & ->).
  destruct (Atone_runes cs Hcs) as [-> Hv].
  destruct (Atone_runes _ Hv) as [-> _].
  f_equal. apply (bind_fixed _ ValidRune); [|done].
  intros c Hc. apply (fixed_on_rune c Hc).
Qed.

(** *** On arbitrary bytes *)

Lemma replaceFrom_cons pairs c t :
  replaceFrom 0 pairs (String c t)
  = match lookupPair pairs (String c t) with
    | Some (old, new) => new +:+ replaceFrom (String.length old - 1) pairs t
    | None => String c (replaceFrom 0 pairs t)
    end.
Proof. reflexivity. Qed.

Lemma replaceFrom_drop pairs k s :
  replaceFrom k pairs s = replaceFrom 0 pairs (strDrop k s).
Proof.
  revert k. induction s as [|c t IH]; intros [|k]; try done. apply IH.
Qed.

(** a match is replaced and the scan goes on behind it *)
Lemma Replace_match pairs s old new :
  lookupPair pairs s = Some (old, new) → (0 < String.length old)%nat →
  ∃ rest, s = old +:+ rest ∧ Replace pairs s = new +:+ Replace pairs rest.
Proof.
  intros Hl Hlen. pose proof Hl as [_ [rest ->]%HasPrefix_spec]%lookupPair_Some.
  exists rest. split; [done|]. unfold Replace.
  destruct old as [|c0 t]; [simpl in Hlen; lia|].
  rewrite str_app_cons in *. rewrite replaceFrom_cons, Hl. f_equal.
  replace (String.length (String c0 t) - 1)%nat with (String.length t)
    by (simpl; lia).
  apply replaceFrom_skip.
Qed.

Lemma Replace_shrinks pairs s :
  Shrinking pairs → (String.length (Replace pairs s) ≤ String.length s)%nat.
Proof.
  intros Hp. pose (n := String.length s).
  assert (String.length s ≤ n)%nat as Hle by (unfold n; lia). clearbody n.
  revert s Hle. induction n as [|n IH]; intros s Hle.
  - destruct s; simpl in *; lia.
  - destruct s as [|c t]; [simpl; lia|].
    destruct (lookupPair pairs (String c t)) as [[old new]|] eqn:Hl.
    + pose proof Hl as [Hin _]%lookupPair_Some.
      unfold Shrinking in Hp. rewrite Forall_forall in Hp.
      destruct (Hp _ Hin) as [Hpos Hlen]. simpl in Hpos, Hlen.
      destruct (Replace_match _ _ _ _ Hl Hpos) as (rest & Hs & ->).
      rewrite Hs in Hle |- *. rewrite !str_length_app in *.
      specialize (IH rest ltac:(lia)). lia.
    + unfold Replace in *. rewrite replaceFrom_cons, Hl. simpl in *.
      specialize (IH t ltac:(lia)). lia.
Qed.

Lemma atoneReplacer_shrinking : Shrinking atoneReplacer.
Proof. unfold Shrinking, atoneReplacer. repeat constructor. Qed.

Lemma breve_shrinking : Shrinking [(combiningBreve, EmptyString)].
Proof. unfold Shrinking. repeat constructor. Qed.

Lemma deramiseReplacer_shrinking : Shrinking deramiseReplacer.
Proof. unfold Shrinking, deramiseReplacer. repeat constructor. Qed.

(** X4.  Whatever the bytes, none of the three functions makes a
    string longer. *)
Theorem normalizing_never_lengthens (s : string) :
  (String.length (Atone s) ≤ String.length s)%nat
  ∧ (String.length (Deramise s) ≤ String.length s)%nat
  ∧ (String.length (NormalizeKey s) ≤ String.length s)%nat.
Proof.
  assert (∀ x, String.length (Atone x) ≤ String.length x)%nat as Ha.
  { intros x. unfold Atone, ReplaceAll.
    pose proof (Replace_shrinks atoneReplacer x atoneReplacer_shrinking).
    pose proof (Replace_shrinks _ (Replace atoneReplacer x) breve_shrinking).
    lia. }
  assert (∀ x, String.length (Deramise x) ≤ String.length x)%nat as Hd
    by (intros x; apply Replace_shrinks, deramiseReplacer_shrinking).
  split; [apply Ha|]. split; [apply Hd|].
  unfold NormalizeKey. specialize (Ha (Deramise s)). specialize (Hd s). lia.
Qed.

Lemma lookupPair_miss pairs c x :
  Forall (λ p : string * string, ∃ k t, p.1 = String k t ∧ k ≠ c) pairs →
  lookupPair pairs (String c x) = None.
Proof.
  induction 1 as [|[o n] pairs (k & t & Ho & Hk) _ IH]; [done|].
  simpl in Ho. subst o. cbn [lookupPair HasPrefix].
  by rewrite bool_decide_eq_false_2.
Qed.

(** no key of such a table starts at an ASCII byte *)
Lemma lookupPair_low pairs c x :
  HighKeys pairs → (byteN c < 0x80)%N → lookupPair pairs (String c x) = None.
Proof.
  intros Hp Hc. apply lookupPair_miss. eapply Forall_impl; [exact Hp|].
  intros p (k & t & Hk & Hhigh). exists k, t. split; [done|].
  intros ->. lia.
Qed.

Lemma Replace_ascii pairs s :
  HighKeys pairs → isASCII s = true → Replace pairs s = s.
Proof.
  intros Hp. unfold Replace. induction s as [|c t IH]; [done|].
  cbn [isASCII]. intros [Hc Ht]%andb_true_iff. apply N.ltb_lt in Hc.
  rewrite replaceFrom_cons, lookupPair_low, IH by done. done.
Qed.

Lemma atoneReplacer_high : HighKeys atoneReplacer.
Proof.
  unfold HighKeys, atoneReplacer.
  repeat (constructor; [eexists _, _; split; [reflexivity|done]|]).
  constructor.
Qed.

Lemma breve_high : HighKeys [(combiningBreve, EmptyString)].
Proof.
  unfold HighKeys.
  repeat (constructor; [eexists _, _; split; [reflexivity|done]|]).
  constructor.
Qed.

Lemma Deramise_ascii_cons c t :
  (byteN c < 0x80)%N →
  Deramise (String c t) = String (classicalByte c) (Deramise t).
Proof.
  intros Hc. unfold Deramise, Replace. rewrite replaceFrom_cons.
  destruct (decide (c ∈ ["J"; "j"; "v"; "V"]%char)) as [Hin|Hnot].
  - unfold deramiseReplacer at 1. cbn [lookupPair HasPrefix].
    rewrite !HasPrefix_nil.
    repeat (apply elem_of_cons in Hin as [->|Hin]; [reflexivity|]).
    by apply elem_of_nil in Hin.
  - rewrite !not_elem_of_cons in Hnot. destruct Hnot as (HJ & Hj & Hv & HV & _).
    unfold classicalByte.
    rewrite lookupPair_miss; [by rewrite !bool_decide_eq_false_2 by done|].
    unfold deramiseReplacer.
    repeat (constructor;
            [eexists _, _; split;
             [reflexivity
             |first [congruence|intros <-; vm_compute in Hc; done]]|]).
    constructor.
Qed.

(** X5.  On a string of ASCII bytes [Atone] changes nothing and
    [Deramise] changes the letters J, j, v and V only, each into one
    letter. *)
Theorem ascii_normalization (s : string) :
  isASCII s = true →
  Atone s = s ∧ Deramise s = mapBytes classicalByte s.
Proof.
  intros Hs. split.
  - unfold Atone, ReplaceAll.
    rewrite (Replace_ascii atoneReplacer), (Replace_ascii _ _ breve_high);
      auto using atoneReplacer_high.
  - induction s as [|c t IH]; [done|].
    cbn [isASCII] in Hs. apply andb_true_iff in Hs as [Hc Ht].
    apply N.ltb_lt in Hc. rewrite Deramise_ascii_cons by done.
    cbn [mapBytes]. by rewrite IH.
Qed.

(** *** [Deramise] on its own output *)

Lemma Replace_cons_None pairs c t :
  lookupPair pairs (String c t) = None →
  Replace pairs (String c t) = String c (Replace pairs t).
Proof. intros H. unfold Replace. by rewrite replaceFrom_cons, H. Qed.

Ltac deramise_pair H :=
  unfold deramiseReplacer in H;
  repeat (apply elem_of_cons in H as [H|H]; [injection H as -> ->|]);
  [..|by apply elem_of_nil in H].

Ltac not_a_letter H :=
  unfold classicalLetters in H;
  repeat (apply elem_of_cons in H as [H|H]; [discriminate H|]);
  by apply elem_of_nil in H.

Lemma letter_copied a x :
  a ∈ classicalLetters →
  Replace deramiseReplacer (String a x)
  = String a (Replace deramiseReplacer x).
Proof.
  intros Ha. apply Replace_cons_None, lookupPair_miss.
  unfold classicalLetters in Ha.
  repeat (apply elem_of_cons in Ha as [->|Ha];
          [unfold deramiseReplacer;
           repeat (constructor;
                   [eexists _, _; split; [reflexivity|discriminate]|]);
           constructor|]).
  by apply elem_of_nil in Ha.
Qed.

Lemma value_copied old new y :
  (old, new) ∈ deramiseReplacer →
  Replace deramiseReplacer (new +:+ y) = new +:+ Replace deramiseReplacer y.
Proof.
  intros Hin. deramise_pair Hin; rewrite ?str_app_cons, ?str_app_nil_l;
    rewrite !letter_copied; try done;
    unfold classicalLetters; rewrite !elem_of_cons; tauto.
Qed.

(** the first byte of the output is a copied byte or a letter *)
Lemma Replace_head t b rest :
  Replace deramiseReplacer t = String b rest →
  (∃ t', t = String b t' ∧ rest = Replace deramiseReplacer t'
         ∧ lookupPair deramiseReplacer t = None)
  ∨ b ∈ classicalLetters.
Proof.
  destruct t as [|c t]; [discriminate|].
  unfold Replace. rewrite replaceFrom_cons.
  destruct (lookupPair deramiseReplacer (String c t)) as [[old new]|] eqn:Hl.
  - apply lookupPair_Some in Hl as [Hin _].
    deramise_pair Hin; rewrite ?str_app_cons, ?str_app_nil_l;
      intros [= <- _]; right;
      unfold classicalLetters; rewrite !elem_of_cons; tauto.
  - intros [= <- <-]. left. by exists t.
Qed.

Ltac found H :=
  unfold deramiseReplacer in H; cbn [lookupPair HasPrefix] in H;
  rewrite ?HasPrefix_nil in H; by vm_compute in H.

(** where the input has no key, the output has none *)
Lemma no_new_key c t :
  lookupPair deramiseReplacer (String c t) = None →
  lookupPair deramiseReplacer (String c (Replace deramiseReplacer t)) = None.
Proof.
  intros H.
  destruct (lookupPair deramiseReplacer
              (String c (Replace deramiseReplacer t)))
    as [[old new]|] eqn:E; [|done].
  exfalso. apply lookupPair_Some in E as [Hin [rest Hpre]%HasPrefix_spec].
  deramise_pair Hin; rewrite ?str_app_cons, ?str_app_nil_l in Hpre;
    injection Hpre as -> Hpre;
    try (found H);
    apply Replace_head in Hpre as [(t1 & -> & Hpre & _)|Hl];
    try (not_a_letter Hl); try (found H);
    symmetry in Hpre;
    apply Replace_head in Hpre as [(t2 & -> & Hpre & _)|Hl];
    try (not_a_letter Hl); found H.
Qed.

(** X3.  Whatever the bytes, [Deramise] leaves its own result alone. *)
Theorem deramise_idempotent (s : string) :
  Deramise (Deramise s) = Deramise s.
Proof.
  unfold Deramise. pose (n := String.length s).
  assert (String.length s ≤ n)%nat as Hle by (unfold n; lia). clearbody n.
  revert s Hle. induction n as [|n IH]; intros s Hle.
  { destruct s; [done|simpl in Hle; lia]. }
  destruct s as [|c t]; [done|].
  destruct (lookupPair deramiseReplacer (String c t)) as [[old new]|] eqn:Hl.
  - pose proof Hl as [Hin _]%lookupPair_Some.
    assert (0 < String.length old)%nat as Hpos
      by (deramise_pair Hin; simpl; lia).
    destruct (Replace_match _ _ _ _ Hl Hpos) as (rest & Hs & ->).
    rewrite (value_copied old) by done. f_equal. apply IH.
    rewrite Hs, str_length_app in Hle. lia.
  - rewrite (Replace_cons_None _ _ _ Hl).
    rewrite (Replace_cons_None _ _ _ (no_new_key _ _ Hl)).
    f_equal. apply IH. simpl in Hle. lia.
Qed.

Lemma normalize_key_idempotent_witness :
  WellFormed "Jūlĭæ̆"
  ∧ NormalizeKey (NormalizeKey "Jūlĭæ̆") = NormalizeKey "Jūlĭæ̆"
  ∧ WellFormed (NormalizeKey "Jūlĭæ̆").
Proof.
  assert (WellFormed "Jūlĭæ̆") as H by (by apply WellFormed_runes).
  split; [exact H|]. exact (normalize_key_idempotent "Jūlĭæ̆" H).
Defined.

Lemma atone_idempotent_witness :
  WellFormed "pŭēllă̆" ∧ Atone (Atone "pŭēllă̆") = Atone "pŭēllă̆".
Proof.
  assert (WellFormed "pŭēllă̆") as H by (by apply WellFormed_runes).
  split; [exact H|]. exact (atone_idempotent "pŭēllă̆" H).
Defined.

(** Without well-formedness [Atone] need not be idempotent: taking the
    breve out brings the two bytes of a macron letter together. *)
Lemma atone_twice_on_bytes :
  Atone MoreSamples.splitMacron = "ā"
  ∧ Atone (Atone MoreSamples.splitMacron) = "a".
Proof. split; reflexivity. Qed.

Lemma ascii_normalization_witness :
  isASCII "Juvenis" = true
  ∧ Atone "Juvenis" = "Juvenis"
  ∧ Deramise "Juvenis" = mapBytes classicalByte "Juvenis".
Proof.
  split; [reflexivity|]. apply (ascii_normalization "Juvenis"). reflexivity.
Defined.

End NormalizeMore.

(** ** Ranges of slots: [ListI] *)

Module ListIFacts.
Import GoStrings Loader StringFacts.

Lemma Split1_nonempty s sep : Split1 s sep ≠ [].
Proof.
  destruct s as [|c t]; [done|]. simpl.
  case_bool_decide; [done|]. by destruct (Split1 t sep).
Qed.

(** splitting at every separator: the pieces of one string after those
    of the other *)
Lemma Split1_app s1 s2 sep :
  Split1 (s1 +:+ String sep s2) sep = Split1 s1 sep ++ Split1 s2 sep.
Proof.
  induction s1 as [|c t IH].
  - rewrite str_app_nil_l. simpl. by rewrite bool_decide_eq_true_2.
  - rewrite str_app_cons. simpl. case_bool_decide.
    + by rewrite IH.
    + rewrite IH. pose proof (Split1_nonempty t sep).
      by destruct (Split1 t sep).
Qed.





Section GoLibrary.
Variable TrimSpace : string → string.
Variable Atoi : string → Z.

Local Abbreviation ListI := (ListI TrimSpace Atoi).

(** X6.  The list of a comma-separated text is the list of what
    stands before a comma followed by the list of what stands after
    it. *)
Theorem ListI_comma (s1 s2 : string) :
  ListI (s1 +:+ "," +:+ s2) = ListI s1 ++ ListI s2.
Proof.
  unfold Loader.ListI.
  change ("," +:+ s2) with (String ","%char s2).
  by rewrite Split1_app, fmap_app, concat_app.
Qed.


End GoLibrary.


End ListIFacts.

(** ** The inflection table, further *)

Module InflectionMore.
Import GoStrings Inflection.

Lemma uniqueFrom_spec (seen ss : list string) :
  (∀ s, s ∈ uniqueFrom seen ss ↔ s ∈ ss ∧ s ∉ seen)
  ∧ NoDup (uniqueFrom seen ss)
  ∧ uniqueFrom seen ss `sublist_of` ss.
Proof.
  revert seen. induction ss as [|x ss IH]; intros seen.
  { split; [|split; [constructor|done]]. intros s. split.
    - by intros ?%elem_of_nil.
    - by intros [?%elem_of_nil _]. }
  cbn [uniqueFrom]. case_bool_decide as Hx.
  - destruct (IH seen) as (Hin & Hnd & Hsub).
    split; [|split; [done|by constructor]].
    intros s. rewrite Hin, elem_of_cons. split; [tauto|].
    intros [[->|Hs] Hn]; [done|by split].
  - destruct (IH (x :: seen)) as (Hin & Hnd & Hsub).
    split; [|split; [|by constructor]].
    + intros s. rewrite !elem_of_cons, Hin, not_elem_of_cons.
      destruct (decide (s = x)) as [->|Hne]; [|tauto].
      split; [by split; [left|]|by left].
    + constructor; [|done]. rewrite Hin, not_elem_of_cons. tauto.
Qed.

Lemma uniqueFrom_fixed (seen ss : list string) :
  NoDup ss → (∀ s, s ∈ ss → s ∉ seen) → uniqueFrom seen ss = ss.
Proof.
  intros Hnd. revert seen. induction Hnd as [|x ss Hx _ IH]; intros seen Hs.
  { done. }
  cbn [uniqueFrom]. rewrite bool_decide_eq_false_2.
  - f_equal. apply IH. intros s Hin. rewrite not_elem_of_cons.
    split; [by intros ->|]. apply Hs. by right.
  - apply Hs. by left.
Qed.

(** X8.  [unique] keeps the first occurrence of every string, in the
    order of the input: no string is listed twice, none is lost, none
    is added; a list without repetition comes back as it is. *)
Theorem unique_first_occurrences (ss : list string) :
  NoDup (unique ss)
  ∧ (∀ s, s ∈ unique ss ↔ s ∈ ss)
  ∧ unique ss `sublist_of` ss
  ∧ (NoDup ss → unique ss = ss)
  ∧ unique (unique ss) = unique ss.
Proof.
  destruct (uniqueFrom_spec [] ss) as (Hin & Hnd & Hsub).
  assert (∀ xs, NoDup xs → unique xs = xs) as Hfix.
  { intros xs Hxs. apply uniqueFrom_fixed; [done|].
    intros s _. apply not_elem_of_nil. }
  split; [done|]. split; [|split; [done|split; [apply Hfix|by apply Hfix]]].
  intros s. rewrite (Hin s). split; [tauto|]. intros H. split; [done|].
  apply not_elem_of_nil.
Qed.

Lemma inflectedForms_NoDup l lemma mn : NoDup (inflectedForms l lemma mn).
Proof.
  unfold inflectedForms. destruct lemma as [lp|]; [|constructor].
  destruct (Lemma.model (lemmaAt l lp)) as [mp|]; [|constructor].
  destruct (irregAt (lemmaAt l lp) mn) as [g excl].
  destruct excl.
  - case_bool_decide; [apply NoDup_singleton|constructor].
  - apply uniqueFrom_spec.
Qed.

(** X9.  The table of a lemma that has a model: it belongs to that
    lemma; it has a cell at a slot exactly when the model has endings
    for the slot and [inflectedForms] finds a form there; no cell is
    empty and no cell lists a form twice. *)
Theorem table_cells (l : Lemmatizer) (lp mp : ptr) :
  Lemma.model (lemmaAt l lp) = Some mp →
  ∃ t, inflectionTable l (Some lp) = Some t
       ∧ TableLemma t = lp
       ∧ (∀ mn forms,
            Cells t !! mn = Some forms ↔
            is_Some (Model.Desinences (modelAt l mp) !! mn)
            ∧ forms = inflectedForms l (Some lp) mn ∧ forms ≠ [])
       ∧ (∀ mn forms, Cells t !! mn = Some forms →
                      forms ≠ [] ∧ NoDup forms).
Proof.
  intros Hm. unfold inflectionTable. rewrite Hm.
  eexists. split; [done|]. split; [done|].
  assert (∀ mn forms,
            map_imap (λ mn _,
                        let forms := inflectedForms l (Some lp) mn in
                        if bool_decide (0 < length forms)%nat
                        then Some forms else None)
              (Model.Desinences (modelAt l mp)) !! mn = Some forms ↔
            is_Some (Model.Desinences (modelAt l mp) !! mn)
            ∧ forms = inflectedForms l (Some lp) mn ∧ forms ≠ []) as Hcell.
  { intros mn forms. rewrite map_lookup_imap.
    destruct (Model.Desinences (modelAt l mp) !! mn) as [ds|];
      cbn [mbind option_bind]; cbv zeta;
      generalize (inflectedForms l (Some lp) mn) as fs; intros fs.
    - case_bool_decide as Hlen.
      + split.
        * intros [= <-]. split; [by eexists|]. split; [done|].
          intros E. rewrite E in Hlen. simpl in Hlen. lia.
        * by intros (_ & -> & _).
      + split; [done|]. intros (_ & -> & Hne). destruct Hlen.
        destruct fs; [by destruct Hne|]. simpl. lia.
    - split; [done|]. by intros ([? ?] & _). }
  split; [exact Hcell|].
  cbn [Cells]. intros mn forms (_ & -> & Hne)%Hcell.
  split; [done|apply inflectedForms_NoDup].
Qed.

(** X10.  A slot whose first irregular, if any, is not exclusive: the
    irregular form, unless it is empty, heads the list, and every
    radical of the lemma joined to every ending of the model that asks
    for a radical of its number is listed.  A nil lemma and a lemma
    without model have no forms. *)
Theorem regular_forms_listed (l : Lemmatizer) (lp mp : ptr) (mn : Z)
    (g : string) :
  Lemma.model (lemmaAt l lp) = Some mp →
  irregAt (lemmaAt l lp) mn = (g, false) →
  (g ≠ EmptyString → head (inflectedForms l (Some lp) mn) = Some g)
  ∧ (∀ d rad, d ∈ DesinencesAt (modelAt l mp) mn →
              rad ∈ RadicalsAt (lemmaAt l lp) (Desinence.RadNum d) →
              Radical.Grq rad +:+ Desinence.Grq d
              ∈ inflectedForms l (Some lp) mn).
Proof.
  intros Hm Hirr. unfold inflectedForms. rewrite Hm, Hirr.
  split.
  - intros Hg. rewrite bool_decide_eq_true_2 by done.
    unfold unique. cbn [app uniqueFrom].
    by rewrite bool_decide_eq_false_2 by apply not_elem_of_nil.
  - intros d rad Hd Hrad.
    apply (proj1 (uniqueFrom_spec [] _)). split; [|apply not_elem_of_nil].
    apply elem_of_app. right.
    apply list_elem_of_bind. exists d. split; [|done].
    apply list_elem_of_bind. exists rad. split; [|done].
    by apply list_elem_of_singleton.
Qed.

Import Samples.

Lemma table_cells_witness :
  ∃ t, inflectionTable tiny (Some 1%positive) = Some t
       ∧ Cells t !! 3 = Some ["pŭēllām"].
Proof.
  destruct (table_cells tiny 1%positive 1%positive eq_refl)
    as (t & Ht & _ & Hcell & _).
  exists t. split; [exact Ht|]. apply Hcell.
  split; [by eexists|]. split; [reflexivity|done].
Defined.

Lemma regular_forms_listed_witness :
  "pŭēllām" ∈ inflectedForms tiny (Some 1%positive) 3.
Proof.
  apply (proj2 (regular_forms_listed tiny 1%positive 1%positive 3
                  EmptyString eq_refl eq_refl)
           (Desinence.mk "ām" "am" 3 1 (Some 1%positive)) puell).
  - apply list_elem_of_singleton. reflexivity.
  - apply list_elem_of_singleton. reflexivity.
Defined.

End InflectionMore.

(** ** What the matcher returns *)

Module ResultFacts.
Import GoStrings Normalize Lemmatize Notions MoreNotions StringFacts
  LemmatizeFacts TerminationFacts.

Lemma foldl_inv {A B} (P : A → Prop) (f : A → B → A) (xs : list B) (a : A) :
  P a → (∀ a x, x ∈ xs → P a → P (f a x)) → P (foldl f a xs).
Proof.
  revert a. induction xs as [|x xs IH]; intros a Ha Hf; [done|].
  simpl. apply IH.
  - apply Hf; [by left|done].
  - intros a' x' Hx'. apply Hf. by right.
Qed.

Lemma interp_bind {A B} rec (p : Prog A) (f : A → Prog B) :
  interp rec (p ≫= f) = interp rec p ≫= λ a, interp rec (f a).
Proof.
  induction p as [a|c k IH]; [done|].
  change (Invoke c k ≫= f) with (Invoke c (λ r, k r ≫= f)). simpl.
  destruct (rec c); [apply IH|done].
Qed.

Lemma interp_call_bind {B} rec c (f : GoMap → Prog B) :
  interp rec (call c ≫= f) = rec c ≫= λ r, interp rec (f r).
Proof. rewrite interp_bind. simpl. by destruct (rec c). Qed.

Lemma interp_invoke {A} rec c (k : GoMap → Prog A) :
  interp rec (Invoke c k) = rec c ≫= λ r, interp rec (k r).
Proof. simpl. by destruct (rec c). Qed.

Lemma lookup_appendAt (m : gmap ptr (list Analysis)) k xs lp :
  appendAt m k xs !! lp
  = if decide (k = lp) then Some (default [] (m !! k) ++ xs) else m !! lp.
Proof.
  unfold appendAt. destruct (decide (k = lp)) as [->|Hne].
  - by rewrite lookup_insert_eq.
  - by rewrite lookup_insert_ne.
Qed.

(** *** Properties that every entry has *)

Section Invariant.
Variable ToLower : string → string.
Variable IsUpper IsLower : Rune → bool.
Variable ToUpper : Rune → Rune.
Variable l : Lemmatizer.
Variable Q : ptr → list Analysis → Prop.

Hypothesis Q_app : ∀ lp xs ys, Q lp xs → Q lp ys → Q lp (xs ++ ys).
Hypothesis Q_drop : ∀ lp n xs, Q lp xs → Q lp (dropExtraI n <$> xs).
Hypothesis Q_irregular : ∀ k irrs irr mn,
  irregs l !! k = Some irrs → irr ∈ irrs → mn ∈ Irreg.Morphos irr →
  Q (Irreg.Lemma irr) [mkAnalysis (Irreg.Grq irr) (Morpho l mn) mn].
Hypothesis Q_regular : ∀ k rads rad de,
  radicals l !! k = Some rads → rad ∈ rads →
  compatible l rad de = true →
  Q (Radical.Lemma rad) [regularAnalysis l (rad, de)].

Local Abbreviation body := (body ToLower IsUpper IsLower ToUpper).
Local Abbreviation run := (run ToLower IsUpper IsLower ToUpper).
Local Abbreviation Returns := (Returns ToLower IsUpper IsLower ToUpper).

Lemma each_empty : Each Q ∅.
Proof. intros lp ans H. by rewrite lookup_empty in H. Qed.

Lemma each_appendAt m k xs : Each Q m → Q k xs → Each Q (appendAt m k xs).
Proof using Q_app.
  intros Hm Hxs lp ans. rewrite lookup_appendAt.
  destruct (decide (k = lp)) as [->|_]; [|apply Hm].
  intros [= <-]. destruct (m !! lp) as [ys|] eqn:E; simpl; [|done].
  apply Q_app; [by apply Hm|done].
Qed.

Lemma each_irregular form m : Each Q m → Each Q (irregular l form m).
Proof using Q_app Q_irregular.
  intros Hm. unfold irregular.
  destruct (irregs l !! form) as [irrs|] eqn:E; [|done].
  apply foldl_inv; [done|]. intros m1 irr Hirr Hm1.
  apply foldl_inv; [done|]. intros m2 mn Hmn Hm2.
  apply each_appendAt; [done|]. by eapply Q_irregular.
Qed.

Lemma accepted_in c rads des rad de :
  (rad, de) ∈ accepted ToLower l c rads des →
  rad ∈ rads ∧ de ∈ des ∧ compatible l rad de = true
  ∧ vowelOK ToLower c rad de = true.
Proof.
  unfold accepted. intros H.
  apply list_elem_of_bind in H as (rad' & H & Hrad).
  apply list_elem_of_bind in H as (de' & H & Hde).
  destruct (compatible l rad' de' && vowelOK _ _ rad' de') eqn:E;
    [|by apply elem_of_nil in H].
  apply list_elem_of_singleton in H as [= -> ->].
  by apply andb_true_iff in E as [? ?].
Qed.

Lemma each_regular c k rads des m :
  radicals l !! k = Some rads → Each Q m →
  Each Q (regular ToLower l c rads des m).
Proof using Q_app Q_regular.
  intros Hk Hm. unfold regular.
  apply foldl_inv; [done|]. intros m1 [rad de] Hp Hm1.
  apply accepted_in in Hp as (Hrad & _ & Hc & _).
  apply each_appendAt; [done|]. by eapply Q_regular.
Qed.

Lemma each_foldDoubleI n m nm :
  Each Q m → Each Q (entries nm) → Each Q (foldDoubleI n m nm).
Proof using Q_app Q_drop.
  intros Hm Hnm. unfold foldDoubleI.
  apply foldl_inv; [done|]. intros m1 [lp ans] He Hm1.
  apply elem_of_map_to_list in He.
  apply each_appendAt; [done|]. apply Q_drop. by apply Hnm.
Qed.

Lemma each_mergeInto mm src :
  Each Q (entries mm) → Each Q (entries src) →
  Each Q (entries (mergeInto mm src)).
Proof using Q_app.
  intros Hmm Hsrc. unfold mergeInto.
  apply (foldl_inv (λ mm, Each Q (entries mm))); [done|].
  intros m1 [lp ans] He Hm1. apply elem_of_map_to_list in He.
  cbn [entries]. apply each_appendAt; [done|]. by apply Hsrc.
Qed.

Section Step.
Variable rec : Call → option GoMap.
Hypothesis rec_each : ∀ c r, rec c = Some r → Each Q (entries r).

Lemma each_splitStep c rs i m m' :
  Each Q m → interp rec (splitStep ToLower l c rs i m) = Some m' →
  Each Q m'.
Proof using Q_app Q_drop Q_regular rec_each.
  intros Hm. unfold splitStep.
  destruct (radicals l !! stringOfRunes (take i rs)) as [rads|] eqn:Hr;
    [|by intros [= <-]].
  rewrite interp_bind.
  destruct (needDoubleI _ _).
  - rewrite interp_call_bind.
    destruct (rec _) as [nm|] eqn:Hnm; [|done]. cbn [mbind option_bind interp].
    assert (Each Q (foldDoubleI (length (runes (stringOfRunes (take i rs))))
                      m nm)) as Hm1
      by (apply each_foldDoubleI; [done|by eapply rec_each]).
    destruct (desinences l !! _); intros [= <-]; [|done].
    by eapply each_regular.
  - cbn [mbind option_bind interp].
    destruct (desinences l !! _); intros [= <-]; [|done].
    by eapply each_regular.
Qed.

Lemma each_splitLoop c rs idxs m m' :
  Each Q m → interp rec (splitLoop ToLower l c rs idxs m) = Some m' →
  Each Q m'.
Proof using Q_app Q_drop Q_regular rec_each.
  revert m. induction idxs as [|i idxs IH]; intros m Hm; simpl.
  { by intros [= <-]. }
  rewrite interp_bind.
  destruct (interp rec (splitStep ToLower l c rs i m)) as [m1|] eqn:E;
    [|done].
  cbn [mbind option_bind]. apply IH. by eapply each_splitStep.
Qed.

Lemma each_raw form r :
  interp rec (lemmatizeRaw ToLower l form) = Some r →
  Each Q (entries r).
Proof using Q_app Q_drop Q_irregular Q_regular rec_each.
  unfold lemmatizeRaw. rewrite interp_bind.
  destruct (interp rec (splitLoop _ _ _ _ _ _)) as [m|] eqn:E; [|done].
  intros [= <-]. cbn [entries].
  eapply each_splitLoop; [|exact E].
  apply each_irregular, each_empty.
Qed.

Lemma each_stripEnclitics form ss sufs mm r :
  Each Q (entries mm) →
  interp rec (stripEnclitics form ss sufs mm) = Some r →
  Each Q (entries r).
Proof using rec_each.
  revert mm. induction sufs as [|suf sufs IH]; intros mm Hmm; simpl.
  { by intros [= <-]. }
  destruct (lenMap mm >? 0); [by intros [= <-]|].
  destruct (HasSuffix form suf); [|by apply IH].
  rewrite interp_invoke.
  destruct (rec _) as [mm'|] eqn:E; [|done].
  cbn [mbind option_bind]. apply IH. by eapply rec_each.
Qed.

Ltac merged :=
  rewrite interp_call_bind;
  let E := fresh "E" in
  destruct (rec _) as [?|] eqn:E; [|done];
  cbn [mbind option_bind interp]; intros [= <-];
  apply each_mergeInto; [done|by eapply rec_each].

Lemma each_etape form ss e r :
  interp rec (lemmatizeMEtape ToLower IsUpper IsLower ToUpper l form ss e)
  = Some r →
  Each Q (entries r).
Proof using Q_app rec_each.
  unfold lemmatizeMEtape.
  case_bool_decide; [intros [= <-]; apply each_empty|].
  destruct (e >? 3).
  { rewrite interp_call_bind.
    destruct (rec _) as [mm|] eqn:Hmm; [|done].
    cbn [mbind option_bind]. apply rec_each in Hmm.
    destruct (_ && _); [merged|by intros [= <-]]. }
  rewrite interp_call_bind.
  destruct (rec _) as [mm|] eqn:Hmm; [|done].
  cbn [mbind option_bind]. apply rec_each in Hmm.
  destruct (e =? 3).
  { case_bool_decide; [merged|by intros [= <-]]. }
  destruct (e =? 2).
  { case_bool_decide; [merged|].
    case_bool_decide; [merged|by intros [= <-]]. }
  destruct (e =? 1).
  { destruct (lenMap mm =? 0); [|by intros [= <-]].
    by apply each_stripEnclitics. }
  destruct (e =? 0); [|by intros [= <-]].
  destruct (_ && _); [|by intros [= <-]].
  simpl. destruct (rec _) as [r'|] eqn:E; [|done].
  intros [= <-]. by eapply rec_each.
Qed.

End Step.

Lemma each_run depth c r : run l depth c = Some r → Each Q (entries r).
Proof using Q_app Q_drop Q_irregular Q_regular.
  revert c r. induction depth as [|depth IH]; intros c r; [done|].
  simpl. destruct c as [form|form ss e].
  - by apply each_raw.
  - by apply each_etape.
Qed.

Lemma each_Returns c r : Returns l c r → Each Q (entries r).
Proof using Q_app Q_drop Q_irregular Q_regular.
  intros [n Hn]. apply (each_run n c r). by apply Hn.
Qed.

End Invariant.

(** *** Results only grow *)

Global Instance Extends_refl : Reflexive Extends.
Proof. intros m lp ans H. exists []. by rewrite app_nil_r. Qed.

Global Instance Extends_trans : Transitive Extends.
Proof.
  intros m1 m2 m3 H12 H23 lp ans H.
  destruct (H12 _ _ H) as [more1 H1]. destruct (H23 _ _ H1) as [more2 H2].
  exists (more1 ++ more2). by rewrite app_assoc.
Qed.

Lemma extends_appendAt m k xs : Extends m (appendAt m k xs).
Proof.
  intros lp ans H. rewrite lookup_appendAt.
  destruct (decide (k = lp)) as [->|_].
  - exists xs. by rewrite H.
  - exists []. by rewrite app_nil_r.
Qed.

Lemma foldl_extends {B} (f : gmap ptr (list Analysis) → B → _) xs m :
  (∀ m x, Extends m (f m x)) → Extends m (foldl f m xs).
Proof.
  intros Hf. revert m. induction xs as [|x xs IH]; intros m; [done|].
  simpl. etransitivity; [apply Hf|apply IH].
Qed.

Lemma lists_extends m m' lp an : Lists m lp an → Extends m m' → Lists m' lp an.
Proof.
  intros (ans & H & Hin) Hext. destruct (Hext _ _ H) as [more Hm].
  exists (ans ++ more). split; [done|]. apply elem_of_app. by left.
Qed.

Lemma lists_appendAt m k xs an : an ∈ xs → Lists (appendAt m k xs) k an.
Proof.
  intros Hin. eexists. rewrite lookup_appendAt, decide_True by done.
  split; [done|]. apply elem_of_app. by right.
Qed.

Lemma foldl_lists {B} (f : gmap ptr (list Analysis) → B → _) xs x m k an :
  x ∈ xs → (∀ m y, Extends m (f m y)) → (∀ m, Lists (f m x) k an) →
  Lists (foldl f m xs) k an.
Proof.
  intros Hx Hf Hl. revert m. induction Hx as [x xs|x y xs _ IH]; intros m.
  - simpl. apply (lists_extends (f m x)); [apply Hl|by apply foldl_extends].
  - simpl. by apply IH.
Qed.

Lemma extends_irregular l form m : Extends m (irregular l form m).
Proof.
  unfold irregular. destruct (irregs l !! form); [|done].
  apply foldl_extends. intros m1 irr. apply foldl_extends.
  intros m2 mn. apply extends_appendAt.
Qed.

Lemma lists_irregular l form m irrs irr mn :
  irregs l !! form = Some irrs → irr ∈ irrs → mn ∈ Irreg.Morphos irr →
  Lists (irregular l form m) (Irreg.Lemma irr)
    (mkAnalysis (Irreg.Grq irr) (Morpho l mn) mn).
Proof.
  intros Hf Hirr Hmn. unfold irregular. rewrite Hf.
  apply (foldl_lists _ _ irr); [done| |].
  - intros m1 irr1. apply foldl_extends. intros m2 mn2.
    apply extends_appendAt.
  - intros m1. apply (foldl_lists _ _ mn); [done| |].
    + intros m2 mn2. apply extends_appendAt.
    + intros m2. apply lists_appendAt. by left.
Qed.

Lemma extends_foldDoubleI n m nm : Extends m (foldDoubleI n m nm).
Proof.
  apply foldl_extends. intros m1 e. apply extends_appendAt.
Qed.

Lemma extends_mergeInto mm src :
  Extends (entries mm) (entries (mergeInto mm src)).
Proof.
  unfold mergeInto. generalize (map_to_list (entries src)) as es.
  intros es. revert mm. induction es as [|e es IH]; intros mm; [done|].
  simpl. etransitivity; [|apply IH]. cbn [entries]. apply extends_appendAt.
Qed.

Section Unicode.
Variable ToLower : string → string.
Variable IsUpper IsLower : Rune → bool.
Variable ToUpper : Rune → Rune.

Local Abbreviation body := (body ToLower IsUpper IsLower ToUpper).
Local Abbreviation run := (run ToLower IsUpper IsLower ToUpper).
Local Abbreviation Returns := (Returns ToLower IsUpper IsLower ToUpper).

Lemma extends_regular l c rads des m :
  Extends m (regular ToLower l c rads des m).
Proof. apply foldl_extends. intros m1 p. apply extends_appendAt. Qed.

Lemma lists_regular l c rads des m rad de :
  (rad, de) ∈ accepted ToLower l c rads des →
  Lists (regular ToLower l c rads des m) (Radical.Lemma rad)
    (regularAnalysis l (rad, de)).
Proof.
  intros Hin. unfold regular. apply (foldl_lists _ _ (rad, de)); [done| |].
  - intros m1 p. apply extends_appendAt.
  - intros m1. apply lists_appendAt. by left.
Qed.

(** one turn of the split loop keeps what was found and adds the
    regular analyses of its split *)
Lemma splitStep_grows rec l c rs i m m' :
  interp rec (splitStep ToLower l c rs i m) = Some m' →
  Extends m m'
  ∧ ∀ rads des rad de,
      radicals l !! stringOfRunes (take i rs) = Some rads →
      desinences l !! stringOfRunes (drop i rs) = Some des →
      (rad, de) ∈ accepted ToLower l c rads des →
      Lists m' (Radical.Lemma rad) (regularAnalysis l (rad, de)).
Proof.
  unfold splitStep.
  destruct (radicals l !! stringOfRunes (take i rs)) as [rads|] eqn:Hr.
  2: { intros [= <-]. split; [done|]. by intros. }
  rewrite interp_bind.
  set (m1 := interp rec _).
  assert (∀ m0, m1 = Some m0 → Extends m m0) as Hm1.
  { subst m1. destruct (needDoubleI _ _).
    - rewrite interp_call_bind. destruct (rec _); [|done].
      intros m0 [= <-]. apply extends_foldDoubleI.
    - by intros m0 [= <-]. }
  destruct m1 as [m0|]; [|done]. specialize (Hm1 m0 eq_refl).
  cbn [mbind option_bind].
  destruct (desinences l !! stringOfRunes (drop i rs)) as [des|] eqn:Hd;
    intros [= <-].
  - split; [etransitivity; [done|apply extends_regular]|].
    intros rads' des' rad de [= <-] [= <-]. apply lists_regular.
  - split; [done|]. by intros.
Qed.

Lemma splitLoop_grows rec l c rs idxs m m' :
  interp rec (splitLoop ToLower l c rs idxs m) = Some m' →
  Extends m m'
  ∧ ∀ i rads des rad de,
      i ∈ idxs →
      radicals l !! stringOfRunes (take i rs) = Some rads →
      desinences l !! stringOfRunes (drop i rs) = Some des →
      (rad, de) ∈ accepted ToLower l c rads des →
      Lists m' (Radical.Lemma rad) (regularAnalysis l (rad, de)).
Proof.
  revert m. induction idxs as [|i idxs IH]; intros m; simpl.
  { intros [= <-]. split; [done|]. by intros ? ? ? ? ? ?%elem_of_nil. }
  rewrite interp_bind.
  destruct (interp rec (splitStep ToLower l c rs i m)) as [m1|] eqn:E;
    [|done].
  cbn [mbind option_bind]. intros H.
  apply splitStep_grows in E as [E1 E2]. apply IH in H as [H1 H2].
  split; [by etransitivity|].
  intros j rads des rad de [->|Hj]%elem_of_cons Hr Hd Hin.
  - eapply lists_extends; [by eapply E2|done].
  - by eapply H2.
Qed.

(** what the raw matcher lists, whatever its calls to itself add *)
Lemma raw_lists rec l form r :
  interp rec (lemmatizeRaw ToLower l form) = Some r →
  (∀ irrs irr mn,
     irregs l !! Deramise form = Some irrs → irr ∈ irrs →
     mn ∈ Irreg.Morphos irr →
     Lists (entries r) (Irreg.Lemma irr)
       (mkAnalysis (Irreg.Grq irr) (Morpho l mn) mn))
  ∧ (∀ (i : nat) rads des rad de,
       (i ≤ length (runes (Deramise form)))%nat →
       radicals l !! stringOfRunes (take i (runes (Deramise form)))
       = Some rads →
       desinences l !! stringOfRunes (drop i (runes (Deramise form)))
       = Some des →
       (rad, de) ∈ accepted ToLower l (countsOf ToLower form) rads des →
       Lists (entries r) (Radical.Lemma rad)
         (regularAnalysis l (rad, de))).
Proof.
  unfold lemmatizeRaw. rewrite interp_bind.
  destruct (interp rec (splitLoop _ _ _ _ _ _)) as [m|] eqn:E; [|done].
  intros [= <-]. cbn [entries].
  apply splitLoop_grows in E as [E1 E2]. split.
  - intros irrs irr mn Hf Hirr Hmn.
    eapply lists_extends; [by eapply lists_irregular|done].
  - intros i rads des rad de Hi Hr Hd Hin.
    eapply E2; [|done..]. apply elem_of_seq. lia.
Qed.

Lemma lenMap_zero mm : (lenMap mm =? 0) = true → entries mm = ∅.
Proof.
  unfold lenMap. intros H%Z.eqb_eq. apply map_size_empty_iff. lia.
Qed.

Lemma extends_from_empty m m' m'' : Extends m m' → m' = ∅ → Extends m m''.
Proof.
  intros H -> lp ans Hl. destruct (H _ _ Hl) as [more Hm].
  by rewrite lookup_empty in Hm.
Qed.

Ltac answer :=
  rewrite interp_call_bind;
  match goal with
  | |- (?x ≫= _) = Some _ → _ => destruct x as [?|] eqn:?; [|done]
  end;
  cbn [mbind option_bind interp].

Ltac merged IH :=
  answer; intros [= <-];
  etransitivity; [exact IH|apply extends_mergeInto].

(** every stage keeps what the raw matcher finds for the same form *)
Lemma cascade_extends l depth form ss e r :
  form ≠ EmptyString → run l depth (CallEtape form ss e) = Some r →
  ∃ n r0, run l n (CallRaw form) = Some r0
          ∧ Extends (entries r0) (entries r).
Proof.
  intros Hform. revert e r.
  induction depth as [|depth IH]; intros e r; [done|].
  simpl. unfold lemmatizeMEtape.
  rewrite bool_decide_eq_false_2 by done.
  destruct (e >? 3).
  { rewrite interp_call_bind.
    destruct (run l depth (CallRaw form)) as [mm|] eqn:Hmm; [|done].
    cbn [mbind option_bind]. intros H. exists depth, mm. split; [done|].
    revert H. destruct (_ && _); [|by intros [= <-]].
    answer. intros [= <-]. apply extends_mergeInto. }
  rewrite interp_call_bind.
  destruct (run l depth (CallEtape form ss (e + 1))) as [mm|] eqn:Hmm;
    [|done].
  cbn [mbind option_bind]. apply IH in Hmm as (n & r0 & Hr0 & Hext).
  intros H. exists n, r0. split; [done|]. revert H.
  destruct (e =? 3).
  { case_bool_decide; [merged Hext|by intros [= <-]]. }
  destruct (e =? 2).
  { case_bool_decide; [merged Hext|].
    case_bool_decide; [merged Hext|by intros [= <-]]. }
  destruct (e =? 1).
  { destruct (lenMap mm =? 0) eqn:Hlen; [|by intros [= <-]].
    intros _. eapply extends_from_empty; [done|by apply lenMap_zero]. }
  destruct (e =? 0); [|by intros [= <-]].
  destruct (lenMap mm =? 0) eqn:Hlen; [|by intros [= <-]].
  intros _. eapply extends_from_empty; [done|by apply lenMap_zero].
Qed.

Lemma Returns_unique l c r r' : Returns l c r → Returns l c r' → r = r'.
Proof.
  intros [n Hn] [n' Hn'].
  specialize (Hn (n `max` n')%nat ltac:(lia)).
  specialize (Hn' (n `max` n')%nat ltac:(lia)). congruence.
Qed.

Lemma word_extends_raw l form ss r0 r :
  form ≠ EmptyString → Returns l (CallRaw form) r0 →
  Returns l (LemmatizeWord form ss) r →
  Extends (entries r0) (entries r).
Proof.
  intros Hform H0 [n Hn].
  destruct (cascade_extends l n form ss 0 r Hform (Hn n ltac:(lia)))
    as (n' & r0' & Hr0' & Hext).
  apply run_Returns in Hr0'.
  by rewrite (Returns_unique _ _ _ _ H0 Hr0').
Qed.

Lemma dropExtraI_fields n an :
  MorphoDescription (dropExtraI n an) = MorphoDescription an
  ∧ MorphoIndex (dropExtraI n an) = MorphoIndex an.
Proof. unfold dropExtraI. by destruct (_ && _). Qed.

(** X11.  Whatever a call returns, every analysis in it carries the
    description that the table of the lemmatizer has for its slot. *)
Theorem analyses_described (l : Lemmatizer) (c : Call) (r : GoMap)
    (lp : ptr) (ans : list Analysis) (an : Analysis) :
  Returns l c r → entries r !! lp = Some ans → an ∈ ans →
  MorphoDescription an = Morpho l (MorphoIndex an).
Proof.
  intros Hr Hlp Han.
  pose proof (each_Returns ToLower IsUpper IsLower ToUpper l
                (λ _ ans, Forall (Described l) ans)) as H.
  assert (Forall (Described l) ans) as Hall; [|].
  { apply (H ltac:(intros; by apply Forall_app)) with (c := c) (r := r)
          (lp := lp); try done.
    - intros _ n xs Hxs. apply Forall_fmap.
      eapply Forall_impl; [exact Hxs|]. intros a Ha. unfold Described in *.
      simpl. destruct (dropExtraI_fields n a) as [-> ->]. exact Ha.
    - intros. by repeat constructor.
    - intros. by repeat constructor. }
  rewrite Forall_forall in Hall. by apply Hall.
Qed.

(** X12.  Whatever a call returns, no lemma in it has an empty list
    of analyses; so the result has length zero exactly when it lists
    no analysis. *)
Theorem no_empty_entry (l : Lemmatizer) (c : Call) (r : GoMap) :
  Returns l c r →
  (∀ lp ans, entries r !! lp = Some ans → ans ≠ [])
  ∧ (lenMap r = 0 ↔ ∀ lp an, ¬ Lists (entries r) lp an).
Proof.
  intros Hr.
  assert (∀ lp ans, entries r !! lp = Some ans → ans ≠ []) as Hne.
  { apply (each_Returns ToLower IsUpper IsLower ToUpper l
             (λ _ ans, ans ≠ [])) with (c := c); try done.
    - intros _ xs ys Hxs _ [E _]%app_eq_nil. done.
    - intros _ n xs Hxs E%fmap_nil_inv. done. }
  split; [exact Hne|]. unfold lenMap. split.
  - intros Hlen lp an (ans & Hans & _).
    assert (entries r = ∅) as E by (apply map_size_empty_iff; lia).
    by rewrite E, lookup_empty in Hans.
  - intros Hnone.
    assert (entries r = ∅) as ->; [|by rewrite map_size_empty].
    apply map_empty. intros lp.
    destruct (entries r !! lp) as [ans|] eqn:E; [|done].
    destruct ans as [|an ans]; [by destruct (Hne _ _ E)|].
    destruct (Hnone lp an). exists (an :: ans). split; [done|by left].
Qed.

(** X13.  Whatever a call returns, every lemma in it is the lemma of
    a radical or of an irregular form of the indexes; with both
    indexes empty the result is empty. *)
Theorem lemmas_are_indexed (l : Lemmatizer) (c : Call) (r : GoMap) :
  Returns l c r →
  (∀ lp, is_Some (entries r !! lp) → Indexed l lp)
  ∧ (radicals l = ∅ → irregs l = ∅ → entries r = ∅).
Proof.
  intros Hr.
  assert (∀ lp, is_Some (entries r !! lp) → Indexed l lp) as Hidx.
  { intros lp [ans Hans].
    apply (each_Returns ToLower IsUpper IsLower ToUpper l
             (λ lp _, Indexed l lp)) with (c := c) (r := r) (ans := ans);
      try done.
    - intros k irrs irr mn Hk Hirr _. right. by exists k, irrs, irr.
    - intros k rads rad de Hk Hrad _. left. by exists k, rads, rad. }
  split; [exact Hidx|]. intros Hrad Hirr. apply map_empty. intros lp.
  destruct (entries r !! lp) as [ans|] eqn:E; [|done].
  destruct (Hidx lp ltac:(by eexists))
    as [(k & x & _ & Hk & _)|(k & x & _ & Hk & _)].
  - by rewrite Hrad, lookup_empty in Hk.
  - by rewrite Hirr, lookup_empty in Hk.
Qed.

(** X14.  What the raw matcher finds for a form that is not empty is
    kept by [LemmatizeWord]: every lemma, with its analyses in the
    same order at the head of the list. *)
Theorem raw_results_kept (l : Lemmatizer) (form : string) (ss : bool) :
  form ≠ EmptyString →
  ∃ r0 r, Returns l (CallRaw form) r0
          ∧ Returns l (LemmatizeWord form ss) r
          ∧ Extends (entries r0) (entries r).
Proof.
  intros Hform.
  destruct (raw_returns ToLower IsUpper IsLower ToUpper l form)
    as [r0 H0].
  destruct (cascade_returns ToLower IsUpper IsLower ToUpper l form ss)
    as [r Hr].
  exists r0, r. split; [done|]. split; [done|].
  by eapply word_extends_raw.
Qed.

Lemma raw_Returns_lists l form r0 :
  Returns l (CallRaw form) r0 →
  ∃ n, interp (run l n) (lemmatizeRaw ToLower l form) = Some r0.
Proof. intros [n Hn]. exists n. apply (Hn (S n)). lia. Qed.

(** X15.  An irregular form is found: when the deramised form is a
    key of the index of irregular forms, [LemmatizeWord] lists, for
    every irregular stored there and every slot of it, the analysis
    with the marked form of the irregular under its lemma. *)
Theorem irregular_found (l : Lemmatizer) (form : string) (ss : bool)
    (irrs : list Irreg.t) (irr : Irreg.t) (mn : Z) :
  form ≠ EmptyString →
  irregs l !! Deramise form = Some irrs → irr ∈ irrs →
  mn ∈ Irreg.Morphos irr →
  ∃ r, Returns l (LemmatizeWord form ss) r
       ∧ Lists (entries r) (Irreg.Lemma irr)
           (mkAnalysis (Irreg.Grq irr) (Morpho l mn) mn).
Proof.
  intros Hform Hk Hirr Hmn.
  destruct (raw_returns ToLower IsUpper IsLower ToUpper l form)
    as [r0 H0].
  destruct (cascade_returns ToLower IsUpper IsLower ToUpper l form ss)
    as [r Hr].
  exists r. split; [done|].
  apply (lists_extends (entries r0)); [|by eapply word_extends_raw].
  destruct (raw_Returns_lists _ _ _ H0) as [n Hn].
  apply raw_lists in Hn as [Hn _]. by eapply Hn.
Qed.

(** X16.  A regular form is found: when the deramised form, cut
    between two runes, gives a key of the radical index and a key of
    the ending index, [LemmatizeWord] lists the analysis of every
    radical and ending stored there that pass the matcher's tests. *)
Theorem regular_found (l : Lemmatizer) (form : string) (ss : bool)
    (i : nat) (rads : list Radical.t) (des : list Desinence.t)
    (rad : Radical.t) (de : Desinence.t) :
  form ≠ EmptyString →
  (i ≤ length (runes (Deramise form)))%nat →
  radicals l !! stringOfRunes (take i (runes (Deramise form)))
  = Some rads →
  desinences l !! stringOfRunes (drop i (runes (Deramise form)))
  = Some des →
  (rad, de) ∈ accepted ToLower l (countsOf ToLower form) rads des →
  ∃ r, Returns l (LemmatizeWord form ss) r
       ∧ Lists (entries r) (Radical.Lemma rad)
           (mkAnalysis (Radical.Grq rad +:+ Desinence.Grq de)
              (Morpho l (Desinence.MorphoNum de))
              (Desinence.MorphoNum de)).
Proof.
  intros Hform Hi Hr Hd Hin.
  destruct (raw_returns ToLower IsUpper IsLower ToUpper l form)
    as [r0 H0].
  destruct (cascade_returns ToLower IsUpper IsLower ToUpper l form ss)
    as [r Hret].
  exists r. split; [done|].
  apply (lists_extends (entries r0)); [|by eapply word_extends_raw].
  destruct (raw_Returns_lists _ _ _ H0) as [n Hn].
  apply raw_lists in Hn as [_ Hn]. by eapply (Hn i rads des rad de).
Qed.

End Unicode.

Import Samples MoreSamples.

Lemma tiny_puellam :
  Returns toLowerASCII isUpperASCII isLowerASCII toUpperASCII tiny
    (LemmatizeWord "puellam" false) foundPuellam.
Proof.
  apply (run_Returns _ _ _ _ _ 6). vm_compute. reflexivity.
Defined.

Lemma analyses_described_witness :
  MorphoDescription (mkAnalysis "pŭēllām" "accusatif singulier" 3)
  = Morpho tiny 3.
Proof.
  apply (analyses_described toLowerASCII isUpperASCII isLowerASCII
           toUpperASCII tiny (LemmatizeWord "puellam" false) foundPuellam
           1%positive [mkAnalysis "pŭēllām" "accusatif singulier" 3]).
  - exact tiny_puellam.
  - reflexivity.
  - by left.
Defined.

Lemma no_empty_entry_witness :
  (∀ lp ans, entries foundPuellam !! lp = Some ans → ans ≠ [])
  ∧ (lenMap foundPuellam = 0 ↔ ∀ lp an, ¬ Lists (entries foundPuellam) lp an).
Proof.
  apply (no_empty_entry toLowerASCII isUpperASCII isLowerASCII
           toUpperASCII tiny (LemmatizeWord "puellam" false) foundPuellam).
  exact tiny_puellam.
Defined.

Lemma lemmas_are_indexed_witness : Indexed tiny 1%positive.
Proof.
  apply (lemmas_are_indexed toLowerASCII isUpperASCII isLowerASCII
           toUpperASCII tiny (LemmatizeWord "puellam" false) foundPuellam).
  - exact tiny_puellam.
  - by eexists.
Defined.

Lemma raw_results_kept_witness :
  ∃ r0 r, Returns toLowerASCII isUpperASCII isLowerASCII toUpperASCII tiny
            (CallRaw "puellam") r0
          ∧ Returns toLowerASCII isUpperASCII isLowerASCII toUpperASCII
              tiny (LemmatizeWord "puellam" true) r
          ∧ Extends (entries r0) (entries r).
Proof.
  apply (raw_results_kept toLowerASCII isUpperASCII isLowerASCII
           toUpperASCII tiny "puellam" true).
  discriminate.
Defined.

Lemma irregular_found_witness :
  ∃ r, Returns toLowerASCII isUpperASCII isLowerASCII toUpperASCII exclOnly
         (LemmatizeWord "domi" false) r
       ∧ Lists (entries r) 1%positive
           (mkAnalysis "dŏmī" "génitif singulier" 2).
Proof.
  apply (irregular_found toLowerASCII isUpperASCII isLowerASCII
           toUpperASCII exclOnly "domi" false [irrExcl] irrExcl 2).
  - discriminate.
  - reflexivity.
  - by left.
  - by left.
Defined.

Lemma regular_found_witness :
  ∃ r, Returns toLowerASCII isUpperASCII isLowerASCII toUpperASCII tiny
         (LemmatizeWord "puellam" false) r
       ∧ Lists (entries r) 1%positive
           (mkAnalysis "pŭēllām" "accusatif singulier" 3).
Proof.
  apply (regular_found toLowerASCII isUpperASCII isLowerASCII
           toUpperASCII tiny "puellam" false 5 [puell]
           [Desinence.mk "ām" "am" 3 1 (Some 1%positive)] puell
           (Desinence.mk "ām" "am" 3 1 (Some 1%positive))).
  - discriminate.
  - vm_compute. lia.
  - reflexivity.
  - reflexivity.
  - by left.
Defined.

End ResultFacts.

(** ** The tables of prefixes and endings, and the inserted i *)

Module RewriteFacts.
Import GoStrings Normalize Lemmatize Notions StringFacts Utf8Facts.

(** the three functions answer with the first pair of the table that
    fits *)
Lemma assimIn_find pairs a :
  assimIn pairs a
  = match List.find (λ p : string * string, HasPrefix a p.1) pairs with
    | Some p => p.2 +:+ strDrop (String.length p.1) a
    | None => a
    end.
Proof.
  induction pairs as [|[u v] pairs IH]; [done|]. simpl.
  by destruct (HasPrefix a u).
Qed.

Lemma desassimIn_find pairs a :
  desassimIn pairs a
  = match List.find (λ p : string * string, HasPrefix a p.2) pairs with
    | Some p => p.1 +:+ strDrop (String.length p.2) a
    | None => a
    end.
Proof.
  induction pairs as [|[u v] pairs IH]; [done|]. simpl.
  by destruct (HasPrefix a v).
Qed.

Lemma decontracteIn_find pairs d :
  decontracteIn pairs d
  = match List.find (λ p : string * string, HasSuffix d p.1) pairs with
    | Some p => strTake (String.length d - String.length p.1) d +:+ p.2
    | None => d
    end.
Proof.
  induction pairs as [|[u v] pairs IH]; [done|]. simpl.
  by destruct (HasSuffix d u).
Qed.

(** with at most one fitting element, the one found does not depend
    on the order *)
Lemma find_any_order {A} (test : A → bool) (xs ys : list A) :
  xs ≡ₚ ys →
  (∀ p q, p ∈ xs → q ∈ xs → test p = true → test q = true → p = q) →
  List.find test xs = List.find test ys.
Proof.
  intros Hperm Huniq.
  destruct (List.find test xs) as [p|] eqn:Hx;
    destruct (List.find test ys) as [q|] eqn:Hy; try done.
  - apply find_some in Hx as [Hp%list_elem_of_In Htp].
    apply find_some in Hy as [Hq%list_elem_of_In Htq].
    rewrite <- Hperm in Hq. f_equal. by apply Huniq.
  - apply find_some in Hx as [Hp%list_elem_of_In Htp].
    rewrite Hperm in Hp. apply list_elem_of_In in Hp.
    pose proof (find_none _ _ Hy _ Hp). congruence.
  - apply find_some in Hy as [Hq%list_elem_of_In Htq].
    rewrite <- Hperm in Hq. apply list_elem_of_In in Hq.
    pose proof (find_none _ _ Hx _ Hq). congruence.
Qed.

(** X18.  The tables are Go maps, walked in no fixed order.  When at
    most one entry of the table fits the word, the answer of [assim],
    of [desassim] and of [decontracte] is the same for every order of
    the walk. *)
Theorem table_order_irrelevant (l l' : Lemmatizer) (a : string) :
  assims l ≡ₚ assims l' → contractions l ≡ₚ contractions l' →
  ((∀ p q, p ∈ assims l → q ∈ assims l →
           HasPrefix a p.1 = true → HasPrefix a q.1 = true → p = q) →
   assim l a = assim l' a)
  ∧ ((∀ p q, p ∈ assims l → q ∈ assims l →
             HasPrefix a p.2 = true → HasPrefix a q.2 = true → p = q) →
     desassim l a = desassim l' a)
  ∧ ((∀ p q, p ∈ contractions l → q ∈ contractions l →
             HasSuffix a p.1 = true → HasSuffix a q.1 = true → p = q) →
     decontracte l a = decontracte l' a).
Proof.
  intros Ha Hc. unfold assim, desassim, decontracte.
  rewrite !assimIn_find, !desassimIn_find, !decontracteIn_find.
  split; [|split]; intros Huniq.
  - by rewrite (find_any_order _ _ _ Ha Huniq).
  - by rewrite (find_any_order _ _ _ Ha Huniq).
  - by rewrite (find_any_order _ _ _ Hc Huniq).
Qed.

(** X19.  When [assim] has rewritten a word and only one entry of the
    table has its assimilated prefix at the head of the result,
    [desassim] gives the word back. *)
Theorem desassim_undoes_assim (l : Lemmatizer) (a : string) :
  assim l a ≠ a →
  (∀ p q, p ∈ assims l → q ∈ assims l →
          HasPrefix (assim l a) p.2 = true →
          HasPrefix (assim l a) q.2 = true → p = q) →
  desassim l (assim l a) = a.
Proof.
  unfold assim, desassim. intros Hne Huniq.
  rewrite assimIn_find in Hne, Huniq |- *.
  destruct (List.find _ (assims l)) as [p|] eqn:Hp; [|done].
  apply find_some in Hp as [Hin%list_elem_of_In Hpre].
  apply HasPrefix_spec in Hpre as [rest Hrest].
  rewrite Hrest, strDrop_app in Huniq |- *.
  rewrite desassimIn_find.
  destruct (List.find _ (assims l)) as [q|] eqn:Hq.
  - apply find_some in Hq as [Hqin%list_elem_of_In Hqpre].
    rewrite (Huniq q p Hqin Hin Hqpre (HasPrefix_app _ _)).
    by rewrite strDrop_app.
  - apply list_elem_of_In in Hin.
    pose proof (find_none _ _ Hq _ Hin) as Hno. simpl in Hno.
    by rewrite HasPrefix_app in Hno.
Qed.

(** X17.  Taking the inserted letter out again: with [rLen] between 1
    and the number of runes of the form, [dropExtraI] deletes the rune
    at index [rLen - 1] and nothing else; with any other [rLen] it
    leaves the analysis as it is.  The slot and its description are
    never touched. *)
Theorem dropExtraI_deletes_rune (rLen : nat) (an : Analysis) :
  let grq := runes (FormWithMarks an) in
  ((0 < rLen ≤ length grq)%nat →
   runes (FormWithMarks (dropExtraI rLen an)) = delete (rLen - 1)%nat grq)
  ∧ (rLen = 0%nat ∨ (length grq < rLen)%nat → dropExtraI rLen an = an)
  ∧ MorphoDescription (dropExtraI rLen an) = MorphoDescription an
  ∧ MorphoIndex (dropExtraI rLen an) = MorphoIndex an.
Proof.
  intros grq. unfold dropExtraI. fold grq. split; [|split].
  - intros [Hpos Hle].
    rewrite !bool_decide_eq_true_2 by lia. cbn [andb FormWithMarks].
    rewrite <- stringOfRunes_app, runes_stringOfRunes.
    + rewrite delete_take_drop. do 2 f_equal. lia.
    + apply Forall_app. split.
      * apply Forall_take, runes_valid.
      * apply Forall_drop, runes_valid.
  - intros [->|Hlt]; [done|].
    rewrite (bool_decide_eq_false_2 (_ - _ < _)%nat) by lia.
    by rewrite andb_false_r.
  - by destruct (_ && _).
Qed.

Import Samples MoreSamples.

Lemma table_order_irrelevant_witness :
  assim twoAssims "adfero" = assim twoAssimsSwapped "adfero".
Proof.
  apply (table_order_irrelevant twoAssims twoAssimsSwapped "adfero").
  - apply perm_swap.
  - reflexivity.
  - intros p q Hp Hq.
    repeat (apply elem_of_cons in Hp as [->|Hp]);
      repeat (apply elem_of_cons in Hq as [->|Hq]);
      try (by apply elem_of_nil in Hp); try (by apply elem_of_nil in Hq);
      done.
Defined.

Lemma desassim_undoes_assim_witness :
  desassim twoAssims (assim twoAssims "adfero") = "adfero".
Proof.
  apply (desassim_undoes_assim twoAssims "adfero").
  - discriminate.
  - intros p q Hp Hq.
    repeat (apply elem_of_cons in Hp as [->|Hp]);
      repeat (apply elem_of_cons in Hq as [->|Hq]);
      try (by apply elem_of_nil in Hp); try (by apply elem_of_nil in Hq);
      done.
Defined.

Lemma dropExtraI_deletes_rune_witness :
  runes (FormWithMarks (dropExtraI 3 (mkAnalysis "fīlĭī" EmptyString 2)))
  = ["f"; "ī"; "ĭ"; "ī"].
Proof.
  apply (dropExtraI_deletes_rune 3 (mkAnalysis "fīlĭī" EmptyString 2)).
  vm_compute. lia.
Defined.

End RewriteFacts.

(** ** lemma.go, further: irregular forms, translations, homonym digits *)

Module LemmaFacts.
Import GoStrings Notions LemmaGo StringFacts Utf8Facts IrregularFacts.

Lemma irregAtIn_app (xs ys : list Irreg.t) (i : Z) :
  irregAtIn (xs ++ ys) i
  = if bool_decide (Exists (λ ir, i ∈ Irreg.Morphos ir) xs)
    then irregAtIn xs i else irregAtIn ys i.
Proof.
  induction xs as [|x xs IH]; cbn [app irregAtIn].
  { rewrite bool_decide_eq_false_2; [done|]. by intros H%Exists_nil. }
  destruct (containsZ (Irreg.Morphos x) i) eqn:E.
  - apply containsZ_spec in E.
    rewrite bool_decide_eq_true_2; [done|]. by left.
  - apply containsZ_false in E. rewrite IH.
    repeat case_bool_decide; try done.
    + destruct H0. by right.
    + apply Exists_cons in H0 as [?|?]; done.
Qed.

(** X21.  [irregAt] answers with the first irregular form, in the
    order of loading, that covers the slot: a form added later does not
    change the answer for a slot that is covered already, it gives the
    answer for the slots of its own that were not covered, and a slot
    that no form covers gets the empty string and [false]. *)
Theorem irregAt_first_loaded (lem : Lemma.t) (irr : Irreg.t) (i : Z) :
  (Exists (λ ir, i ∈ Irreg.Morphos ir) (Lemma.irregs lem) →
   irregAt (addIrreg lem irr) i = irregAt lem i)
  ∧ (Forall (λ ir, i ∉ Irreg.Morphos ir) (Lemma.irregs lem) →
     irregAt lem i = (EmptyString, false)
     ∧ (i ∈ Irreg.Morphos irr →
        irregAt (addIrreg lem irr) i = (Irreg.Grq irr, Irreg.Exclusive irr))
     ∧ (i ∉ Irreg.Morphos irr →
        irregAt (addIrreg lem irr) i = (EmptyString, false))).
Proof.
  unfold irregAt. cbn [addIrreg Lemma.irregs]. rewrite irregAtIn_app.
  split.
  - intros H. by rewrite bool_decide_eq_true_2.
  - intros H.
    assert (¬ Exists (λ ir, i ∈ Irreg.Morphos ir) (Lemma.irregs lem)) as Hn.
    { rewrite Exists_exists. intros (ir & Hin & Hi).
      rewrite Forall_forall in H. by apply (H ir). }
    rewrite bool_decide_eq_false_2 by done.
    split; [|split].
    + clear Hn. induction H as [|ir irs Hir _ IH]; [done|]. simpl.
      apply containsZ_false in Hir. by rewrite Hir.
    + intros Hi%containsZ_spec. simpl. by rewrite Hi.
    + intros Hi%containsZ_false. simpl. by rewrite Hi.
Qed.

Lemma loaded_mask_slots (lem : Lemma.t) :
  Loaded lem →
  ∀ s, s ∈ Lemma.morphosIrregExcl lem ↔
       ∃ irr, irr ∈ Lemma.irregs lem ∧ Irreg.Exclusive irr = true
              ∧ s ∈ Irreg.Morphos irr.
Proof.
  induction 1 as [lem Hirr Hmask|lem irr0 _ IH]; intros s.
  - rewrite Hirr, Hmask. split.
    + by intros ?%elem_of_nil.
    + by intros (? & ?%elem_of_nil & _).
  - cbn [addIrreg Lemma.irregs Lemma.morphosIrregExcl]. split.
    + intros Hs.
      assert (s ∈ Lemma.morphosIrregExcl lem
              ∨ (Irreg.Exclusive irr0 = true ∧ s ∈ Irreg.Morphos irr0))
        as [Hold|[Hex Hnew]].
      { destruct (Irreg.Exclusive irr0); [|by left].
        apply elem_of_app in Hs as [?|?]; [by left|by right]. }
      * apply IH in Hold as (irr & Hin & Hex & Hm). exists irr.
        split; [apply elem_of_app; by left|done].
      * exists irr0. split; [|done]. apply elem_of_app. right. by left.
    + intros (irr & Hin & Hex & Hm).
      apply elem_of_app in Hin as [Hin|Hin].
      * assert (s ∈ Lemma.morphosIrregExcl lem) as Hold
          by (apply IH; by exists irr).
        destruct (Irreg.Exclusive irr0); [|done].
        apply elem_of_app. by left.
      * apply list_elem_of_singleton in Hin as ->. rewrite Hex.
        apply elem_of_app. by right.
Qed.

(** X20.  The mask of a lemma, kept by [addIrreg] from the lemma's
    creation on, holds the slots of the lemma's exclusive irregular
    forms and no other: [isExclusiveIrreg] answers [true] for a slot
    exactly when an exclusive irregular form of the lemma covers it. *)
Theorem mask_is_exclusive_slots (lem : Lemma.t) (s : Z) :
  Loaded lem →
  (isExclusiveIrreg lem s = true ↔
   ∃ irr, irr ∈ Lemma.irregs lem ∧ Irreg.Exclusive irr = true
          ∧ s ∈ Irreg.Morphos irr).
Proof.
  intros H. unfold isExclusiveIrreg.
  rewrite containsZ_spec. by apply loaded_mask_slots.
Qed.

(** X22.  Translations: what [AddTranslation] stores under a language
    is what [Translation] gives back for it; the other languages keep
    their translations; a language without translation gets the French
    one, and the empty string when there is none. *)
Theorem translation_round_trip (lem : Lemma.t) (lang text : string) :
  Translation (AddTranslation lem lang text) lang = text
  ∧ (∀ other, other ≠ lang →
              is_Some (Lemma.translations lem !! other) →
              Translation (AddTranslation lem lang text) other
              = Translation lem other)
  ∧ (∀ other, Lemma.translations lem !! other = None →
              Translation lem other = Translation lem "fr")
  ∧ (∀ other, Lemma.translations lem !! other = None →
              Lemma.translations lem !! "fr" = None →
              Translation lem other = EmptyString).
Proof.
  unfold Translation. cbn [AddTranslation Lemma.translations].
  split; [by rewrite lookup_insert_eq|]. split; [|split].
  - intros other Hne [t Ht]. by rewrite lookup_insert_ne, Ht by done.
  - intros other Hnone. rewrite Hnone.
    by destruct (Lemma.translations lem !! "fr").
  - intros other Hnone Hfr. by rewrite Hnone, Hfr.
Qed.

Section GoLibrary.
Variable IsDigit : Rune → bool.
Variable Atoi : string → Z.

(** X23.  [oteNh] never answers a negative number.  With the number
    zero the form comes back as it is, also when it ends in a digit
    that reads as zero.  With a positive number the form has lost
    its last rune and nothing else, that rune is a digit, and the
    number is what the digit reads as. *)
Theorem oteNh_strips_one_digit (g : string) :
  0 ≤ (oteNh IsDigit Atoi g).2
  ∧ ((oteNh IsDigit Atoi g).2 = 0 → (oteNh IsDigit Atoi g).1 = g)
  ∧ (0 < (oteNh IsDigit Atoi g).2 →
     ∃ d, runes g = runes (oteNh IsDigit Atoi g).1 ++ [d]
          ∧ IsDigit d = true ∧ Atoi d = (oteNh IsDigit Atoi g).2).
Proof.
  unfold oteNh. case_bool_decide as Hg; [simpl; split; [lia|]; split; [done|lia]|].
  set (rs := runes g).
  destruct (IsDigit (default RuneError (rs !! (length rs - 1)%nat)))
    eqn:Hd; [|simpl; split; [lia|]; split; [done|lia]].
  destruct (Z.gtb_spec
              (Atoi (default RuneError (rs !! (length rs - 1)%nat))) 0)
    as [Hpos|Hneg]; [|simpl; split; [lia|]; split; [done|lia]].
  cbn [fst snd]. split; [lia|]. split; [lia|]. intros _.
  assert (rs ≠ []) as Hrs.
  { subst rs. destruct g as [|c t]; [done|]. unfold runes.
    cbn [runesFrom]. by destruct (decodeRune (String c t)). }
  destruct (exists_last Hrs) as (front & d & Hfd).
  assert (rs !! (length rs - 1)%nat = Some d) as Hlast.
  { rewrite Hfd, length_app. simpl.
    replace (length front + 1 - 1)%nat with (length front) by lia.
    by rewrite list_lookup_middle. }
  assert (take (length rs - 1) rs = front) as Htake.
  { rewrite Hfd, length_app. simpl.
    replace (length front + 1 - 1)%nat with (length front) by lia.
    by rewrite take_app_length. }
  rewrite Hlast in *. simpl in *. exists d. rewrite Htake.
  rewrite runes_stringOfRunes; [done|].
  pose proof (runes_valid g) as Hv. fold rs in Hv. rewrite Hfd in Hv.
  by apply Forall_app in Hv as [? _].
Qed.

End GoLibrary.

Import Samples.

Lemma mask_is_exclusive_slots_witness :
  isExclusiveIrreg (addIrreg (addIrreg dominus irrPlain) irrExcl) 2 = true.
Proof.
  apply (mask_is_exclusive_slots
           (addIrreg (addIrreg dominus irrPlain) irrExcl) 2).
  - apply loaded_add, loaded_add, loaded_new; reflexivity.
  - exists irrExcl. split; [|split; [reflexivity|by left]].
    cbn [addIrreg Lemma.irregs]. apply elem_of_app. right. by left.
Defined.

End LemmaFacts.

(** ** The compiler of models, further *)

Module CompilerFacts.
Import GoStrings Normalize Loader Notions MoreNotions StringFacts
  ModelFacts ResultFacts.

Lemma lookup_appendAt_gen `{Countable K} {A} (m : gmap K (list A)) k xs k' :
  appendAt m k xs !! k'
  = if decide (k = k') then Some (default [] (m !! k) ++ xs) else m !! k'.
Proof.
  unfold appendAt. destruct (decide (k = k')) as [->|Hne].
  - by rewrite lookup_insert_eq.
  - by rewrite lookup_insert_ne.
Qed.

Lemma elem_of_appendAt `{Countable K} {A} (m : gmap K (list A)) k xs k' ys y :
  appendAt m k xs !! k' = Some ys → y ∈ ys →
  (∃ zs, m !! k' = Some zs ∧ y ∈ zs) ∨ (k' = k ∧ y ∈ xs).
Proof.
  rewrite lookup_appendAt_gen. destruct (decide (k = k')) as [->|Hne].
  - intros [= <-] [Hy|Hy]%elem_of_app; [|by right].
    left. destruct (m !! k') as [zs|]; [by exists zs|].
    by apply elem_of_nil in Hy.
  - intros Hm Hy. left. by exists ys.
Qed.

Lemma elem_of_concat {A} (ls : list (list A)) (x : A) :
  x ∈ concat ls ↔ ∃ l, l ∈ ls ∧ x ∈ l.
Proof.
  induction ls as [|l ls IH]; simpl.
  - split; [by intros ?%elem_of_nil|by intros (? & ?%elem_of_nil & _)].
  - rewrite elem_of_app, IH. split.
    + intros [Hx|(l' & Hl' & Hx)].
      * exists l. split; [by left|done].
      * exists l'. split; [by right|done].
    + intros (l' & [->|Hl']%elem_of_cons & Hx); [by left|].
      right. by exists l'.
Qed.

(** *** Every ending in its place *)

Lemma install_sound self st mn d :
  StateSound self st → Filed self mn d → StateSound self (install st mn d).
Proof.
  intros [[Hidx Hheap] Hm] Hd. split; [split|].
  - intros k ds d' Hk Hd'. cbn [install psL addDesinence desinences] in Hk.
    destruct (elem_of_appendAt _ _ _ _ _ _ Hk Hd') as [(zs & Hz & Hin)|[-> Hin]].
    + by eapply Hidx.
    + apply list_elem_of_singleton in Hin as ->. split; [done|apply Hd].
  - exact Hheap.
  - intros mn' ds d' Hk Hd'.
    cbn [install psM pushDesinence Model.Desinences] in Hk.
    destruct (elem_of_appendAt _ _ _ _ _ _ Hk Hd') as [(zs & Hz & Hin)|[-> Hin]].
    + by eapply Hm.
    + by apply list_elem_of_singleton in Hin as ->.
Qed.

Lemma withModel_sound self st m :
  Model.Desinences m = Model.Desinences (psM st) →
  StateSound self st → StateSound self (withModel st m).
Proof.
  intros Hm [Hl Hs]. split; [done|]. unfold ModelSound. cbn [withModel psM].
  by rewrite Hm.
Qed.

(** the endings of the parent are filed in the parent *)
Lemma parent_sound self st pm :
  StateSound self st → parentModel st = Some pm → ∃ q, ModelSound q pm.
Proof.
  intros [[_ Hheap] _]. unfold parentModel.
  destruct (Model.parent (psM st)) as [q|]; [|done]. intros [= <-].
  exists q. unfold modelAt.
  destruct (modelHeap (psL st) !! q) as [m|] eqn:E; [by eapply Hheap|].
  intros mn ds d Hk. cbn [default zeroModel Model.Desinences] in Hk.
  by rewrite lookup_empty in Hk.
Qed.

Lemma clone_filed q self mn dp :
  Filed q mn dp → Filed self mn (cloneDesinence dp (Some self)).
Proof. intros (? & ? & _). by repeat split. Qed.

Lemma DesinencesAt_in m mn d :
  d ∈ DesinencesAt m mn → ∃ ds, Model.Desinences m !! mn = Some ds ∧ d ∈ ds.
Proof.
  unfold DesinencesAt. destruct (Model.Desinences m !! mn) as [ds|].
  - intros Hd. by exists ds.
  - by intros ?%elem_of_nil.
Qed.

Section GoLibrary.
Variable TrimSpace : string → string.
Variable Atoi : string → Z.

Lemma desDirective_sound self plus st f1 f2 f3 :
  StateSound self st →
  StateSound self (desDirective TrimSpace Atoi self plus st f1 f2 f3).
Proof.
  intros Hst. unfold desDirective.
  set (s := foldl _ st (imap pair _)).
  assert (StateSound self s) as Hs.
  { apply foldl_inv; [done|]. intros st1 [i mn] _ Hst1.
    apply foldl_inv; [done|]. intros st2 g _ Hst2.
    by apply install_sound. }
  clearbody s. destruct plus; [|done].
  destruct (parentModel s) as [pm|] eqn:Hpm; [|done].
  destruct (parent_sound _ _ _ Hs Hpm) as [q Hq].
  apply foldl_inv; [done|]. intros st1 mn _ Hst1.
  apply foldl_inv; [done|]. intros st2 dp Hdp Hst2.
  apply DesinencesAt_in in Hdp as (ds & Hds & Hdp).
  apply install_sound; [done|]. eapply clone_filed. by eapply Hq.
Qed.

Lemma sufdDirective_sound self st suf :
  StateSound self st → StateSound self (sufdDirective self st suf).
Proof.
  intros Hst. unfold sufdDirective. destruct (parentModel st); [|done].
  apply foldl_inv; [done|]. intros st1 dp _ Hst1.
  destruct (isAbsent _ _); [done|]. by apply install_sound.
Qed.

Lemma directive_sound self st eclats :
  StateSound self st →
  StateSound self (directive TrimSpace Atoi self st eclats).
Proof.
  intros Hst. unfold directive. destruct eclats as [|e0 args]; [done|].
  repeat (match goal with
          | |- StateSound _ (if ?b then _ else _) => destruct b
          | |- StateSound _ (match ?a with _ => _ end) => destruct a
          end; try done);
    first [by apply desDirective_sound
          |by apply sufdDirective_sound
          |by apply withModel_sound].
Qed.

Lemma directives_sound fuel self lines st st' :
  StateSound self st →
  directives TrimSpace Atoi fuel self st lines = Some st' →
  StateSound self st'.
Proof.
  revert st. induction lines as [|line rest IH]; intros st Hst; simpl.
  { by intros [= <-]. }
  destruct (substituteVars _ _ _) as [line'|]; [|done].
  apply IH. by apply directive_sound.
Qed.

Lemma inherit_sound self st :
  StateSound self st → StateSound self (inherit self st).
Proof.
  intros Hst. unfold inherit.
  set (st1 := match parentModel st with Some _ => _ | None => st end).
  assert (StateSound self st1) as H1.
  { subst st1. destruct (parentModel st); [|done].
    destruct (_ =? _); [|done]. by apply withModel_sound. }
  clearbody st1. destruct (parentModel st1) as [pm|] eqn:Hpm; [|done].
  destruct (parent_sound _ _ _ H1 Hpm) as [q Hq].
  apply withModel_sound; [done|].
  apply foldl_inv.
  - apply foldl_inv; [done|]. intros st2 [mn parentDes] He Hst2.
    apply elem_of_map_to_list in He.
    destruct (hasDesinence _ _); [done|].
    apply foldl_inv; [done|]. intros st3 dp Hdp Hst3.
    destruct (isAbsent _ _); [done|].
    apply install_sound; [done|]. eapply clone_filed. by eapply Hq.
  - intros st2 d _ Hst2. destruct (_ !! _); [done|].
    destruct (_ !! _); [|done]. by apply withModel_sound.
Qed.

Lemma applySuffixes_sound self st :
  StateSound self st → StateSound self (applySuffixes self st).
Proof.
  intros Hst. unfold applySuffixes.
  apply foldl_inv; [done|]. intros st1 d Hd Hst1.
  apply install_sound; [done|].
  apply elem_of_concat in Hd as (ds & Hds & Hd).
  apply list_elem_of_fmap in Hds as (se & -> & _).
  apply list_elem_of_fmap in Hd as (d0 & -> & _). by repeat split.
Qed.

(** X24.  Compiling a block keeps the stores of endings in order.
    When every model stored so far has each of its endings in the
    slot the ending names, with its unmarked form and itself as
    owner, and the index has each ending under the deramised unmarked
    form, then the same holds afterwards, the new model and the
    endings it inherits, suffixes or copies included. *)
Theorem parseModel_sound (fuel : nat) (self : ptr) (l : Lemmatizer)
    (lines : list string) (l' : Lemmatizer) (p : option ptr) :
  Sound l →
  parseModel TrimSpace Atoi fuel self l lines = Some (l', p) →
  Sound l' ∧ ModelSound self (modelAt l' self).
Proof.
  intros Hl. unfold parseModel.
  destruct (directives _ _ _ _ _ _) as [st|] eqn:Hd; [|done].
  intros [= <- <-].
  assert (StateSound self (applySuffixes self (inherit self st)))
    as [[Hidx Hheap] Hm].
  { apply applySuffixes_sound, inherit_sound.
    eapply directives_sound; [|exact Hd]. split; [done|].
    intros mn ds d Hk. cbn [psM newModel Model.Desinences] in Hk.
    by rewrite lookup_empty in Hk. }
  assert (∀ q m, <[self := psM (applySuffixes self (inherit self st))]>
                   (modelHeap (psL (applySuffixes self (inherit self st))))
                 !! q = Some m → ModelSound q m) as Hheap'.
  { intros q m. destruct (decide (q = self)) as [->|Hne].
    - rewrite lookup_insert_eq. by intros [= <-].
    - rewrite lookup_insert_ne by done. apply Hheap. }
  split; [split; [exact Hidx|exact Hheap']|].
  apply Hheap'. unfold modelAt. cbn [modelHeap].
  by rewrite lookup_insert_eq.
Qed.

(** *** What the compiler leaves alone *)

Section Stable.
(** a property of the compiler's state that no step can spoil *)
Variable P : ParseState → Prop.
Hypothesis P_install : ∀ st mn d, P st → P (install st mn d).
Hypothesis P_model : ∀ st m, P st → P (withModel st m).
Hypothesis P_suf : ∀ st suf, P st → P (mkParseState (psL st) (psM st) suf).

Lemma desDirective_stable self plus st f1 f2 f3 :
  P st → P (desDirective TrimSpace Atoi self plus st f1 f2 f3).
Proof using P_install.
  intros Hst. unfold desDirective.
  set (s := foldl _ st (imap pair _)).
  assert (P s) as Hs.
  { apply foldl_inv; [done|]. intros st1 [i mn] _ Hst1.
    apply foldl_inv; [done|]. intros st2 g _ Hst2. by apply P_install. }
  clearbody s. destruct plus; [|done].
  destruct (parentModel s) as [pm|]; [|done].
  apply foldl_inv; [done|]. intros st1 mn _ Hst1.
  apply foldl_inv; [done|]. intros st2 dp _ Hst2. by apply P_install.
Qed.

Lemma sufdDirective_stable self st suf :
  P st → P (sufdDirective self st suf).
Proof using P_install.
  intros Hst. unfold sufdDirective. destruct (parentModel st); [|done].
  apply foldl_inv; [done|]. intros st1 dp _ Hst1.
  destruct (isAbsent _ _); [done|]. by apply P_install.
Qed.

Lemma directive_stable self st eclats :
  P st → P (directive TrimSpace Atoi self st eclats).
Proof using P_install P_model P_suf.
  intros Hst. unfold directive. destruct eclats as [|e0 args]; [done|].
  repeat (match goal with
          | |- P (if ?b then _ else _) => destruct b
          | |- P (match ?a with _ => _ end) => destruct a
          end; try done);
    first [by apply desDirective_stable
          |by apply sufdDirective_stable
          |by apply P_model
          |by apply P_suf].
Qed.

Lemma directives_stable fuel self lines st st' :
  P st → directives TrimSpace Atoi fuel self st lines = Some st' → P st'.
Proof using P_install P_model P_suf.
  revert st. induction lines as [|line rest IH]; intros st Hst; simpl.
  { by intros [= <-]. }
  destruct (substituteVars _ _ _) as [line'|]; [|done].
  apply IH. by apply directive_stable.
Qed.

Lemma inherit_stable self st : P st → P (inherit self st).
Proof using P_install P_model.
  intros Hst. unfold inherit.
  set (st1 := match parentModel st with Some _ => _ | None => st end).
  assert (P st1) as H1.
  { subst st1. destruct (parentModel st); [|done].
    destruct (_ =? _); [|done]. by apply P_model. }
  clearbody st1. destruct (parentModel st1) as [pm|]; [|done].
  apply P_model. apply foldl_inv.
  - apply foldl_inv; [done|]. intros st2 [mn parentDes] _ Hst2.
    destruct (hasDesinence _ _); [done|].
    apply foldl_inv; [done|]. intros st3 dp _ Hst3.
    destruct (isAbsent _ _); [done|]. by apply P_install.
  - intros st2 d _ Hst2. destruct (_ !! _); [done|].
    destruct (_ !! _); [|done]. by apply P_model.
Qed.

Lemma applySuffixes_stable self st : P st → P (applySuffixes self st).
Proof using P_install.
  intros Hst. unfold applySuffixes.
  apply foldl_inv; [done|]. intros st1 d _ Hst1. by apply P_install.
Qed.

End Stable.

Lemma adds_refl self l : OnlyAddsEndings self l l.
Proof.
  repeat split; try done. intros k ds Hk. exists []. by rewrite app_nil_r.
Qed.

Lemma adds_addDesinence self l l1 d :
  OnlyAddsEndings self l l1 → OnlyAddsEndings self l (addDesinence l1 d).
Proof.
  intros (?&?&?&?&?&?&?&?&?&?&?&Hidx). repeat split; try done.
  intros k ds Hk. destruct (Hidx k ds Hk) as [more Hmore].
  cbn [addDesinence desinences]. rewrite lookup_appendAt_gen.
  destruct (decide (_ = k)) as [->|_]; [|by exists more].
  rewrite Hmore. simpl. exists (more ++ [d]). by rewrite app_assoc.
Qed.

(** X25.  Compiling a block touches nothing but the index of endings
    and the model it makes: the table of descriptions, the models by
    name, the lemmas, the other indexes and the other models are as
    before, and every list of the index of endings has kept its old
    elements in front.  The pointer given back is nil exactly when
    the block gave the model no name, and is the new model otherwise;
    the endings of a nameless block stay in the index all the same. *)
Theorem parseModel_only_adds (fuel : nat) (self : ptr) (l : Lemmatizer)
    (lines : list string) (l' : Lemmatizer) (p : option ptr) :
  parseModel TrimSpace Atoi fuel self l lines = Some (l', p) →
  OnlyAddsEndings self l l'
  ∧ (Model.Name (modelAt l' self) = EmptyString → p = None)
  ∧ (Model.Name (modelAt l' self) ≠ EmptyString → p = Some self).
Proof.
  unfold parseModel.
  destruct (directives _ _ _ _ _ _) as [st|] eqn:Hd; [|done].
  intros [= <- <-].
  set (st' := applySuffixes self (inherit self st)).
  assert (OnlyAddsEndings self l (psL st')) as Hadds.
  { subst st'.
    apply (applySuffixes_stable
             (λ s, OnlyAddsEndings self l (psL s))); [|].
    { intros. by apply adds_addDesinence. }
    apply (inherit_stable (λ s, OnlyAddsEndings self l (psL s))); [| |].
    { intros. by apply adds_addDesinence. }
    { by intros. }
    apply (directives_stable (λ s, OnlyAddsEndings self l (psL s))
             ltac:(intros; by apply adds_addDesinence)
             ltac:(by intros) ltac:(by intros)
             fuel self lines (mkParseState l (newModel EmptyString) []));
      [apply adds_refl|exact Hd]. }
  clearbody st'.
  destruct Hadds as (?&?&?&?&?&?&?&?&?&?&Hheap&Hidx).
  split; [|split].
  - repeat split; try done. intros q Hq. cbn [modelHeap].
    rewrite lookup_insert_ne by done. by apply Hheap.
  - unfold modelAt. cbn [modelHeap]. rewrite lookup_insert_eq. simpl.
    intros Hn. by rewrite bool_decide_eq_true_2.
  - unfold modelAt. cbn [modelHeap]. rewrite lookup_insert_eq. simpl.
    intros Hn. by rewrite bool_decide_eq_false_2.
Qed.

End GoLibrary.

Import Samples.

Lemma withA_sound : Sound withA.
Proof.
  split.
  - intros k ds d Hk. cbn [withA desinences] in Hk.
    by rewrite lookup_empty in Hk.
  - intros p m Hp. cbn [withA modelHeap] in Hp.
    apply lookup_singleton_Some in Hp as [<- <-].
    intros mn ds d Hk Hd. cbn [modelA Model.Desinences] in Hk.
    apply lookup_insert_Some in Hk as [[<- <-]|[_ Hk]].
    + apply list_elem_of_singleton in Hd as ->.
      split; [reflexivity|split; reflexivity].
    + apply lookup_singleton_Some in Hk as [<- <-].
      apply list_elem_of_singleton in Hd as ->.
      split; [reflexivity|split; reflexivity].
Qed.

Lemma parseModel_sound_witness :
  ∃ l', compileB = Some (l', Some 2%positive)
        ∧ Sound l' ∧ ModelSound 2%positive (modelAt l' 2%positive).
Proof.
  destruct compileB as [[l' p]|] eqn:E; [|by vm_compute in E].
  assert (p = Some 2%positive) as -> by (vm_compute in E; congruence).
  exists l'. split; [done|].
  exact (parseModel_sound trimSpaceASCII atoiDigits 8 2%positive withA
           blockB l' (Some 2%positive) withA_sound E).
Defined.

Lemma parseModel_only_adds_witness :
  ∃ l', compileB = Some (l', Some 2%positive)
        ∧ OnlyAddsEndings 2%positive withA l'.
Proof.
  destruct compileB as [[l' p]|] eqn:E; [|by vm_compute in E].
  assert (p = Some 2%positive) as -> by (vm_compute in E; congruence).
  exists l'. split; [done|].
  exact (proj1 (parseModel_only_adds trimSpaceASCII atoiDigits 8 2%positive
                  withA blockB l' (Some 2%positive) E)).
Defined.

End CompilerFacts.

(** ** Variables in the lines of a model *)

Module VariableFacts.
Import GoStrings Loader Notions MoreNotions StringFacts.

Lemma Index_Some s sub i :
  Index s sub = Some i → HasPrefix (strDrop i s) sub = true.
Proof.
  revert i. induction s as [|c t IH]; intros i; cbn [Index].
  - destruct (HasPrefix EmptyString sub) eqn:E; [|done]. by intros [= <-].
  - destruct (HasPrefix (String c t) sub) eqn:E; [by intros [= <-]|].
    destruct (Index t sub) as [j|] eqn:Ej; [|done].
    intros [= <-]. by apply IH.
Qed.

Lemma strDrop_strDrop n m s : strDrop n (strDrop m s) = strDrop (m + n) s.
Proof.
  revert s. induction m as [|m IH]; intros s; [done|].
  destruct s as [|c t]; [by destruct n|]. apply IH.
Qed.

Lemma Index_split s sub i :
  Index s sub = Some i →
  s = strTake i s +:+ sub +:+ strDrop (i + String.length sub) s.
Proof.
  intros [rest Hrest]%Index_Some%HasPrefix_spec.
  rewrite <- (strTake_strDrop i s) at 1. f_equal.
  rewrite Hrest. f_equal.
  by rewrite <- strDrop_strDrop, Hrest, strDrop_app.
Qed.

Lemma Index_exists s sub d :
  HasPrefix (strDrop d s) sub = true → is_Some (Index s sub).
Proof.
  revert d. induction s as [|c t IH]; intros d; cbn [Index].
  - destruct d; cbn [strDrop]; intros ->; by eexists.
  - destruct (HasPrefix (String c t) sub) eqn:E; [by eexists|].
    destruct d as [|d]; cbn [strDrop]; [congruence|].
    intros H. destruct (IH _ H) as [j ->]. by eexists.
Qed.

Lemma dollars_app s t : dollars (s +:+ t) = (dollars s + dollars t)%nat.
Proof.
  induction s as [|c s IH]; [done|]. rewrite str_app_cons. simpl.
  rewrite IH. lia.
Qed.

Lemma dollars_Index s : Index s "$" = None → dollars s = 0%nat.
Proof.
  induction s as [|c t IH]; [done|]. cbn [Index HasPrefix].
  rewrite HasPrefix_nil, andb_true_r. simpl.
  case_bool_decide as Hc; [done|].
  destruct (Index t "$") eqn:E; [done|]. intros _.
  rewrite bool_decide_eq_false_2 by congruence. by rewrite IH.
Qed.

(** the name that the loop reads at the first dollar sign *)
Lemma name_at_dollar line d :
  Index line "$" = Some d →
  let tail := strDrop d line in
  let varName := match Index tail ";" with
                 | None => tail
                 | Some f => strTake f tail
                 end in
  HasPrefix tail varName = true ∧ (1 ≤ dollars varName)%nat.
Proof.
  intros Hd tail varName. apply Index_Some in Hd. fold tail in Hd.
  apply HasPrefix_spec in Hd as [rest Hrest]. subst varName.
  change ("$" +:+ rest) with (String "$" rest) in Hrest.
  destruct (Index tail ";") as [f|] eqn:Hf.
  - split.
    + apply HasPrefix_spec. exists (strDrop f tail).
      by rewrite strTake_strDrop.
    + rewrite Hrest in Hf |- *. destruct f as [|f]; [|simpl; lia].
      cbn [Index HasPrefix] in Hf.
      rewrite bool_decide_eq_false_2 in Hf by done. simpl in Hf.
      by destruct (Index rest ";").
  - split.
    + apply HasPrefix_spec. exists EmptyString. by rewrite str_app_nil_r.
    + rewrite Hrest. simpl. lia.
Qed.

Lemma ReplaceFirst_dollars line varName val d :
  HasPrefix (strDrop d line) varName = true →
  dollars val = 0%nat →
  (dollars (ReplaceFirst line varName val) + dollars varName
   = dollars line)%nat.
Proof.
  intros Hpre Hval. unfold ReplaceFirst.
  destruct (Index_exists _ _ _ Hpre) as [i Hi]. rewrite Hi.
  rewrite (Index_split _ _ _ Hi) at 3.
  rewrite !dollars_app, Hval. lia.
Qed.

(** X26.  A line without dollar sign is left as it is.  And when no
    value of the table of variables holds a dollar sign, the
    substitution comes to an end: as many rounds as the line has
    dollar signs are enough, and the result has no more dollar signs
    than the line had. *)
Theorem substituteVars_terminates (vars : gmap string string)
    (line : string) :
  (∀ fuel, Index line "$" = None →
           substituteVars fuel vars line = Some line)
  ∧ ((∀ k v, vars !! k = Some v → dollars v = 0%nat) →
     ∀ fuel, (dollars line ≤ fuel)%nat →
             ∃ out, substituteVars fuel vars line = Some out
                    ∧ (dollars out ≤ dollars line)%nat).
Proof.
  split.
  - intros fuel H. destruct fuel; simpl; by rewrite H.
  - intros Hvars fuel. revert line.
    induction fuel as [|fuel IH]; intros line Hfuel.
    + exists line. split; [|done]. simpl.
      destruct (Index line "$") as [d|] eqn:Hd; [|done].
      destruct (name_at_dollar line d Hd) as [Hpre Hone].
      destruct (vars !! _) as [val|] eqn:Hv; [|done].
      pose proof (ReplaceFirst_dollars _ _ val d Hpre (Hvars _ _ Hv)).
      lia.
    + simpl. destruct (Index line "$") as [d|] eqn:Hd;
        [|by exists line].
      destruct (name_at_dollar line d Hd) as [Hpre Hone].
      destruct (vars !! _) as [val|] eqn:Hv; [|by exists line].
      pose proof (ReplaceFirst_dollars _ _ val d Hpre (Hvars _ _ Hv)) as Hr.
      destruct (IH (ReplaceFirst line
                      match Index (strDrop d line) ";" with
                      | Some f => strTake f (strDrop d line)
                      | None => strDrop d line
                      end val) ltac:(lia)) as (out & Hout & Hle).
      exists out. split; [done|lia].
Qed.

Import MoreSamples.

Lemma substituteVars_terminates_witness :
  ∃ out, substituteVars 1 oneVariable "des:1:1:$lupus;a" = Some out
         ∧ (dollars out ≤ dollars "des:1:1:$lupus;a")%nat.
Proof.
  apply (substituteVars_terminates oneVariable "des:1:1:$lupus;a").
  - intros k v Hv. unfold oneVariable in Hv.
    apply lookup_singleton_Some in Hv as [_ <-]. reflexivity.
  - simpl. lia.
Defined.

End VariableFacts.

(** ** Loading the irregular forms *)

Module IrregsFacts.
Import GoStrings Normalize Loader LoaderMore Notions MoreNotions
  IrregularFacts CompilerFacts.

Lemma Loaded_lemmaAt l p : AllLoaded l → Loaded (lemmaAt l p).
Proof.
  intros Hl. unfold lemmaAt.
  destruct (lemmaHeap l !! p) as [lem|] eqn:E; [by eapply Hl|].
  by apply loaded_new.
Qed.

Section GoLibrary.
Variable TrimSpace : string → string.
Variable Atoi : string → Z.

Local Abbreviation loadIrregsLine := (loadIrregsLine TrimSpace Atoi).
Local Abbreviation loadIrregs := (loadIrregs TrimSpace Atoi).

Lemma line_keeps l line :
  AllLoaded l ∧ IrregsSound l →
  AllLoaded (loadIrregsLine l line) ∧ IrregsSound (loadIrregsLine l line).
Proof.
  intros [Hload Hidx]. unfold LoaderMore.loadIrregsLine.
  destruct (_ || _); [done|].
  destruct (Split1 _ _) as [|p0 [|p1 [|p2 rest]]]; try done.
  destruct (lemmas l !! Deramise p1) as [lp|]; [|done].
  set (irr := Irreg.mk _ _ _ _ _).
  assert (∀ q, lemmaAt (setIrregs l (appendAt (irregs l)
                                       (Deramise (Irreg.Gr irr)) [irr])
                          (<[lp := addIrreg (lemmaAt l lp) irr]>
                             (lemmaHeap l))) q
               = if decide (q = lp) then addIrreg (lemmaAt l lp) irr
                 else lemmaAt l q) as Hat.
  { intros q. unfold lemmaAt at 1. cbn [setIrregs lemmaHeap].
    destruct (decide (q = lp)) as [->|Hne].
    - by rewrite lookup_insert_eq.
    - by rewrite lookup_insert_ne. }
  split.
  - intros q lem. cbn [setIrregs lemmaHeap].
    destruct (decide (q = lp)) as [->|Hne].
    + rewrite lookup_insert_eq. intros [= <-].
      by apply loaded_add, Loaded_lemmaAt.
    + rewrite lookup_insert_ne by done. apply Hload.
  - intros k irrs irr' Hk Hin. cbn [setIrregs irregs] in Hk.
    rewrite Hat.
    destruct (elem_of_appendAt _ _ _ _ _ _ Hk Hin)
      as [(zs & Hz & Hin')|[-> Hin']].
    + destruct (Hidx _ _ _ Hz Hin') as (-> & Hgr & Hmem).
      split; [done|]. split; [done|].
      destruct (decide _) as [E|_]; [|done].
      cbn [addIrreg Lemma.irregs]. apply elem_of_app. left.
      by rewrite <- E.
    + apply list_elem_of_singleton in Hin' as ->.
      split; [done|]. split; [done|].
      rewrite decide_True by done.
      cbn [addIrreg Lemma.irregs]. apply elem_of_app. right. by left.
Qed.

(** X27.  Loading the irregular forms keeps the lemmas and the index
    of irregular forms in step.  Started on lemmas that only
    [addIrreg] has touched and on an index in order, it ends with
    such lemmas and such an index: every form is filed under the
    deramised form of its unmarked form and stands in the list of its
    lemma; and every exclusive form of the index masks each of its
    slots in its lemma, so that the matcher passes over the regular
    endings there. *)
Theorem loadIrregs_in_step (l : Lemmatizer) (lines : list string) :
  AllLoaded l → IrregsSound l →
  AllLoaded (loadIrregs l lines)
  ∧ IrregsSound (loadIrregs l lines)
  ∧ (∀ k irrs irr s,
       irregs (loadIrregs l lines) !! k = Some irrs → irr ∈ irrs →
       Irreg.Exclusive irr = true → s ∈ Irreg.Morphos irr →
       isExclusiveIrreg
         (lemmaAt (loadIrregs l lines) (Irreg.Lemma irr)) s = true).
Proof.
  intros Hload Hidx.
  assert (AllLoaded (loadIrregs l lines)
          ∧ IrregsSound (loadIrregs l lines)) as [H1 H2].
  { unfold LoaderMore.loadIrregs.
    apply (ResultFacts.foldl_inv (λ l, AllLoaded l ∧ IrregsSound l));
      [done|].
    intros l1 line _ Hl1. by apply line_keeps. }
  split; [done|]. split; [done|].
  intros k irrs irr s Hk Hin Hex Hs.
  destruct (H2 _ _ _ Hk Hin) as (_ & _ & Hmem).
  eapply loaded_mask; [by apply Loaded_lemmaAt|exact Hmem|done|done].
Qed.

End GoLibrary.

Import Samples MoreSamples.

Lemma loadIrregs_in_step_witness :
  isExclusiveIrreg
    (lemmaAt (LoaderMore.loadIrregs trimSpaceASCII atoiDigits plainLexicon
                ["! irregs"; "dŏmī*:dominus:2"]) 1%positive) 2 = true.
Proof.
  destruct (loadIrregs_in_step trimSpaceASCII atoiDigits plainLexicon
              ["! irregs"; "dŏmī*:dominus:2"]) as (_ & _ & H).
  - intros p lem Hp. unfold plainLexicon, lexicon in Hp.
    cbn [lemmaHeap] in Hp.
    apply lookup_singleton_Some in Hp as [_ <-].
    by apply loaded_new.
  - intros k irrs irr Hk. by vm_compute in Hk.
  - apply (H "domi" [Irreg.mk "dŏmī" "domi" true 1%positive [2]]
             (Irreg.mk "dŏmī" "domi" true 1%positive [2]) 2).
    + by vm_compute.
    + by left.
    + reflexivity.
    + by left.
Defined.

End IrregsFacts.

(** ** The first word of a sentence *)

Module SentenceFacts.
Import GoStrings Normalize Lemmatize Notions MoreNotions StringFacts
  LemmatizeFacts TerminationFacts ResultFacts.

Lemma entries_mergeInto mm src :
  entries (mergeInto mm src)
  = foldl (λ m (e : ptr * list Analysis), appendAt m e.1 e.2)
      (entries mm) (map_to_list (entries src)).
Proof.
  unfold mergeInto. generalize (map_to_list (entries src)) as es.
  intros es. revert mm. induction es as [|e es IH]; intros mm; [done|].
  simpl. by rewrite IH.
Qed.

(** merging keeps what is merged in *)
Lemma lists_mergeInto mm src lp an :
  Lists (entries src) lp an → Lists (entries (mergeInto mm src)) lp an.
Proof.
  intros (ans & Hans & Han). rewrite entries_mergeInto.
  apply (foldl_lists _ _ (lp, ans)).
  - by apply elem_of_map_to_list.
  - intros m e. apply extends_appendAt.
  - intros m. by apply lists_appendAt.
Qed.

Section Unicode.
Variable ToLower : string → string.
Variable IsUpper IsLower : Rune → bool.
Variable ToUpper : Rune → Rune.

Local Abbreviation body := (body ToLower IsUpper IsLower ToUpper).
Local Abbreviation run := (run ToLower IsUpper IsLower ToUpper).
Local Abbreviation Returns := (Returns ToLower IsUpper IsLower ToUpper).

Ltac answer :=
  rewrite interp_call_bind;
  match goal with
  | |- (?x ≫= _) = Some _ → _ => destruct x as [?|] eqn:?; [|done]
  end;
  cbn [mbind option_bind interp].

(** the last stage without the flag is the raw matcher *)
Lemma final_plain l depth form r :
  form ≠ EmptyString →
  run l (S depth) (CallEtape form false 4) = Some r →
  run l depth (CallRaw form) = Some r.
Proof.
  intros Hform. simpl. unfold lemmatizeMEtape.
  rewrite bool_decide_eq_false_2 by done.
  change (4 >? 3) with true. cbv iota. answer. by intros [= <-].
Qed.

(** at the last stage a capitalized first word gets the analyses of
    its lowercased form as well *)
Lemma final_lists_lowercased l depth form r r0 lp an :
  form ≠ EmptyString → ToLower form ≠ EmptyString →
  firstRune IsUpper form = true →
  run l depth (CallEtape form true 4) = Some r →
  Returns l (CallRaw (ToLower form)) r0 →
  Lists (entries r0) lp an → Lists (entries r) lp an.
Proof.
  intros Hform Hlow Hup Hr H0 Hl. destruct depth as [|depth]; [done|].
  revert Hr. simpl. unfold lemmatizeMEtape.
  rewrite bool_decide_eq_false_2 by done.
  change (4 >? 3) with true. cbv iota. answer.
  rewrite Hup, bool_decide_eq_true_2
    by (destruct form; [done|simpl; lia]).
  cbv iota beta delta [andb]. answer. intros [= <-].
  apply lists_mergeInto.
  destruct depth as [|depth]; [done|].
  match goal with
  | E : run l (S depth) (CallEtape (ToLower form) false 4) = Some ?g |- _ =>
      apply final_plain in E; [|done];
      apply run_Returns in E;
      by rewrite (Returns_unique _ _ _ _ _ _ _ _ E H0)
  end.
Qed.

(** a stage keeps what the next stage finds for the same form *)
Lemma stage_extends l depth form ss e r :
  form ≠ EmptyString → e ≤ 3 →
  run l depth (CallEtape form ss e) = Some r →
  ∃ n r', run l n (CallEtape form ss (e + 1)) = Some r'
          ∧ Extends (entries r') (entries r).
Proof.
  intros Hform He. destruct depth as [|depth]; [done|].
  simpl. unfold lemmatizeMEtape.
  rewrite bool_decide_eq_false_2 by done.
  replace (e >? 3) with false
    by (symmetry; rewrite Z.gtb_ltb; apply Z.ltb_ge; lia).
  answer. intros H. eexists depth, _. split; [done|]. revert H.
  destruct (e =? 3).
  { case_bool_decide; [|by intros [= <-]].
    answer. intros [= <-]. apply extends_mergeInto. }
  destruct (e =? 2).
  { case_bool_decide;
      [answer; intros [= <-]; apply extends_mergeInto|].
    case_bool_decide; [|by intros [= <-]].
    answer. intros [= <-]. apply extends_mergeInto. }
  destruct (e =? 1).
  { destruct (lenMap _ =? 0) eqn:Hlen; [|by intros [= <-]].
    intros _. intros lp ans Hlp.
    apply lenMap_zero in Hlen. by rewrite Hlen, lookup_empty in Hlp. }
  destruct (e =? 0); [|by intros [= <-]].
  destruct (lenMap _ =? 0) eqn:Hlen; [|by intros [= <-]].
  intros _. intros lp ans Hlp.
  apply lenMap_zero in Hlen. by rewrite Hlen, lookup_empty in Hlp.
Qed.

(** X28.  The first word of a sentence: when the form begins with an
    upper-case letter and the flag is set, [LemmatizeWord] lists every
    analysis that the raw matcher finds for the lowercased form. *)
Theorem sentence_start_lowercased (l : Lemmatizer) (form : string)
    (lp : ptr) (an : Analysis) :
  form ≠ EmptyString → ToLower form ≠ EmptyString →
  firstRune IsUpper form = true →
  ∃ r0 r, Returns l (CallRaw (ToLower form)) r0
          ∧ Returns l (LemmatizeWord form true) r
          ∧ (Lists (entries r0) lp an → Lists (entries r) lp an).
Proof.
  intros Hform Hlow Hup.
  destruct (raw_returns ToLower IsUpper IsLower ToUpper l (ToLower form))
    as [r0 H0].
  destruct (cascade_returns ToLower IsUpper IsLower ToUpper l form true)
    as [r Hr].
  exists r0, r. split; [done|]. split; [done|]. intros Hl.
  destruct Hr as [n Hn]. specialize (Hn n ltac:(lia)).
  apply stage_extends in Hn as (n1 & r1 & Hn1 & E1); [|done|lia].
  apply stage_extends in Hn1 as (n2 & r2 & Hn2 & E2); [|done|lia].
  apply stage_extends in Hn2 as (n3 & r3 & Hn3 & E3); [|done|lia].
  apply stage_extends in Hn3 as (n4 & r4 & Hn4 & E4); [|done|lia].
  change (0 + 1 + 1 + 1 + 1) with 4 in Hn4.
  apply (lists_extends (entries r1)); [|done].
  apply (lists_extends (entries r2)); [|done].
  apply (lists_extends (entries r3)); [|done].
  apply (lists_extends (entries r4)); [|done].
  exact (final_lists_lowercased l n4 form r4 r0 lp an Hform Hlow Hup
           Hn4 H0 Hl).
Qed.

End Unicode.

Import Samples MoreSamples.

Lemma sentence_start_lowercased_witness :
  ∃ r0 r, Returns toLowerASCII isUpperASCII isLowerASCII toUpperASCII tiny
            (CallRaw (toLowerASCII "Puellam")) r0
          ∧ Returns toLowerASCII isUpperASCII isLowerASCII toUpperASCII
              tiny (LemmatizeWord "Puellam" true) r
          ∧ (Lists (entries r0) 1%positive
               (mkAnalysis "pŭēllām" "accusatif singulier" 3) →
             Lists (entries r) 1%positive
               (mkAnalysis "pŭēllām" "accusatif singulier" 3)).
Proof.
  apply (sentence_start_lowercased toLowerASCII isUpperASCII isLowerASCII
           toUpperASCII tiny "Puellam" 1%positive
           (mkAnalysis "pŭēllām" "accusatif singulier" 3)).
  - discriminate.
  - discriminate.
  - reflexivity.
Defined.

End SentenceFacts.

(** ** The file of models *)

Module ModelsFileFacts.
Import GoStrings Normalize Loader LoaderMore Notions MoreNotions
  ModelFacts ResultFacts CompilerFacts.

Section GoLibrary.
Variable TrimSpace : string → string.
Variable Atoi : string → Z.

(** what a compilation does to the stores *)
Lemma parseModel_facts fuel self l lines l' p :
  Sound l →
  parseModel TrimSpace Atoi fuel self l lines = Some (l', p) →
  Sound l'
  ∧ models l' = models l
  ∧ (∀ q, q ≠ self → modelHeap l' !! q = modelHeap l !! q)
  ∧ is_Some (modelHeap l' !! self)
  ∧ (∀ q, p = Some q → q = self).
Proof.
  intros Hl. unfold parseModel.
  destruct (directives _ _ _ _ _ _) as [st|] eqn:Hd; [|done].
  intros [= <- <-].
  set (st' := applySuffixes self (inherit self st)).
  assert (StateSound self st') as [[Hidx Hheap] Hm].
  { apply applySuffixes_sound, inherit_sound.
    eapply directives_sound; [|exact Hd]. split; [done|].
    intros mn ds d Hk. cbn [psM newModel Model.Desinences] in Hk.
    by rewrite lookup_empty in Hk. }
  assert (OnlyAddsEndings self l (psL st')) as Hadds.
  { subst st'.
    apply (applySuffixes_stable
             (λ s, OnlyAddsEndings self l (psL s))); [|].
    { intros. by apply adds_addDesinence. }
    apply (inherit_stable
             (λ s, OnlyAddsEndings self l (psL s))); [| |].
    { intros. by apply adds_addDesinence. }
    { by intros. }
    apply (directives_stable TrimSpace Atoi
             (λ s, OnlyAddsEndings self l (psL s))
             ltac:(intros; by apply adds_addDesinence)
             ltac:(by intros) ltac:(by intros)
             fuel self lines (mkParseState l (newModel EmptyString) []));
      [apply adds_refl|exact Hd]. }
  clearbody st'.
  destruct Hadds as (_&Hmodels&_&_&_&_&_&_&_&_&Hframe&_).
  split; [split; [exact Hidx|]|].
  { intros q m. cbn [modelHeap].
    destruct (decide (q = self)) as [->|Hne].
    - rewrite lookup_insert_eq. by intros [= <-].
    - rewrite lookup_insert_ne by done. apply Hheap. }
  split; [exact Hmodels|]. split.
  { intros q Hq. cbn [modelHeap]. rewrite lookup_insert_ne by done.
    by apply Hframe. }
  split.
  { cbn [modelHeap]. rewrite lookup_insert_eq. by eexists. }
  intros q. case_bool_decide; [done|]. by intros [= <-].
Qed.

Lemma register_keeps l name p m :
  Sound l → Registered l → modelHeap l !! p = Some m →
  Model.Name m = name →
  Sound (register l name p) ∧ Registered (register l name p).
Proof.
  intros Hs Hr Hp Hn. split; [done|].
  intros name' q. cbn [register models modelHeap].
  destruct (decide (name' = name)) as [->|Hne].
  - rewrite lookup_insert_eq. intros [= <-]. by exists m.
  - rewrite lookup_insert_ne by done. apply Hr.
Qed.

Lemma flushBlock_keeps fuel l block l' :
  Sound l → Registered l →
  flushBlock TrimSpace Atoi fuel l block = Some l' →
  Sound l' ∧ Registered l'.
Proof.
  intros Hs Hr. unfold flushBlock.
  destruct block as [|b0 block]; [by intros [= <-]|].
  set (self := fresh (dom (modelHeap l))).
  assert (modelHeap l !! self = None) as Hfresh
    by (apply not_elem_of_dom, is_fresh).
  destruct (parseModel _ _ _ _ _ _) as [[l1 p]|] eqn:Hp; [|done].
  destruct (parseModel_facts _ _ _ _ _ _ Hs Hp)
    as (Hs1 & Hmodels & Hframe & [m Hm] & Hself).
  assert (Registered l1) as Hr1.
  { intros name q Hq. rewrite Hmodels in Hq.
    destruct (Hr _ _ Hq) as (m0 & Hm0 & Hn0). exists m0.
    split; [|done]. rewrite Hframe; [done|]. intros ->. congruence. }
  destruct p as [q|]; intros [= <-]; [|done].
  rewrite (Hself q eq_refl). unfold modelAt. rewrite Hm. simpl.
  by eapply register_keeps.
Qed.

Lemma loadModelsLines_keeps fuel lines l block l' :
  Sound l → Registered l →
  loadModelsLines TrimSpace Atoi fuel l block lines = Some l' →
  Sound l' ∧ Registered l'.
Proof.
  revert l block. induction lines as [|raw rest IH]; intros l block Hs Hr.
  { by apply flushBlock_keeps. }
  cbn [loadModelsLines].
  case_bool_decide; [by apply IH|].
  destruct (HasPrefix (TrimSpace raw) "!"); [by apply IH|].
  destruct (HasPrefix (TrimSpace raw) "$").
  { apply IH; by destruct (Index _ _) as [[|?]|]. }
  destruct (_ && _); [|by apply IH].
  destruct (flushBlock _ _ _ _ _) as [l1|] eqn:Hf; [|done].
  destruct (flushBlock_keeps _ _ _ _ Hs Hr Hf). by apply IH.
Qed.

(** X29.  Loading the file of models keeps the stores in order: when
    every name of the table of models leads to a stored model of
    that name, and the endings are filed as [Sound] has it, the same
    holds after the whole file has been read, its blocks compiled
    one after the other and each model registered under its name. *)
Theorem loadModels_in_order (fuel : nat) (l : Lemmatizer)
    (lines : list string) (l' : Lemmatizer) :
  Sound l → Registered l →
  loadModels TrimSpace Atoi fuel l lines = Some l' →
  Sound l' ∧ Registered l'.
Proof.
  intros Hs Hr Hload. unfold LoaderMore.loadModels in Hload.
  by eapply loadModelsLines_keeps.
Qed.

End GoLibrary.

Import Samples MoreSamples.

Lemma loadModels_in_order_witness :
  ∃ l', loadModels trimSpaceASCII atoiDigits 4 emptyLemmatizer twoModels
        = Some l'
        ∧ Sound l' ∧ Registered l'.
Proof.
  destruct (loadModels trimSpaceASCII atoiDigits 4 emptyLemmatizer twoModels)
    as [l'|] eqn:E; [|by vm_compute in E].
  exists l'. split; [done|].
  apply (loadModels_in_order trimSpaceASCII atoiDigits 4 emptyLemmatizer
           twoModels l'); [| |exact E].
  - split.
    + intros k ds d Hk. cbn [emptyLemmatizer desinences] in Hk.
      by rewrite lookup_empty in Hk.
    + intros p m Hp. cbn [emptyLemmatizer modelHeap] in Hp.
      by rewrite lookup_empty in Hp.
  - intros name p Hp. cbn [emptyLemmatizer models] in Hp.
    by rewrite lookup_empty in Hp.
Defined.

End ModelsFileFacts.
